(** * reader: the SQLite-bound full-text search provider ([reader/_search.py])

    A shallow embedding of [Search] (schema lifecycle, change tracking by
    triggers, chunked reindexing, ranked and paginated queries) and the
    properties of it that the specification states.

    Tables are lists of rows in storage order; every SQL statement of the
    source is a function on those lists.  The methods of [Search] are written
    in a small state-and-exception monad whose state is the database together
    with the records passed to [log.debug].

    A last part covers the registry of retrievers of the feed parser
    ([reader/_parser.py]). *)

From Stdlib Require Import ZArith Lia DecimalString.
From Stdlib Require DecimalNat DecimalFacts.
From stdpp Require Import base option list strings gmap sorting.

Local Open Scope Z_scope.

(** ** Strings as Python and SQLite use them *)

(** [lower()]: ASCII letters only, as SQLite's built-in and as [str.lower]
    on the ASCII error messages it is applied to. *)
Definition ascii_lower (c : Ascii.ascii) : Ascii.ascii :=
  let n := Ascii.N_of_ascii c in
  if ((65 <=? n) && (n <=? 90))%N then Ascii.ascii_of_N (n + 32) else c.

Fixpoint lower (s : string) : string :=
  match s with
  | EmptyString => EmptyString
  | String c s' => String (ascii_lower c) (lower s')
  end.

(** [needle in hay] on Python strings. *)
Fixpoint contains (needle hay : string) : bool :=
  String.prefix needle hay
  || match hay with
     | EmptyString => false
     | String _ hay' => contains needle hay'
     end.

(** Decimal rendering of an array index, as [json_each.key] is concatenated
    into the content path. *)
Definition str_of_nat (n : nat) : string :=
  NilZero.string_of_uint (Nat.to_uint n).

(** Python truthiness of an optional string: [None] and [''] are falsy. *)
Definition truthy (s : option string) : bool :=
  match s with
  | None => false
  | Some s => negb (bool_decide (s = ""))
  end.

(** ** Data model *)

(** The key of an entry: [(id, feed)]. *)
Definition Key : Type := string * string.

(** One element of the JSON array stored in [entries.content]. *)
Record Content := mkContent {
  c_value : option string;
  c_type : option string;
}.

(** A row of [entries], with the columns the search provider reads.
    [e_content] is [None] when the column is NULL (the storage writes NULL
    for an entry without content, and [json_valid] is false on it). *)
Record Entry := mkEntry {
  e_id : string;
  e_feed : string;
  e_title : option string;
  e_summary : option string;
  e_content : option (list Content);
}.

(** A row of [feeds]. *)
Record Feed := mkFeed {
  f_url : string;
  f_title : option string;
  f_user_title : option string;
}.

(** A row of [entries_search_sync_state]. *)
Record SyncState := mkSyncState {
  ss_id : string;
  ss_feed : string;
  to_update : bool;
  to_delete : bool;
}.

(** A row of the FTS5 table [entries_search]. *)
Record Doc := mkDoc {
  title : option string;
  content : option string;
  feed : option string;
  _id : string;
  _feed : string;
  _content_path : option string;
  _is_feed_user_title : bool;
}.

(** The two tables created by [enable]; the four triggers exist exactly when
    the tables do, since one DDL transaction creates or drops them all. *)
Record SearchTables := mkTables {
  entries_search : list Doc;
  entries_search_sync_state : list SyncState;
}.

Record DB := mkDB {
  entries : list Entry;
  feeds : list Feed;
  search_tables : option SearchTables;
}.

Global Instance Content_eq_dec : EqDecision Content.
Proof. solve_decision. Defined.
Global Instance Entry_eq_dec : EqDecision Entry.
Proof. solve_decision. Defined.
Global Instance Feed_eq_dec : EqDecision Feed.
Proof. solve_decision. Defined.
Global Instance SyncState_eq_dec : EqDecision SyncState.
Proof. solve_decision. Defined.
Global Instance Doc_eq_dec : EqDecision Doc.
Proof. solve_decision. Defined.

Definition entry_key (e : Entry) : Key := (e_id e, e_feed e).
Definition sync_key (r : SyncState) : Key := (ss_id r, ss_feed r).
Definition doc_key (d : Doc) : Key := (_id d, _feed d).

Definition with_docs (t : SearchTables) (docs : list Doc) : SearchTables :=
  mkTables docs (entries_search_sync_state t).
Definition with_sync (t : SearchTables) (rows : list SyncState) : SearchTables :=
  mkTables (entries_search t) rows.

(** ** SQL building blocks *)

(** [LIMIT n]: a negative limit means no limit. *)
Definition sql_limit {A} (n : Z) (l : list A) : list A :=
  if n <? 0 then l else take (Z.to_nat n) l.

(** [SELECT ... UNION SELECT ...] removes duplicate rows. *)
Definition sql_union `{EqDecision A} (l1 l2 : list A) : list A :=
  remove_dups (l1 ++ l2).

(** [summary IS NULL OR summary = ''] *)
Definition summary_is_empty (e : Entry) : bool := negb (truthy (e_summary e)).

(** [json_valid(content) and json_array_length(content) > 0] *)
Definition has_content (e : Entry) : bool :=
  match e_content e with
  | Some (_ :: _) => true
  | _ => false
  end.

(** [json_object_get(value, 'type') is NULL OR lower(...) in (...)] *)
Definition indexable_type (c : Content) : bool :=
  match c_type c with
  | None => true
  | Some ty =>
      bool_decide (lower ty ∈ ["text/html"; "text/xhtml"; "text/plain"])
  end.

(** ** State, exceptions and the monad of the methods *)

Inductive exn :=
  | OperationalError (msg : string)
  | IntegrityError (msg : string)
  | SearchError (msg : string)
  | SearchNotEnabledError
  | InvalidSearchQueryError (msg : string).

(** One [log.debug] call of [Search.update]: which step, and the count. *)
Record LogRecord := mkLog {
  log_step : string;
  log_count : Z;
}.

Record State := mkState {
  db : DB;
  log : list LogRecord;
}.

Inductive Res (A : Type) :=
  | Ok (a : A) (s : State)
  | Raise (e : exn) (s : State)
  | OutOfFuel.
Arguments Ok {A} a s.
Arguments Raise {A} e s.
Arguments OutOfFuel {A}.

Definition M (A : Type) : Type := State → Res A.

Definition ret {A} (a : A) : M A := λ s, Ok a s.
Definition bind {A B} (m : M A) (k : A → M B) : M B :=
  λ s, match m s with
       | Ok a s' => k a s'
       | Raise e s' => Raise e s'
       | OutOfFuel => OutOfFuel
       end.
Definition raise {A} (e : exn) : M A := λ s, Raise e s.

Global Instance M_ret : MRet M := @ret.
Global Instance M_bind : MBind M := λ A B k m, bind m k.

(** [try: m except sqlite3.OperationalError as e: h(str(e))]; the handler
    returns [None] for a bare [raise]. *)
Definition try_operational {A} (m : M A) (h : string → option (M A)) : M A :=
  λ s, match m s with
       | Raise (OperationalError msg) s' =>
           match h msg with
           | Some k => k s'
           | None => Raise (OperationalError msg) s'
           end
       | r => r
       end.

(** [with self.storage.db:] and [ddl_transaction]: commit on normal exit,
    roll the database back when the body raises. *)
Definition transaction {A} (m : M A) : M A :=
  λ s, match m s with
       | Raise e s' => Raise e (mkState (db s) (log s'))
       | r => r
       end.

Definition debug (step : string) (n : Z) : M unit :=
  λ s, Ok () (mkState (db s) (log s ++ [mkLog step n])).

(** The state in which the search tables are [t]. *)
Definition set_tables (s : State) (t : SearchTables) : State :=
  mkState (mkDB (entries (db s)) (feeds (db s)) (Some t)) (log s).

(** The message SQLite gives for a statement naming a missing table. *)
Definition no_such_table (name : string) : string :=
  "no such table: " +:+ name.

(** [db.execute] of a statement over the search tables: it fails to prepare
    when they do not exist. *)
Definition execute {A} (table : string)
    (stmt : DB → SearchTables → A * SearchTables) : M A :=
  λ s, match search_tables (db s) with
       | None => Raise (OperationalError (no_such_table table)) s
       | Some t =>
           let '(a, t') := stmt (db s) t in Ok a (set_tables s t')
       end.

(** Modelled from the spec: [wrap_exceptions] of [reader/_sqlite_utils.py],
    which is not part of the sources at hand.  Backend exceptions that reach
    the public-method boundary are re-raised as the generic search error. *)
Definition wrap_exceptions {A} (m : M A) : M A :=
  λ s, match m s with
       | Raise (OperationalError msg) s' => Raise (SearchError msg) s'
       | Raise (IntegrityError msg) s' => Raise (SearchError msg) s'
       | r => r
       end.

(** ** The batch reindexer: [Search.update] *)

(** [strip_html]: values that are not [str] (here NULL) pass through; text
    goes through BeautifulSoup, the function [soup] standing for
    [bs4.BeautifulSoup(text).get_text(separator=' ')] after the removal of the
    script, noscript, style and title elements. *)
Definition strip_html (soup : string → string) (text : option string)
    : option string :=
  soup <$> text.

(** The [SELECT esss.id, esss.feed ... JOIN entries_search ... WHERE to_update
    OR to_delete] shared by both branches of [_delete_from_search]: one row
    per pair of a dirty sync-state row and a document with its key. *)
Definition select_stale (t : SearchTables) : list Key :=
  esss ← entries_search_sync_state t;
  d ← entries_search t;
  if bool_decide (sync_key esss = doc_key d)
     && (to_update esss || to_delete esss)
  then [sync_key esss] else [].

(** [DELETE FROM entries_search WHERE (_id, _feed) IN keys] *)
Definition delete_docs (keys : list Key) (t : SearchTables) : SearchTables :=
  with_docs t (filter (λ d, doc_key d ∉ keys) (entries_search t)).

(** [DELETE FROM entries_search_sync_state WHERE (id, feed) IN (SELECT id,
    feed FROM entries_search_sync_state WHERE to_delete LIMIT n)], with the
    cursor's [rowcount]. *)
Definition delete_tombstones (n : Z) (t : SearchTables) : Z * SearchTables :=
  let rows := entries_search_sync_state t in
  let keys := sql_limit n (sync_key <$> filter (λ r, to_delete r) rows) in
  let kept := filter (λ r, sync_key r ∉ keys) rows in
  (Z.of_nat (length rows) - Z.of_nat (length kept), with_sync t kept).

(** The rows of the [union_all] common table expression:
    [(id, feed, content_path, title, content_text)]. *)
Definition IndexRow : Type :=
  string * string * option string * option string * option string.

Section insert_into_search.
Context (soup : string → string) (d : DB) (t : SearchTables).

(** [entries_search_sync_state JOIN entries USING (id, feed)
    WHERE entries_search_sync_state.to_update] *)
Definition entries_to_update : list Entry :=
  esss ← entries_search_sync_state t;
  e ← entries d;
  if bool_decide (sync_key esss = entry_key e) && to_update esss
  then [e] else [].

Definition from_summary : list IndexRow :=
  e ← entries_to_update;
  if negb (summary_is_empty e)
  then [(e_id e, e_feed e, Some ".summary",
         strip_html soup (e_title e), strip_html soup (e_summary e))]
  else [].

Definition content_path (key : nat) : string :=
  ".content[" +:+ str_of_nat key +:+ "].value".

(** [JOIN json_each(entries.content)]: one row per array element, with its
    index as [json_each.key]. *)
Definition from_content : list IndexRow :=
  e ← entries_to_update;
  if has_content e then
    mjoin (imap (λ key c,
             if indexable_type c
             then [(e_id e, e_feed e, Some (content_path key),
                    strip_html soup (e_title e),
                    strip_html soup (c_value c))]
             else [])
           (default [] (e_content e)))
  else [].

Definition from_default : list IndexRow :=
  e ← entries_to_update;
  if summary_is_empty e && negb (has_content e)
  then [(e_id e, e_feed e, None, strip_html soup (e_title e), None)]
  else [].

Definition union_all : list IndexRow :=
  sql_union (sql_union from_summary from_content) from_default.

(** The [SELECT ... FROM union_all JOIN feeds ON feeds.url = union_all.feed]
    whose rows are inserted. *)
Definition new_docs : list Doc :=
  '(r_id, r_feed, r_path, r_title, r_text) ← union_all;
  f ← feeds d;
  if bool_decide (f_url f = r_feed)
  then [mkDoc r_title r_text
          (strip_html soup (from_option Some (f_title f) (f_user_title f)))
          r_id r_feed r_path
          (bool_decide (is_Some (f_user_title f)))]
  else [].

Definition insert_docs : Z * SearchTables :=
  (Z.of_nat (length new_docs), with_docs t (entries_search t ++ new_docs)).
End insert_into_search.

(** [UPDATE entries_search_sync_state SET to_update = 0 WHERE to_update] *)
Definition clear_flags (t : SearchTables) : Z * SearchTables :=
  let rows := entries_search_sync_state t in
  (Z.of_nat (length (filter (λ r, to_update r) rows)),
   with_sync t ((λ r, mkSyncState (ss_id r) (ss_feed r) false (to_delete r))
                <$> rows)).

Section Search.
(** [Search.chunk_size], and the [bs4] module global: [None] when the
    import failed. *)
Context (chunk_size : Z) (bs4 : option (string → string)).

(** One iteration of the [while True] loop of [_delete_from_search]; the
    result says whether the loop goes on. *)
Definition _delete_from_search_chunk : M bool :=
  transaction (
    to_delete ← execute "entries_search_sync_state"
                  (λ _ t, (sql_limit chunk_size (select_stale t), t));
    debug "_delete_from_search" (Z.of_nat (length to_delete));;
    if bool_decide (to_delete = []) then mret false
    else
      execute "entries_search" (λ _ t, ((), delete_docs to_delete t));;
      mret (negb (Z.of_nat (length to_delete) <? chunk_size))).

Fixpoint _delete_from_search_loop (fuel : nat) : M unit :=
  match fuel with
  | O => λ _, OutOfFuel
  | S fuel =>
      again ← _delete_from_search_chunk;
      if again : bool then _delete_from_search_loop fuel else mret ()
  end.

Definition _delete_from_search (fuel : nat) : M unit :=
  if bool_decide (chunk_size = 0) then
    transaction
      (execute "entries_search"
         (λ _ t, ((), delete_docs (select_stale t) t)))
  else _delete_from_search_loop fuel.

(** [cursor.rowcount] is never negative for this statement, so the
    [assert] of the source cannot fail. *)
Fixpoint _delete_from_sync_state (fuel : nat) : M unit :=
  match fuel with
  | O => λ _, OutOfFuel
  | S fuel =>
      rowcount ← transaction
        (execute "entries_search_sync_state"
           (λ _, delete_tombstones
                   (if bool_decide (chunk_size = 0) then -1 else chunk_size)));
      debug "_delete_from_sync_state" rowcount;;
      if bool_decide (chunk_size = 0) then mret ()
      else if rowcount <? chunk_size then mret ()
      else _delete_from_sync_state fuel
  end.

Definition _insert_into_search (soup : string → string) : M unit :=
  rowcount ← execute "entries_search_sync_state" (insert_docs soup);
  debug "_insert_into_search" rowcount.

Definition _clear_to_update : M unit :=
  rowcount ← execute "entries_search_sync_state" (λ _, clear_flags);
  debug "_clear_to_update" rowcount.

Definition _update (fuel : nat) : M unit :=
  match bs4 with
  | None => raise (SearchError "could not import search dependencies")
  | Some soup =>
      _delete_from_search fuel;;
      _delete_from_sync_state fuel;;
      transaction (_insert_into_search soup;; _clear_to_update)
  end.

Definition update (fuel : nat) : M unit :=
  wrap_exceptions
    (try_operational (_update fuel)
       (λ msg, if contains "no such table" (lower msg)
               then Some (raise SearchNotEnabledError) else None)).
End Search.

(** ** Schema lifecycle: [enable], [disable], [is_enabled] *)

(** [CREATE VIRTUAL TABLE entries_search ...] through
    [CREATE TABLE entries_search_sync_state ...]: SQLite refuses to create a
    table that exists. *)
Definition create_tables : M unit :=
  λ s, match search_tables (db s) with
       | Some _ =>
           Raise (OperationalError "table entries_search already exists") s
       | None =>
           Ok () (set_tables s (mkTables [] []))
       end.

(** [INSERT INTO entries_search_sync_state SELECT id, feed, 1, 0 FROM
    entries]; the primary key [(id, feed)] of the target must hold. *)
Definition backfill : M unit :=
  λ s, match search_tables (db s) with
       | None =>
           Raise (OperationalError (no_such_table "entries_search_sync_state")) s
       | Some t =>
           let rows :=
             entries_search_sync_state t
             ++ ((λ e, mkSyncState (e_id e) (e_feed e) true false)
                 <$> entries (db s)) in
           if bool_decide (NoDup (sync_key <$> rows)) then
             Ok () (set_tables s (with_sync t rows))
           else
             Raise (IntegrityError
                      ("UNIQUE constraint failed: "
                       +:+ "entries_search_sync_state.id, "
                       +:+ "entries_search_sync_state.feed")) s
       end.

(** The four [CREATE TRIGGER] statements add no rows; the triggers they
    create are the functions of the next part, which the primary store's
    writes run whenever the tables exist. *)
Definition _enable : M unit :=
  transaction (create_tables;; backfill).

Definition enable : M unit :=
  wrap_exceptions
    (try_operational _enable
       (λ msg, if contains "table entries_search already exists" (lower msg)
               then Some (mret ()) else None)).

(** [DROP TABLE IF EXISTS] and [DROP TRIGGER IF EXISTS], six times. *)
Definition disable : M unit :=
  wrap_exceptions
    (transaction
       (λ s, Ok () (mkState (mkDB (entries (db s)) (feeds (db s)) None)
                      (log s)))).

Definition is_enabled : M bool :=
  wrap_exceptions
    (λ s, Ok (bool_decide (is_Some (search_tables (db s)))) s).

(** ** Change tracking: the triggers and the writes that fire them *)

(** [entries_search_entries_insert]: [INSERT INTO entries_search_sync_state
    VALUES (new.id, new.feed, 1, 0)]. *)
Definition entries_search_entries_insert (new : Entry) (t : SearchTables)
    : option SearchTables :=
  let rows := entries_search_sync_state t in
  if bool_decide (entry_key new ∈ sync_key <$> rows) then None
  else Some (with_sync t
               (rows ++ [mkSyncState (e_id new) (e_feed new) true false])).

(** [entries_search_entries_update]: [SET to_update = 1] on the row of the
    entry. *)
Definition entries_search_entries_update (new : Entry) (t : SearchTables)
    : SearchTables :=
  with_sync t
    ((λ r, if bool_decide (entry_key new = sync_key r)
           then mkSyncState (ss_id r) (ss_feed r) true (to_delete r) else r)
     <$> entries_search_sync_state t).

(** [entries_search_entries_delete]: [SET to_delete = 1] on the row of the
    entry. *)
Definition entries_search_entries_delete (old : Entry) (t : SearchTables)
    : SearchTables :=
  with_sync t
    ((λ r, if bool_decide (entry_key old = sync_key r)
           then mkSyncState (ss_id r) (ss_feed r) (to_update r) true else r)
     <$> entries_search_sync_state t).

(** [entries_search_feeds_update]: [SET to_update = 1] on every row of the
    feed. *)
Definition entries_search_feeds_update (new : Feed) (t : SearchTables)
    : SearchTables :=
  with_sync t
    ((λ r, if bool_decide (f_url new = ss_feed r)
           then mkSyncState (ss_id r) (ss_feed r) true (to_delete r) else r)
     <$> entries_search_sync_state t).

(** Modelled from the spec: the writes of the primary store
    ([reader/_storage.py], not part of the sources at hand), as far as the
    triggers see them.  Each is one statement: it either happens with the
    trigger's effect, or (result [None]) is aborted as a whole on a
    constraint violation. *)
Module Storage.

(** [INSERT INTO entries]: the primary key of [entries] is [(id, feed)]. *)
Definition insert_entry (e : Entry) (d : DB) : option DB :=
  if bool_decide (entry_key e ∈ entry_key <$> entries d) then None
  else
    match search_tables d with
    | None => Some (mkDB (entries d ++ [e]) (feeds d) None)
    | Some t =>
        t' ← entries_search_entries_insert e t;
        Some (mkDB (entries d ++ [e]) (feeds d) (Some t'))
    end.

(** [UPDATE entries SET title, summary, content WHERE (id, feed) = ...]:
    the key columns are not assigned. *)
Definition update_entry (e : Entry) (d : DB) : option DB :=
  let updated := filter (λ e', entry_key e' = entry_key e) (entries d) in
  Some (mkDB ((λ e', if bool_decide (entry_key e' = entry_key e)
                     then e else e') <$> entries d)
          (feeds d)
          ((λ t, foldr (λ _, entries_search_entries_update e) t updated)
           <$> search_tables d)).

(** [DELETE FROM entries WHERE (id, feed) = key] *)
Definition delete_entry (key : Key) (d : DB) : option DB :=
  let deleted := filter (λ e, entry_key e = key) (entries d) in
  Some (mkDB (filter (λ e, entry_key e ≠ key) (entries d))
          (feeds d)
          ((λ t, foldr entries_search_entries_delete t deleted)
           <$> search_tables d)).

(** [UPDATE feeds SET title, user_title WHERE url = ...] *)
Definition update_feed (f : Feed) (d : DB) : option DB :=
  let updated := filter (λ f', f_url f' = f_url f) (feeds d) in
  Some (mkDB (entries d)
          ((λ f', if bool_decide (f_url f' = f_url f) then f else f')
           <$> feeds d)
          ((λ t, foldr (λ _, entries_search_feeds_update f) t updated)
           <$> search_tables d)).

(** [INSERT INTO feeds]: no trigger. *)
Definition insert_feed (f : Feed) (d : DB) : option DB :=
  if bool_decide (f_url f ∈ f_url <$> feeds d) then None
  else Some (mkDB (entries d) (feeds d ++ [f]) (search_tables d)).

(** [DELETE FROM feeds WHERE url = ...]: its entries go with it
    ([ON DELETE CASCADE]), each through the entries delete trigger. *)
Definition delete_feed (url : string) (d : DB) : option DB :=
  let deleted := filter (λ e, e_feed e = url) (entries d) in
  Some (mkDB (filter (λ e, e_feed e ≠ url) (entries d))
          (filter (λ f, f_url f ≠ url) (feeds d))
          ((λ t, foldr entries_search_entries_delete t deleted)
           <$> search_tables d)).

End Storage.

(** ** Queries: [make_search_entries_query] and [Search.search_entries] *)

Record HighlightedString := mkHighlighted {
  hs_value : string;
  hs_highlights : list (nat * nat);
}.

(** [EntrySearchResult(feed_url, id, metadata, content)]; [content] is an
    [OrderedDict], kept as the list of its items in insertion order. *)
Record EntrySearchResult := mkResult {
  res_feed_url : string;
  res_id : string;
  res_metadata : gmap string HighlightedString;
  res_content : list (string * HighlightedString);
}.

(** [OrderedDict.__setitem__]: a key that is present keeps its place and
    takes the new value. *)
Fixpoint odict_set {V} (k : string) (v : V) (d : list (string * V))
    : list (string * V) :=
  match d with
  | [] => [(k, v)]
  | (k', v') :: d' =>
      if bool_decide (k' = k) then (k, v) :: d' else (k', v') :: odict_set k v d'
  end.

(** [OrderedDict(items)] *)
Definition odict {V} (items : list (string * V)) : list (string * V) :=
  foldl (λ d '(k, v), odict_set k v d) [] items.

(** The sort key of a result row, which is also the cursor handed back with
    it: [(rank, feed url, entry id)].  A rank is an SQLite REAL, the value of
    [bm25]; ranks are only compared with each other, so an integer (the REAL
    in fixed point) stands for it. *)
Definition Cursor : Type := Z * string * string.

(** The row-value comparison [(a0, a1, a2) > (b0, b1, b2)] of SQLite, read as
    [b < a]: text compares bytewise. *)
Definition cursor_lt (a b : Cursor) : Prop :=
  let '(ra, fa, ia) := a in
  let '(rb, fb, ib) := b in
  ra < rb ∨ (ra = rb ∧ (String.ltb fa fb ∨ (fa = fb ∧ String.ltb ia ib))).

Global Instance cursor_lt_dec : RelDecision cursor_lt.
Proof. intros [[??]?] [[??]?]. unfold cursor_lt. apply _. Defined.

(** The JSON object [{'path': ..., 'value': ..., 'rank': ...}]. *)
Record ContentItem := mkItem {
  ci_path : option string;
  ci_value : string;
  ci_rank : Z;
}.

(** A row of the inner [search] common table expression. *)
Record SearchRow := mkSearchRow {
  sr_id : string;
  sr_feed : string;
  sr_rank : Z;
  sr_title : string;
  sr_feed_title : string;
  sr_is_feed_user_title : bool;
  sr_content : ContentItem;
}.

(** A row of the outer, grouped query: the tuple given to [value_factory]. *)
Record ResultRow := mkResultRow {
  rr_id : string;
  rr_feed : string;
  rr_rank : Z;
  rr_title : string;
  rr_feed_title : string;
  rr_is_feed_user_title : bool;
  rr_content : list ContentItem;
}.

Definition row_cursor (r : ResultRow) : Cursor :=
  (rr_rank r, rr_feed r, rr_id r).

(** [ORDER BY rank, search._feed, search._id] *)
Definition row_le (a b : ResultRow) : Prop :=
  ¬ cursor_lt (row_cursor b) (row_cursor a).

Global Instance row_le_dec : RelDecision row_le.
Proof. intros a b. unfold row_le. apply _. Defined.

(** [ORDER BY rank] of the inner query. *)
Definition rank_le (a b : SearchRow) : Prop := sr_rank a ≤ sr_rank b.

Global Instance rank_le_dec : RelDecision rank_le.
Proof. intros a b. unfold rank_le. apply _. Defined.

(** The row of a group that supplies the bare columns: SQLite takes them from
    a row on which [min(search.rank)] is attained. *)
Fixpoint min_rank_row (r : SearchRow) (g : list SearchRow) : SearchRow :=
  match g with
  | [] => r
  | r' :: g' => min_rank_row (if sr_rank r' <? sr_rank r then r' else r) g'
  end.

Section Query.
(** The full-text engine and the collaborators of the query:
    - [fts5_match q] is the row predicate of [entries_search MATCH q], or
      [None] when FTS5 rejects the query text;
    - [bm25 q d] is the [rank] column;
    - [snippet q col before after d] is [snippet(entries_search, col,
      before, after, '...', 54)];
    - [apply_filter_options] is the WHERE clause that
      [reader._storage.apply_filter_options] adds over [entries];
    - [extract] is [HighlightedString.extract]. *)
Context {EntryFilterOptions : Type}.
Context (fts5_match : string → option (Doc → bool)).
Context (bm25 : string → Doc → Z).
Context (snippet : string → nat → string → string → Doc → string).
Context (apply_filter_options : EntryFilterOptions → Entry → bool).
Context (extract : string → string → string → HighlightedString).

Section one_query.
Context (query : string) (filter_options : EntryFilterOptions).
Context (before_mark after_mark : string).

(** The SELECT list of the inner [search] query, for one document. *)
Definition select_row (doc : Doc) : SearchRow :=
  mkSearchRow (_id doc) (_feed doc) (bm25 query doc)
    (snippet query 0 before_mark after_mark doc)
    (snippet query 2 before_mark after_mark doc)
    (_is_feed_user_title doc)
    (mkItem (_content_path doc)
       (snippet query 1 before_mark after_mark doc)
       (bm25 query doc)).

(** The inner [search] query, without its ORDER BY. *)
Definition search_rows (matches : Doc → bool) (d : DB) (t : SearchTables)
    : list SearchRow :=
  doc ← entries_search t;
  e ← entries d;
  if bool_decide (entry_key e = doc_key doc)
     && matches doc && apply_filter_options filter_options e
  then [select_row doc] else [].

(** A document that the inner query selects: it matches, and its entry
    exists and passes the filter. *)
Definition selected (matches : Doc → bool) (d : DB) (t : SearchTables)
    (doc : Doc) : Prop :=
  doc ∈ entries_search t ∧ matches doc ∧
  ∃ e, e ∈ entries d ∧ entry_key e = doc_key doc ∧
       apply_filter_options filter_options e.

(** [ORDER BY rank LIMIT -1 OFFSET 0] *)
Definition search_cte (matches : Doc → bool) (d : DB) (t : SearchTables)
    : list SearchRow :=
  merge_sort rank_le (search_rows matches d t).

(** [GROUP BY search._id, search._feed] with [min(search.rank)] and
    [json_group_array(json(search.content))]. *)
Definition group_rows (rows : list SearchRow) : list ResultRow :=
  k ← remove_dups ((λ r, (sr_id r, sr_feed r)) <$> rows);
  match filter (λ r, (sr_id r, sr_feed r) = k) rows with
  | [] => []
  | r :: g =>
      let best := min_rank_row r g in
      [mkResultRow k.1 k.2 (sr_rank best) (sr_title best)
         (sr_feed_title best) (sr_is_feed_user_title best)
         (sr_content <$> r :: g)]
  end.

(** The whole statement.  [last] adds [HAVING (rank, search._feed,
    search._id) > (:last_0, :last_1, :last_2)], [limit] adds
    [LIMIT :chunk_size]. *)
Definition make_search_entries_query (matches : Doc → bool)
    (last : option Cursor) (limit : option Z) (d : DB) (t : SearchTables)
    : list ResultRow :=
  let grouped := group_rows (search_cte matches d t) in
  let having :=
    match last with
    | Some c => filter (λ r, cursor_lt c (row_cursor r)) grouped
    | None => grouped
    end in
  let ordered := merge_sort row_le having in
  match limit with
  | Some n => sql_limit n ordered
  | None => ordered
  end.

Definition value_factory (t : ResultRow) : EntrySearchResult :=
  let metadata : gmap string HighlightedString := ∅ in
  let metadata :=
    if bool_decide (rr_title t ≠ "")
    then <[".title" := extract (rr_title t) before_mark after_mark]> metadata
    else metadata in
  let metadata :=
    if bool_decide (rr_feed_title t ≠ "")
    then <[(if negb (rr_is_feed_user_title t)
            then ".feed.title" else ".feed.user_title")
           := extract (rr_feed_title t) before_mark after_mark]> metadata
    else metadata in
  let rv_content :=
    odict (omap (λ c, if truthy (ci_path c)
                      then Some (default "" (ci_path c),
                                 extract (ci_value c) before_mark after_mark)
                      else None)
             (rr_content t)) in
  mkResult (rr_feed t) (rr_id t) metadata rv_content.

(** Modelled from the spec: [paginated_query] of
    [reader/_sqlite_utils.py] together with [Query.LIMIT] and
    [Query.scrolling_window_order_by] of [reader/_sql_utils.py], which are
    not part of the sources at hand.  A truthy chunk size bounds the page;
    a cursor restricts the page to the rows after it; every result is
    paired with its own key tuple as the next cursor.  The statement fails
    to prepare without the table, and fails when FTS5 rejects the query. *)
Definition paginated_query (chunk_size : option Z) (last : option Cursor)
    : M (list (EntrySearchResult * Cursor)) :=
  λ s, match search_tables (db s) with
       | None => Raise (OperationalError (no_such_table "entries_search")) s
       | Some t =>
           match fts5_match query with
           | None =>
               Raise (OperationalError
                        ("fts5: syntax error near " +:+ query)) s
           | Some matches =>
               let limit :=
                 match chunk_size with
                 | Some n => if bool_decide (n = 0) then None else Some n
                 | None => None
                 end in
               Ok ((λ r, (value_factory r, row_cursor r))
                   <$> make_search_entries_query matches last limit (db s) t) s
           end
       end.
End one_query.

Definition _query_error_message_fragments : list string :=
  ["fts5: syntax error near"; "unknown special query"; "no such column";
   "no such cursor"; "unterminated string"].

(** [random_mark] is the string drawn by [random.choices] in this call. *)
Definition search_entries (random_mark : string) (query : string)
    (filter_options : EntryFilterOptions) (chunk_size : option Z)
    (last : option Cursor) : M (list (EntrySearchResult * Cursor)) :=
  let before_mark := ">>>" +:+ random_mark +:+ ">>>" in
  let after_mark := "<<<" +:+ random_mark +:+ "<<<" in
  wrap_exceptions
    (try_operational
       (paginated_query query filter_options before_mark after_mark
          chunk_size last)
       (λ msg,
          let msg_lower := lower msg in
          if contains "no such table" msg_lower
          then Some (raise SearchNotEnabledError)
          else if bool_decide
                    (Exists (λ fragment, contains fragment msg_lower)
                       _query_error_message_fragments)
          then Some (raise (InvalidSearchQueryError msg))
          else None)).

(** Modelled from the spec: the caller's iteration over pages
    ([join_paginated_iter] of [reader/_utils.py], not part of the sources at
    hand): each call is given the cursor of the last row consumed, until a
    page comes back empty.  [random_marks n] is the mark drawn by the [n]th
    call. *)
Fixpoint search_entries_pages (fuel : nat) (random_marks : nat → string)
    (query : string) (filter_options : EntryFilterOptions) (chunk_size : Z)
    (last : option Cursor) : M (list EntrySearchResult) :=
  match fuel with
  | O => λ _, OutOfFuel
  | S fuel =>
      page ← search_entries (random_marks 0%nat) query filter_options
               (Some chunk_size) last;
      match list.last page with
      | None => mret []
      | Some (_, cursor) =>
          rest ← search_entries_pages fuel (λ n, random_marks (S n)) query
                   filter_options chunk_size (Some cursor);
          mret ((fst <$> page) ++ rest)
      end
  end.
End Query.

(** ** The query read over documents

    The rows of the statement carry snippet texts, which depend on the marks
    drawn for the call; which rows there are, how they group and in what
    order they come does not.  These definitions follow the statement on the
    documents themselves; [make_search_entries_query] is proved to yield the
    rows [group_row] of [doc_page]. *)

Section query_on_documents.
Context {EntryFilterOptions : Type}.
Context (bm25 : string → Doc → Z).
Context (snippet : string → nat → string → string → Doc → string).
Context (apply_filter_options : EntryFilterOptions → Entry → bool).
Context (extract : string → string → string → HighlightedString).
Context (query : string) (filter_options : EntryFilterOptions).

(** The documents of the rows of the inner query, in the order of the rows. *)
Definition selected_docs (matches : Doc → bool) (d : DB) (t : SearchTables)
    : list Doc :=
  doc ← entries_search t;
  e ← entries d;
  if bool_decide (entry_key e = doc_key doc)
     && matches doc && apply_filter_options filter_options e
  then [doc] else [].

Definition doc_rank_le (a b : Doc) : Prop := bm25 query a ≤ bm25 query b.

Global Instance doc_rank_le_dec : RelDecision doc_rank_le.
Proof. intros a b. unfold doc_rank_le. apply _. Defined.

Fixpoint min_rank_doc (doc : Doc) (g : list Doc) : Doc :=
  match g with
  | [] => doc
  | doc' :: g' =>
      min_rank_doc (if bm25 query doc' <? bm25 query doc then doc' else doc) g'
  end.

(** A group: its key, its first document and the others. *)
Definition DocGroup : Type := Key * Doc * list Doc.

Definition doc_groups (l : list Doc) : list DocGroup :=
  k ← remove_dups (doc_key <$> l);
  match filter (λ doc, doc_key doc = k) l with
  | [] => []
  | doc :: g => [(k, doc, g)]
  end.

Definition group_cursor (x : DocGroup) : Cursor :=
  let '(k, doc, g) := x in (bm25 query (min_rank_doc doc g), k.2, k.1).

Definition group_le (x y : DocGroup) : Prop :=
  ¬ cursor_lt (group_cursor y) (group_cursor x).

Global Instance group_le_dec : RelDecision group_le.
Proof. intros x y. unfold group_le. apply _. Defined.

Definition group_lt (x y : DocGroup) : Prop :=
  cursor_lt (group_cursor x) (group_cursor y).

(** The groups of one page, in order. *)
Definition doc_page (matches : Doc → bool) (last : option Cursor)
    (limit : option Z) (d : DB) (t : SearchTables) : list DocGroup :=
  let grouped :=
    doc_groups (merge_sort doc_rank_le (selected_docs matches d t)) in
  let having :=
    match last with
    | Some c => filter (λ x, cursor_lt c (group_cursor x)) grouped
    | None => grouped
    end in
  let ordered := merge_sort group_le having in
  match limit with
  | Some n => sql_limit n ordered
  | None => ordered
  end.

(** The row of a group, with the snippets of a call. *)
Definition group_row (before_mark after_mark : string) (x : DocGroup)
    : ResultRow :=
  let '(k, doc, g) := x in
  let best := min_rank_doc doc g in
  mkResultRow k.1 k.2 (bm25 query best)
    (snippet query 0 before_mark after_mark best)
    (snippet query 2 before_mark after_mark best)
    (_is_feed_user_title best)
    ((λ doc, mkItem (_content_path doc)
               (snippet query 1 before_mark after_mark doc)
               (bm25 query doc)) <$> doc :: g).

(** What the call that drew [random_mark] yields for a group. *)
Definition group_result (random_mark : string) (x : DocGroup)
    : EntrySearchResult * Cursor :=
  let before_mark := ">>>" +:+ random_mark +:+ ">>>" in
  let after_mark := "<<<" +:+ random_mark +:+ "<<<" in
  (value_factory extract before_mark after_mark
     (group_row before_mark after_mark x),
   group_cursor x).

(** The marks drawn do not show in what is extracted from a snippet, nor in
    whether the snippet is empty: they do not collide with the text. *)
Definition marks_do_not_show : Prop :=
  ∀ mark mark' column doc,
    extract (snippet query column (">>>" +:+ mark +:+ ">>>")
               ("<<<" +:+ mark +:+ "<<<") doc)
      (">>>" +:+ mark +:+ ">>>") ("<<<" +:+ mark +:+ "<<<")
    = extract (snippet query column (">>>" +:+ mark' +:+ ">>>")
                 ("<<<" +:+ mark' +:+ "<<<") doc)
        (">>>" +:+ mark' +:+ ">>>") ("<<<" +:+ mark' +:+ "<<<")
    ∧ (snippet query column (">>>" +:+ mark +:+ ">>>")
         ("<<<" +:+ mark +:+ "<<<") doc = ""
       ↔ snippet query column (">>>" +:+ mark' +:+ ">>>")
           ("<<<" +:+ mark' +:+ "<<<") doc = "").

End query_on_documents.

(** ** What one reindexing pass leaves behind

    Closed forms of the three steps of [_update], against which the loops
    are proved below. *)

(** Key [k] has a sync-state row marked [to_update] or [to_delete]. *)
Definition stale (rows : list SyncState) (k : Key) : Prop :=
  Exists (λ r, sync_key r = k ∧ (to_update r || to_delete r)) rows.

(** Key [k] has a sync-state row marked [to_delete]. *)
Definition tombstone (rows : list SyncState) (k : Key) : Prop :=
  Exists (λ r, sync_key r = k ∧ to_delete r) rows.

Definition fresh_docs (t : SearchTables) : list Doc :=
  filter (λ d, ¬ stale (entries_search_sync_state t) (doc_key d))
    (entries_search t).

Definition live_rows (t : SearchTables) : list SyncState :=
  filter (λ r, ¬ tombstone (entries_search_sync_state t) (sync_key r))
    (entries_search_sync_state t).

Definition after_deletes (t : SearchTables) : SearchTables :=
  mkTables (fresh_docs t) (live_rows t).

Definition reindexed (soup : string → string) (d : DB) (t : SearchTables)
    : SearchTables :=
  (clear_flags (insert_docs soup d (after_deletes t)).2).2.

(** The state reached from [s] with tables [t] and further log records. *)
Definition state_after (s : State) (t : SearchTables) (l : list LogRecord)
    : State :=
  mkState (mkDB (entries (db s)) (feeds (db s)) (Some t)) (log s ++ l).

(** The content texts of entry [e] that get a document, each with its
    locator: the three branches of the [union_all] expression, read per
    entry. *)
Inductive indexed_content (soup : string → string) (e : Entry)
    : option string → option string → Prop :=
  | indexed_summary :
      truthy (e_summary e) →
      indexed_content soup e (Some ".summary") (strip_html soup (e_summary e))
  | indexed_variant (l : list Content) (i : nat) (c : Content) :
      e_content e = Some l → l !! i = Some c → indexable_type c →
      indexed_content soup e (Some (content_path i))
        (strip_html soup (c_value c))
  | indexed_title_only :
      ¬ truthy (e_summary e) → ¬ has_content e →
      indexed_content soup e None None.

(** The document made from entry [e] of feed [f] for one content text. *)
Definition index_doc (soup : string → string) (e : Entry) (f : Feed)
    (path text : option string) : Doc :=
  mkDoc (strip_html soup (e_title e)) text
    (strip_html soup (from_option Some (f_title f) (f_user_title f)))
    (e_id e) (e_feed e) path (bool_decide (is_Some (f_user_title f))).

(** No sync-state row is marked: nothing is waiting to be reindexed. *)
Definition clean (rows : list SyncState) : Prop :=
  Forall (λ r, to_update r = false ∧ to_delete r = false) rows.

(** Every count passed to [log.debug] is zero. *)
Definition no_rows_affected (l : list LogRecord) : Prop :=
  Forall (λ record, log_count record = 0) l.

(** ** The content-selection rule as the specification words it

    One document per entry, its content text chosen by priority: the
    non-empty summary, otherwise the first content variant of a text type,
    otherwise none. *)
Definition selected_by_priority (soup : string → string) (e : Entry)
    : option string * option string :=
  if truthy (e_summary e) then
    (Some ".summary", strip_html soup (e_summary e))
  else
    match list_find (λ c, indexable_type c) (default [] (e_content e)) with
    | Some (i, c) => (Some (content_path i), strip_html soup (c_value c))
    | None => (None, None)
    end.

(** The index [t'] holds, for entry [e], exactly the one document of the
    priority rule. *)
Definition indexed_by_priority (soup : string → string) (d : DB)
    (t' : SearchTables) (e : Entry) : Prop :=
  ∃ f, f ∈ feeds d ∧ f_url f = e_feed e ∧
       filter (λ doc, doc_key doc = entry_key e) (entries_search t')
       = [index_doc soup e f (selected_by_priority soup e).1
            (selected_by_priority soup e).2].

(** [update()] reindexes every entry marked [to_update] by the priority
    rule. *)
Definition update_selects_by_priority (chunk_size : Z)
    (soup : string → string) (fuel : nat) (s : State) : Prop :=
  ∀ t e r,
    search_tables (db s) = Some t →
    e ∈ entries (db s) →
    r ∈ entries_search_sync_state t →
    sync_key r = entry_key e →
    to_update r →
    ∃ s' t',
      update chunk_size (Some soup) fuel s = Ok () s' ∧
      search_tables (db s') = Some t' ∧
      indexed_by_priority soup (db s) t' e.

(** [update()] on a database without the index table raises
    [SearchNotEnabledError], whatever else holds. *)
Definition update_reports_not_enabled (s : State) : Prop :=
  ∀ chunk_size bs4 fuel,
    ∃ s', update chunk_size bs4 (S fuel) s = Raise SearchNotEnabledError s'.

(** ** Example databases *)

Module Examples.

Definition feed_a : Feed := mkFeed "a" (Some "Feed A") None.

(** An entry with a summary and one HTML content variant. *)
Definition entry_both : Entry :=
  mkEntry "1" "a" (Some "One") (Some "summary text")
    (Some [mkContent (Some "content text") (Some "text/html")]).

(** An entry without summary whose only content variant is an image. *)
Definition entry_image : Entry :=
  mkEntry "2" "a" (Some "Two") None
    (Some [mkContent (Some "picture") (Some "image/png")]).

(** An entry that was indexed and has since been deleted. *)
Definition doc_gone : Doc :=
  mkDoc (Some "Gone") (Some "old text") (Some "Feed A") "3" "a"
    (Some ".summary") false.

Definition state_of (es : list Entry) (docs : list Doc)
    (rows : list SyncState) : State :=
  mkState (mkDB es [feed_a] (Some (mkTables docs rows))) [].

Definition both_dirty : State :=
  state_of [entry_both] [] [mkSyncState "1" "a" true false].

Definition image_dirty : State :=
  state_of [entry_image] [] [mkSyncState "2" "a" true false].

Definition one_deleted : State :=
  state_of [entry_both] [doc_gone]
    [mkSyncState "1" "a" true false; mkSyncState "3" "a" false true].

Definition not_enabled : State :=
  mkState (mkDB [entry_both] [feed_a] None) [].

(** [both_dirty] after [update()]. *)
Definition indexed : State :=
  state_of [entry_both]
    [mkDoc (Some "One") (Some "summary text") (Some "Feed A") "1" "a"
       (Some ".summary") false;
     mkDoc (Some "One") (Some "content text") (Some "Feed A") "1" "a"
       (Some ".content[0].value") false]
    [mkSyncState "1" "a" false false].

(** Two entries, both indexed. *)
Definition entry_other : Entry :=
  mkEntry "4" "a" (Some "Four") (Some "four text") None.

Definition two_indexed : State :=
  state_of [entry_both; entry_other]
    [mkDoc (Some "One") (Some "summary text") (Some "Feed A") "1" "a"
       (Some ".summary") false;
     mkDoc (Some "One") (Some "content text") (Some "Feed A") "1" "a"
       (Some ".content[0].value") false;
     mkDoc (Some "Four") (Some "four text") (Some "Feed A") "4" "a"
       (Some ".summary") false]
    [mkSyncState "1" "a" false false; mkSyncState "4" "a" false false].

(** A full-text engine in which every document matches every query with
    rank 0 and a snippet is the whole column; no filter; no highlights. *)
Definition fts5_match (query : string) : option (Doc → bool) :=
  Some (λ _, true).
Definition bm25 (query : string) (doc : Doc) : Z := 0.
Definition snippet (query : string) (column : nat) (before after : string)
    (doc : Doc) : string :=
  default ""
    match column with
    | 0%nat => title doc
    | 1%nat => content doc
    | _ => feed doc
    end.
Definition apply_filter_options (options : unit) (e : Entry) : bool := true.
Definition extract (text before after : string) : HighlightedString :=
  mkHighlighted text [].

Definition search (chunk_size : option Z) (last : option Cursor) (s : State)
    : Res (list (EntrySearchResult * Cursor)) :=
  search_entries fts5_match bm25 snippet apply_filter_options extract
    "mark" "one" () chunk_size last s.

Definition results_of {A} (r : Res (list A)) : list A :=
  match r with
  | Ok l _ => l
  | _ => []
  end.

End Examples.

(** ** The database over time, while search is enabled *)

(** The writes of the primary store. *)
Inductive Write :=
  | InsertEntry (e : Entry)
  | UpdateEntry (e : Entry)
  | DeleteEntry (key : Key)
  | InsertFeed (f : Feed)
  | UpdateFeed (f : Feed)
  | DeleteFeed (url : string).

Definition apply_write (w : Write) (d : DB) : option DB :=
  match w with
  | InsertEntry e => Storage.insert_entry e d
  | UpdateEntry e => Storage.update_entry e d
  | DeleteEntry key => Storage.delete_entry key d
  | InsertFeed f => Storage.insert_feed f d
  | UpdateFeed f => Storage.update_feed f d
  | DeleteFeed url => Storage.delete_feed url d
  end.

(** One step: a write of the primary store, or a call of [update()] that
    returns.  Calls run one after the other. *)
Inductive step (d : DB) : DB → Prop :=
  | step_write w d' :
      apply_write w d = Some d' → step d d'
  | step_update chunk_size bs4 fuel l s' :
      update chunk_size bs4 fuel (mkState d l) = Ok () s' → step d (db s').

(** The databases reached after [enable()] returned on a database without
    search tables. *)
Inductive enabled_reachable : DB → Prop :=
  | reachable_enable d0 l s' :
      search_tables d0 = None →
      enable (mkState d0 l) = Ok () s' →
      enabled_reachable (db s')
  | reachable_step d d' :
      enabled_reachable d → step d d' → enabled_reachable d'.

(** The keys that have a sync-state row, and those that have a document. *)
Definition tracked_keys (d : DB) : list Key :=
  match search_tables d with
  | Some t => sync_key <$> entries_search_sync_state t
  | None => []
  end.

Definition indexed_keys (d : DB) : list Key :=
  match search_tables d with
  | Some t => doc_key <$> entries_search t
  | None => []
  end.

(** From [d] to [d'] goes one reindexing pass in which key [k] lost its
    documents in the first step, while its sync-state row was still there,
    and lost the row in the second. *)
Definition row_deleted_after_documents (k : Key) (d d' : DB) : Prop :=
  ∃ chunk_size soup fuel l s1 s2 s3,
    _delete_from_search chunk_size fuel (mkState d l) = Ok () s1 ∧
    (k ∉ indexed_keys (db s1)) ∧ k ∈ tracked_keys (db s1) ∧
    _delete_from_sync_state chunk_size fuel s1 = Ok () s2 ∧
    (k ∉ indexed_keys (db s2)) ∧ (k ∉ tracked_keys (db s2)) ∧
    transaction (_insert_into_search soup;; _clear_to_update) s2 = Ok () s3 ∧
    db s3 = d' ∧ (k ∉ indexed_keys d').

(** Every entry of the primary store has a sync-state row, and none of the
    rows of its key is a tombstone. *)
Definition every_entry_tracked (d : DB) : Prop :=
  ∃ t, search_tables d = Some t ∧
       ∀ e, e ∈ entries d →
            entry_key e ∈ sync_key <$> entries_search_sync_state t ∧
            ¬ tombstone (entries_search_sync_state t) (entry_key e).

(** No document of the index has the empty string as its content path. *)
Definition content_paths_nonempty (d : DB) : Prop :=
  ∀ t doc, search_tables d = Some t → doc ∈ entries_search t →
           _content_path doc ≠ Some "".

(** ** Shapes of the index that a reindexing pass keeps *)

(** Every document of the index has the key of a sync-state row. *)
Definition documents_tracked (t : SearchTables) : Prop :=
  ∀ doc, doc ∈ entries_search t →
         doc_key doc ∈ sync_key <$> entries_search_sync_state t.

(** No two documents of the index have the same key and content path. *)
Definition documents_unique (t : SearchTables) : Prop :=
  NoDup ((λ doc, (doc_key doc, _content_path doc)) <$> entries_search t).

(** The order of the content items of a result row: by rank. *)
Definition item_rank_le (a b : ContentItem) : Prop := ci_rank a ≤ ci_rank b.

(** The key of a result row. *)
Definition row_key (r : ResultRow) : Key := (rr_id r, rr_feed r).

(** ** Further example databases *)

Module Cases.

(** The search tables of [Examples.one_deleted]. *)
Definition one_deleted_tables : SearchTables :=
  mkTables [Examples.doc_gone]
    [mkSyncState "1" "a" true false; mkSyncState "3" "a" false true].

(** A key still marked [to_update] whose entry has left the primary store,
    with the document indexed for it before. *)
Definition entry_gone_tables : SearchTables :=
  mkTables [Examples.doc_gone] [mkSyncState "3" "a" true false].

Definition entry_gone : State :=
  mkState (mkDB [] [Examples.feed_a] (Some entry_gone_tables)) [].

(** Feed [a] after the user gave it a title of their own, and an index
    built before that. *)
Definition feed_renamed : Feed := mkFeed "a" (Some "Feed A") (Some "Mine").

Definition other_indexed_tables : SearchTables :=
  mkTables
    [mkDoc (Some "Four") (Some "four text") (Some "Feed A") "4" "a"
       (Some ".summary") false]
    [mkSyncState "4" "a" false false].

Definition after_rename : State :=
  mkState
    (mkDB [Examples.entry_other] [feed_renamed]
       (Some (entries_search_feeds_update feed_renamed other_indexed_tables)))
    [].

(** Entry [4] of feed [a], just inserted while search is enabled; the same
    entry after its summary was rewritten, with the index built before
    that; and the index after the entry was deleted. *)
Definition inserted_tables : SearchTables :=
  mkTables [] [mkSyncState "4" "a" true false].

Definition inserted : State :=
  mkState
    (mkDB [Examples.entry_other] [Examples.feed_a] (Some inserted_tables))
    [].

Definition entry_rewritten : Entry :=
  mkEntry "4" "a" (Some "Four") (Some "new text") None.

Definition rewritten : State :=
  mkState
    (mkDB [entry_rewritten] [Examples.feed_a]
       (Some (entries_search_entries_update entry_rewritten
                other_indexed_tables)))
    [].

Definition deleted : State :=
  mkState
    (mkDB [] [Examples.feed_a]
       (Some (entries_search_entries_delete Examples.entry_other
                other_indexed_tables)))
    [].

(** The search tables of [Examples.indexed], and the row that the query
    has for its entry, with the marks "<" and ">". *)
Definition indexed_tables : SearchTables :=
  mkTables
    [mkDoc (Some "One") (Some "summary text") (Some "Feed A") "1" "a"
       (Some ".summary") false;
     mkDoc (Some "One") (Some "content text") (Some "Feed A") "1" "a"
       (Some ".content[0].value") false]
    [mkSyncState "1" "a" false false].

Definition row_one : ResultRow :=
  mkResultRow "1" "a" 0 "One" "Feed A" false
    [mkItem (Some ".summary") "summary text" 0;
     mkItem (Some ".content[0].value") "content text" 0].

End Cases.

(** ** Sync-state rows and entries *)

(** Every sync-state row that is not marked [to_delete] is the row of an
    entry of the primary store. *)
Definition live_rows_have_entries (d : DB) : Prop :=
  ∀ t r, search_tables d = Some t → r ∈ entries_search_sync_state t →
         to_delete r = false → sync_key r ∈ entry_key <$> entries d.

(** ** The feed parser's registry of retrievers ([reader/_parser.py]) *)

Module Parser.
Section retrievers.
(** [len] and [str.lower] of Python strings, and the type of the callables
    that are mounted. *)
Context (len : string → nat) (lower : string → string) {Retriever : Type}.

(** [self.retrievers]: an [OrderedDict], kept as the list of its items in
    order. *)
Definition Retrievers : Type := list (string * Retriever).

(** [OrderedDict.pop(key)]; [None] stands for [KeyError]. *)
Fixpoint odict_pop (key : string) (d : Retrievers)
    : option (Retriever * Retrievers) :=
  match d with
  | [] => None
  | (k, v) :: d' =>
      if bool_decide (k = key) then Some (v, d')
      else '(v', d'') ← odict_pop key d'; Some (v', (k, v) :: d'')
  end.

(** [self.retrievers[key] = self.retrievers.pop(key)] *)
Definition move_to_end (key : string) (d : Retrievers) : option Retrievers :=
  '(v, d') ← odict_pop key d; Some (odict_set key v d').

Definition mount_retriever (prefix : string) (retriever : Retriever)
    (retrievers : Retrievers) : option Retrievers :=
  let retrievers := odict_set prefix retriever retrievers in
  let keys_to_move :=
    filter (λ k, (len k < len prefix)%nat) retrievers.*1 in
  foldl (λ d key, d ≫= move_to_end key) (Some retrievers) keys_to_move.

(** [url.lower().startswith(prefix.lower())] *)
Definition starts_with (url prefix : string) : bool :=
  String.prefix (lower prefix) (lower url).

(** [None] stands for [raise ParseError(url, message="no retriever for
    URL")]. *)
Definition get_retriever (url : string) (retrievers : Retrievers)
    : option Retriever :=
  (λ found, found.2.2) <$> list_find (λ item, starts_with url item.1) retrievers.

(** A parser on which [mount_retriever] was called with each of [mounts] in
    turn, from [Parser()]. *)
Definition mounted (mounts : list (string * Retriever)) : option Retrievers :=
  foldl (λ d '(prefix, retriever), d ≫= mount_retriever prefix retriever)
    (Some []) mounts.

(** The retrievers of [default_parser(feed_root)]: [http_retriever] is
    [HTTPRetriever(parser.make_session)], and [file_retriever] is
    [FileRetriever(feed_root)] when [feed_root is not None]. *)
Definition default_parser (http_retriever : Retriever)
    (file_retriever : option Retriever) : option Retrievers :=
  retrievers ← mount_retriever "https://" http_retriever [];
  retrievers ← mount_retriever "http://" http_retriever retrievers;
  match file_retriever with
  | Some retriever => mount_retriever "" retriever retrievers
  | None => Some retrievers
  end.

(** The registry lists longer prefixes before shorter ones. *)
Definition longer_first (a b : string * Retriever) : Prop :=
  (len b.1 ≤ len a.1)%nat.

(** The retriever given in the last call for [prefix]. *)
Definition last_mounted (prefix : string) (mounts : list (string * Retriever))
    : option Retriever :=
  snd <$> last (filter (λ m, m.1 = prefix) mounts).
End retrievers.

(** The two kinds of retriever of [default_parser]. *)
Inductive DefaultRetriever :=
  | HTTPRetriever
  | FileRetriever (feed_root : string).
End Parser.

(** * Properties *)

(** ** Lists and limits *)

Lemma filter_ext_in {A} (P Q : A → Prop) `{!∀ x, Decision (P x)}
    `{!∀ x, Decision (Q x)} (l : list A) :
  (∀ x, x ∈ l → (P x ↔ Q x)) → filter P l = filter Q l.
Proof.
  induction l as [|x l IH]; intros Hiff; [done|].
  rewrite !filter_cons.
  rewrite IH by (intros y Hy; apply Hiff; by right).
  pose proof (Hiff x (list_elem_of_here _ _)) as Hx.
  destruct (decide (P x)), (decide (Q x)); tauto.
Qed.

Lemma filter_all {A} (P : A → Prop) `{!∀ x, Decision (P x)} (l : list A) :
  (∀ x, x ∈ l → P x) → filter P l = l.
Proof.
  induction l as [|x l IH]; intros Hall; [done|].
  rewrite filter_cons_True by (apply Hall; left).
  f_equal. apply IH. intros y Hy. apply Hall. by right.
Qed.

Lemma sql_limit_nil {A} (n : Z) (l : list A) :
  n ≠ 0 → sql_limit n l = [] → l = [].
Proof.
  unfold sql_limit. intros Hn. destruct (Z.ltb_spec n 0); [done|].
  destruct l as [|x l]; [done|].
  destruct (Z.to_nat n) eqn:E; [lia|done].
Qed.

Lemma sql_limit_short {A} (n : Z) (l : list A) :
  Z.of_nat (length (sql_limit n l)) < n → sql_limit n l = l.
Proof.
  unfold sql_limit. destruct (Z.ltb_spec n 0); [done|].
  rewrite length_take. intros Hlt. apply take_ge. lia.
Qed.

Lemma sql_limit_unbounded {A} (l : list A) : sql_limit (-1) l = l.
Proof. done. Qed.

Lemma sql_limit_elem_of {A} (n : Z) (l : list A) (x : A) :
  x ∈ sql_limit n l → x ∈ l.
Proof.
  unfold sql_limit. destruct (n <? 0); [done|].
  intros [i [Hi _]]%elem_of_take. by eapply list_elem_of_lookup_2.
Qed.

(** ** States *)

Lemma state_after_tables s t l : search_tables (db (state_after s t l)) = Some t.
Proof. done. Qed.

Lemma state_after_after s t1 l1 t2 l2 :
  state_after (state_after s t1 l1) t2 l2 = state_after s t2 (l1 ++ l2).
Proof. unfold state_after. simpl. by rewrite app_assoc. Qed.

Lemma state_after_same s t :
  search_tables (db s) = Some t → state_after s t [] = s.
Proof.
  destruct s as [[es fs st] lg]. simpl. intros ->.
  unfold state_after. simpl. by rewrite app_nil_r.
Qed.

Lemma with_docs_same t : with_docs t (entries_search t) = t.
Proof. by destruct t. Qed.

Lemma with_sync_same t : with_sync t (entries_search_sync_state t) = t.
Proof. by destruct t. Qed.

(** ** Step 1: stale documents *)

Lemma elem_of_select_stale t k :
  k ∈ select_stale t ↔
  stale (entries_search_sync_state t) k ∧ k ∈ doc_key <$> entries_search t.
Proof.
  unfold select_stale, stale. rewrite list_elem_of_bind, Exists_exists.
  rewrite list_elem_of_fmap. split.
  - intros (r & (d & Hk & Hd)%list_elem_of_bind & Hr).
    destruct (bool_decide_reflect (sync_key r = doc_key d)) as [Heq|];
      simpl in Hk; [|by apply elem_of_nil in Hk].
    destruct (to_update r || to_delete r) eqn:Hflags;
      simpl in Hk; [|by apply elem_of_nil in Hk].
    apply list_elem_of_singleton in Hk as ->. split.
    + exists r. by rewrite Hflags.
    + by exists d.
  - intros ((r & Hr & <- & Hflags) & d & Hkd & Hd).
    exists r. split; [|done]. apply list_elem_of_bind. exists d. split; [|done].
    rewrite bool_decide_eq_true_2 by done.
    apply Is_true_true in Hflags. rewrite Hflags. simpl. by left.
Qed.

Lemma select_stale_doc t d :
  d ∈ entries_search t →
  doc_key d ∈ select_stale t ↔ stale (entries_search_sync_state t) (doc_key d).
Proof.
  intros Hd. rewrite elem_of_select_stale. split; [by intros [? _]|].
  intros Hs. split; [done|]. by apply list_elem_of_fmap_2.
Qed.

Lemma delete_docs_stale t :
  delete_docs (select_stale t) t = with_docs t (fresh_docs t).
Proof.
  unfold delete_docs, fresh_docs. f_equal. apply filter_ext_in.
  intros d Hd. by rewrite select_stale_doc.
Qed.

Lemma delete_docs_nil t : delete_docs [] t = t.
Proof.
  unfold delete_docs. rewrite filter_all; [apply with_docs_same|].
  intros d _. apply not_elem_of_nil.
Qed.

Lemma fresh_docs_delete_docs keys t :
  (∀ k, k ∈ keys → k ∈ select_stale t) →
  fresh_docs (delete_docs keys t) = fresh_docs t.
Proof.
  intros Hsub. unfold fresh_docs, delete_docs. simpl.
  rewrite list_filter_filter. apply filter_ext_in. intros d Hd.
  split; [by intros [? _]|]. intros Hfresh. split; [done|].
  intros Hin. apply Hfresh. by apply select_stale_doc, Hsub.
Qed.

Lemma delete_docs_shrinks keys t k :
  k ∈ keys → k ∈ select_stale t →
  (length (entries_search (delete_docs keys t)) < length (entries_search t))%nat.
Proof.
  intros Hk [_ (d & -> & Hd)%list_elem_of_fmap]%elem_of_select_stale.
  unfold delete_docs. simpl. eapply length_filter_lt; [exact Hd|]. tauto.
Qed.

Lemma select_stale_fresh t :
  select_stale t = [] → fresh_docs t = entries_search t.
Proof.
  intros Hnil. apply filter_all. intros d Hd Hs.
  apply select_stale_doc in Hs; [|done]. rewrite Hnil in Hs.
  by apply elem_of_nil in Hs.
Qed.

Section reindexer_runs.
Context (chunk_size : Z).

Lemma _delete_from_search_chunk_run s t :
  search_tables (db s) = Some t →
  let to_delete := sql_limit chunk_size (select_stale t) in
  _delete_from_search_chunk chunk_size s =
  Ok (negb (bool_decide (to_delete = []))
      && negb (Z.of_nat (length to_delete) <? chunk_size))
     (state_after s (delete_docs to_delete t)
        [mkLog "_delete_from_search" (Z.of_nat (length to_delete))]).
Proof.
  intros Ht to_delete.
  unfold _delete_from_search_chunk, transaction, mbind, M_bind, bind,
    execute, debug. simpl. rewrite Ht. simpl. fold to_delete.
  destruct (bool_decide_reflect (to_delete = [])) as [->|Hne]; simpl.
  - rewrite delete_docs_nil. unfold mret, M_ret, ret, state_after, set_tables.
    simpl. done.
  - done.
Qed.

Lemma _delete_from_search_loop_run fuel : ∀ s t,
  chunk_size ≠ 0 →
  search_tables (db s) = Some t →
  (length (entries_search t) < fuel)%nat →
  ∃ l, _delete_from_search_loop chunk_size fuel s =
       Ok () (state_after s (with_docs t (fresh_docs t)) l).
Proof.
  induction fuel as [|fuel IH]; intros s t Hc Ht Hfuel; [lia|].
  simpl. unfold mbind, M_bind, bind.
  rewrite (_delete_from_search_chunk_run s t Ht).
  set (to_delete := sql_limit chunk_size (select_stale t)).
  destruct (bool_decide_reflect (to_delete = [])) as [Hnil|Hne]; simpl.
  { exists [mkLog "_delete_from_search" (Z.of_nat (length to_delete))].
    rewrite Hnil, delete_docs_nil.
    apply sql_limit_nil in Hnil; [|done].
    by rewrite (select_stale_fresh _ Hnil), with_docs_same. }
  destruct (Z.ltb_spec (Z.of_nat (length to_delete)) chunk_size) as [Hlt|Hge];
    simpl.
  { exists [mkLog "_delete_from_search" (Z.of_nat (length to_delete))].
    unfold to_delete. rewrite sql_limit_short by done.
    by rewrite delete_docs_stale. }
  destruct to_delete as [|k keys] eqn:Hsel; [done|].
  assert (Hsub : ∀ k', k' ∈ k :: keys → k' ∈ select_stale t).
  { intros k' Hk'. apply (sql_limit_elem_of chunk_size).
    fold to_delete. by rewrite Hsel. }
  edestruct (IH (state_after s (delete_docs (k :: keys) t)
                   [mkLog "_delete_from_search"
                      (Z.of_nat (length (k :: keys)))])
               (delete_docs (k :: keys) t)) as [l Hl]; [done|done| |].
  { assert (k ∈ k :: keys) as Hk by left.
    pose proof (delete_docs_shrinks (k :: keys) t k Hk (Hsub k Hk)). lia. }
  rewrite Hl, state_after_after. eexists.
  by rewrite fresh_docs_delete_docs.
Qed.
End reindexer_runs.

Lemma _delete_from_search_run chunk_size fuel s t :
  search_tables (db s) = Some t →
  (length (entries_search t) < fuel)%nat →
  ∃ l, _delete_from_search chunk_size fuel s =
       Ok () (state_after s (with_docs t (fresh_docs t)) l).
Proof.
  intros Ht Hfuel. unfold _delete_from_search.
  destruct (bool_decide_reflect (chunk_size = 0)) as [_|Hc].
  - exists []. unfold transaction, execute. rewrite Ht, delete_docs_stale.
    unfold set_tables, state_after. by rewrite app_nil_r.
  - by apply _delete_from_search_loop_run.
Qed.

(** ** Step 2: tombstones *)

Lemma filter_sublist_mono {A} (P : A → Prop) `{!∀ x, Decision (P x)}
    (l1 l2 : list A) :
  l1 `sublist_of` l2 → filter P l1 `sublist_of` filter P l2.
Proof.
  induction 1 as [|x l1 l2 _ IH|x l1 l2 _ IH]; [done| |].
  - rewrite !filter_cons. destruct (decide (P x)); [by constructor|done].
  - rewrite filter_cons. destruct (decide (P x)); [by constructor|done].
Qed.

Lemma length_filter_complement {A} (P : A → Prop) `{!∀ x, Decision (P x)}
    `{!∀ x, Decision (¬ P x)} (l : list A) :
  (length (filter P l) + length (filter (λ x, ¬ P x) l) = length l)%nat.
Proof.
  induction l as [|x l IH]; [done|]. rewrite !filter_cons.
  destruct (decide (P x)), (decide (¬ P x)); simpl; try tauto; lia.
Qed.

Lemma elem_of_tombstones rows k :
  k ∈ sync_key <$> filter (λ r, to_delete r) rows ↔ tombstone rows k.
Proof.
  unfold tombstone. rewrite list_elem_of_fmap, Exists_exists.
  split.
  - intros (r & -> & [Hr Hin]%list_elem_of_filter). by exists r.
  - intros (r & Hin & <- & Hr). exists r. split; [done|].
    by apply list_elem_of_filter.
Qed.

Lemma delete_tombstones_all n t :
  sql_limit n (sync_key <$> filter (λ r, to_delete r) (entries_search_sync_state t))
  = sync_key <$> filter (λ r, to_delete r) (entries_search_sync_state t) →
  (delete_tombstones n t).2 = with_sync t (live_rows t).
Proof.
  intros Hall. unfold delete_tombstones, live_rows. simpl. rewrite Hall.
  f_equal. apply filter_ext_in. intros r _. by rewrite elem_of_tombstones.
Qed.

Lemma live_rows_delete_tombstones n t :
  live_rows (delete_tombstones n t).2 = live_rows t.
Proof.
  unfold live_rows, delete_tombstones. simpl.
  set (rows := entries_search_sync_state t).
  set (keys := sql_limit n (sync_key <$> filter (λ r, to_delete r) rows)).
  assert (Hsub : ∀ k, k ∈ keys → tombstone rows k).
  { intros k Hk. by apply elem_of_tombstones, (sql_limit_elem_of n). }
  assert (Hkept : ∀ k, tombstone (filter (λ r, sync_key r ∉ keys) rows) k
                       ↔ tombstone rows k ∧ k ∉ keys).
  { intros k. unfold tombstone. rewrite !Exists_exists. split.
    - intros (r & [Hk Hin]%list_elem_of_filter & <- & Hr). eauto 6.
    - intros [(r & Hin & <- & Hr) Hk]. exists r. split; [|done].
      by apply list_elem_of_filter. }
  rewrite list_filter_filter. apply filter_ext_in. intros r _.
  rewrite Hkept. specialize (Hsub (sync_key r)).
  destruct (decide (sync_key r ∈ keys)); tauto.
Qed.

Lemma delete_tombstones_rowcount n t :
  0 ≤ n →
  Z.of_nat (length (sql_limit n (sync_key <$> filter (λ r, to_delete r)
                                   (entries_search_sync_state t))))
  ≤ (delete_tombstones n t).1.
Proof.
  intros Hn. unfold delete_tombstones. simpl.
  set (rows := entries_search_sync_state t).
  unfold sql_limit. destruct (Z.ltb_spec n 0) as [|_]; [lia|].
  rewrite <-fmap_take.
  set (chosen := take (Z.to_nat n) (filter (λ r, to_delete r) rows)).
  pose proof (length_filter_complement
                (λ r, sync_key r ∈ sync_key <$> chosen) rows) as Hlen.
  cbv beta in Hlen.
  assert (length chosen
          ≤ length (filter (λ r, sync_key r ∈ sync_key <$> chosen) rows))%nat
    as Hle.
  { rewrite <-(filter_all (λ r, sync_key r ∈ sync_key <$> chosen) chosen) at 1.
    - apply sublist_length, filter_sublist_mono.
      etrans; [apply sublist_take|apply sublist_filter].
    - intros r Hr. by apply list_elem_of_fmap_2. }
  rewrite length_fmap. lia.
Qed.

Lemma _delete_from_sync_state_run chunk_size fuel : ∀ s t,
  0 ≤ chunk_size →
  search_tables (db s) = Some t →
  (length (entries_search_sync_state t) < fuel)%nat →
  ∃ l, _delete_from_sync_state chunk_size fuel s =
       Ok () (state_after s (with_sync t (live_rows t)) l).
Proof.
  induction fuel as [|fuel IH]; intros s t Hc Ht Hfuel; [lia|].
  cbn [_delete_from_sync_state].
  unfold mbind, M_bind, bind, transaction, execute, debug.
  rewrite Ht.
  destruct (decide (chunk_size = 0)) as [->|Hne].
  { rewrite !bool_decide_eq_true_2 by done.
    pose proof (delete_tombstones_all (-1) t eq_refl) as Hall.
    destruct (delete_tombstones (-1) t) as [rowcount t']. simpl in *.
    subst t'. by eexists. }
  rewrite !bool_decide_eq_false_2 by done.
  pose proof (delete_tombstones_rowcount chunk_size t Hc) as Hcount.
  pose proof (live_rows_delete_tombstones chunk_size t) as Hlive.
  pose proof (delete_tombstones_all chunk_size t) as Hall.
  assert (∃ rows, (delete_tombstones chunk_size t).2 = with_sync t rows
                  ∧ (delete_tombstones chunk_size t).1
                    = Z.of_nat (length (entries_search_sync_state t))
                      - Z.of_nat (length rows)) as (rows & Hrows & Hrc).
  { by eexists. }
  destruct (delete_tombstones chunk_size t) as [rowcount t']. simpl in *.
  destruct (Z.ltb_spec rowcount chunk_size) as [Hlt|Hge].
  { eexists. unfold mret, M_ret, ret, state_after. simpl.
    rewrite Hall; [done|]. apply sql_limit_short. lia. }
  edestruct (IH (state_after s t' [mkLog "_delete_from_sync_state" rowcount])
               t') as [l Hl]; [done|done| |].
  { subst t'. simpl. lia. }
  unfold state_after in Hl at 1. simpl in Hl. unfold set_tables. simpl.
  rewrite Hl, state_after_after. eexists.
  rewrite Hlive, Hrows. done.
Qed.

(** ** The whole pass *)

Lemma _update_run chunk_size soup fuel s t :
  0 ≤ chunk_size →
  search_tables (db s) = Some t →
  (length (entries_search t) < fuel)%nat →
  (length (entries_search_sync_state t) < fuel)%nat →
  ∃ l, _update chunk_size (Some soup) fuel s =
       Ok () (state_after s (reindexed soup (db s) t) l).
Proof.
  intros Hc Ht Hdocs Hrows. unfold _update, mbind, M_bind, bind.
  destruct (_delete_from_search_run chunk_size fuel s t Ht Hdocs) as [l1 ->].
  edestruct (_delete_from_sync_state_run chunk_size fuel
               (state_after s (with_docs t (fresh_docs t)) l1)
               (with_docs t (fresh_docs t))) as [l2 ->]; [done..|].
  rewrite state_after_after.
  change (with_sync (with_docs t (fresh_docs t))
            (live_rows (with_docs t (fresh_docs t)))) with (after_deletes t).
  unfold transaction, _insert_into_search, _clear_to_update, execute, debug,
    mbind, M_bind, bind, reindexed.
  simpl. eexists. unfold state_after, set_tables. simpl.
  rewrite <-!app_assoc. done.
Qed.

Lemma update_run chunk_size soup fuel s t :
  0 ≤ chunk_size →
  search_tables (db s) = Some t →
  (length (entries_search t) < fuel)%nat →
  (length (entries_search_sync_state t) < fuel)%nat →
  ∃ l, update chunk_size (Some soup) fuel s =
       Ok () (state_after s (reindexed soup (db s) t) l).
Proof.
  intros Hc Ht Hdocs Hrows.
  destruct (_update_run chunk_size soup fuel s t Hc Ht Hdocs Hrows) as [l Hl].
  exists l. unfold update, wrap_exceptions, try_operational. by rewrite Hl.
Qed.

(** ** Step 3: what gets inserted *)

Lemma elem_of_entries_to_update d t e :
  e ∈ entries_to_update d t ↔
  e ∈ entries d ∧
  ∃ r, r ∈ entries_search_sync_state t ∧ sync_key r = entry_key e ∧ to_update r.
Proof.
  unfold entries_to_update. rewrite list_elem_of_bind. split.
  - intros (r & (e' & He & He')%list_elem_of_bind & Hr).
    destruct (bool_decide_reflect (sync_key r = entry_key e')) as [Heq|];
      simpl in He; [|by apply elem_of_nil in He].
    destruct (to_update r) eqn:Hup; simpl in He; [|by apply elem_of_nil in He].
    apply list_elem_of_singleton in He as ->. split; [done|].
    exists r. by rewrite Hup.
  - intros (He & r & Hr & Heq & Hup). exists r. split; [|done].
    apply list_elem_of_bind. exists e. split; [|done].
    rewrite bool_decide_eq_true_2 by done. apply Is_true_true in Hup.
    rewrite Hup. by left.
Qed.

Lemma elem_of_from_summary soup d t row :
  row ∈ from_summary soup d t ↔
  ∃ e, e ∈ entries_to_update d t ∧ truthy (e_summary e) ∧
       row = (e_id e, e_feed e, Some ".summary",
              strip_html soup (e_title e), strip_html soup (e_summary e)).
Proof.
  unfold from_summary, summary_is_empty. rewrite list_elem_of_bind.
  split.
  - intros (e & Hrow & He). exists e. rewrite negb_involutive in Hrow.
    destruct (truthy (e_summary e)); [|by apply elem_of_nil in Hrow].
    by apply list_elem_of_singleton in Hrow.
  - intros (e & He & Hs & ->). exists e. split; [|done].
    rewrite negb_involutive. apply Is_true_true in Hs. rewrite Hs. by left.
Qed.

Lemma elem_of_from_content soup d t row :
  row ∈ from_content soup d t ↔
  ∃ e l i c, e ∈ entries_to_update d t ∧ e_content e = Some l ∧
             l !! i = Some c ∧ indexable_type c ∧
             row = (e_id e, e_feed e, Some (content_path i),
                    strip_html soup (e_title e), strip_html soup (c_value c)).
Proof.
  unfold from_content. rewrite list_elem_of_bind. split.
  - intros (e & Hrow & He). exists e.
    unfold has_content in Hrow.
    destruct (e_content e) as [l|] eqn:Hl; [|by apply elem_of_nil in Hrow].
    assert (row ∈ mjoin (imap (λ key c,
               if indexable_type c
               then [(e_id e, e_feed e, Some (content_path key),
                      strip_html soup (e_title e),
                      strip_html soup (c_value c))]
               else []) l)) as Hin.
    { destruct l; [by apply elem_of_nil in Hrow|done]. }
    apply list_elem_of_join in Hin as (rows & Hin & Hrows).
    apply elem_of_lookup_imap in Hrows as (i & c & -> & Hc).
    exists l, i, c.
    destruct (indexable_type c); [|by apply elem_of_nil in Hin].
    by apply list_elem_of_singleton in Hin.
  - intros (e & l & i & c & He & Hl & Hc & Hty & ->). exists e. split; [|done].
    unfold has_content. rewrite Hl. simpl.
    destruct l as [|c0 l']; [by rewrite lookup_nil in Hc|].
    apply list_elem_of_join. eexists. split; [|by eapply elem_of_lookup_imap_2].
    simpl. apply Is_true_true in Hty. rewrite Hty. by left.
Qed.

Lemma elem_of_from_default soup d t row :
  row ∈ from_default soup d t ↔
  ∃ e, e ∈ entries_to_update d t ∧ ¬ truthy (e_summary e) ∧ ¬ has_content e ∧
       row = (e_id e, e_feed e, None, strip_html soup (e_title e), None).
Proof.
  unfold from_default, summary_is_empty. rewrite list_elem_of_bind. split.
  - intros (e & Hrow & He). exists e.
    destruct (truthy (e_summary e)), (has_content e); simpl in Hrow;
      try (by apply elem_of_nil in Hrow).
    apply list_elem_of_singleton in Hrow.
    split_and!; first [done | by intros []].
  - intros (e & He & Hs & Hc & ->). exists e. split; [|done].
    destruct (truthy (e_summary e)), (has_content e); simpl in *;
      try tauto. by left.
Qed.

Lemma elem_of_union_all soup d t row :
  row ∈ union_all soup d t ↔
  ∃ e path text, e ∈ entries_to_update d t ∧ indexed_content soup e path text ∧
                 row = (e_id e, e_feed e, path, strip_html soup (e_title e), text).
Proof.
  unfold union_all, sql_union.
  rewrite !elem_of_remove_dups, elem_of_app, elem_of_remove_dups, elem_of_app.
  rewrite elem_of_from_summary, elem_of_from_content, elem_of_from_default.
  split.
  - intros [[(e & ? & ? & ->)|(e & l & i & c & ? & ? & ? & ? & ->)]
           |(e & ? & ? & ? & ->)]; exists e; do 2 eexists;
      (split; [done|]); (split; [|done]).
    + by constructor.
    + by econstructor.
    + by constructor.
  - intros (e & path & text & He & Hc & ->). destruct Hc.
    + left. left. eauto.
    + left. right. eauto 10.
    + right. eauto.
Qed.

Lemma elem_of_new_docs soup d t doc :
  doc ∈ new_docs soup d t ↔
  ∃ e f path text,
    e ∈ entries_to_update d t ∧ f ∈ feeds d ∧ f_url f = e_feed e ∧
    indexed_content soup e path text ∧ doc = index_doc soup e f path text.
Proof.
  unfold new_docs. rewrite list_elem_of_bind. split.
  - intros ([[[[r_id r_feed] r_path] r_title] r_text] & Hdoc & Hrow).
    apply elem_of_union_all in Hrow as (e & path & text & He & Hc & Heq).
    simplify_eq. apply list_elem_of_bind in Hdoc as (f & Hdoc & Hf).
    destruct (bool_decide_reflect (f_url f = e_feed e));
      [|by apply elem_of_nil in Hdoc].
    apply list_elem_of_singleton in Hdoc. exists e, f, path, text. done.
  - intros (e & f & path & text & He & Hf & Hurl & Hc & ->).
    exists (e_id e, e_feed e, path, strip_html soup (e_title e), text).
    split; [|apply elem_of_union_all; eauto 10].
    apply list_elem_of_bind. exists f. split; [|done].
    rewrite bool_decide_eq_true_2 by done. by left.
Qed.

Lemma reindexed_docs soup d t :
  entries_search (reindexed soup d t)
  = fresh_docs t ++ new_docs soup d (after_deletes t).
Proof. done. Qed.

Lemma reindexed_sync soup d t :
  entries_search_sync_state (reindexed soup d t)
  = (λ r, mkSyncState (ss_id r) (ss_feed r) false (to_delete r))
    <$> live_rows t.
Proof. done. Qed.

Lemma fresh_docs_not_stale t d :
  d ∈ fresh_docs t → ¬ stale (entries_search_sync_state t) (doc_key d).
Proof. unfold fresh_docs. by intros [? _]%list_elem_of_filter. Qed.

Lemma live_rows_not_tombstone t r :
  r ∈ live_rows t → ¬ tombstone (entries_search_sync_state t) (sync_key r).
Proof. unfold live_rows. by intros [? _]%list_elem_of_filter. Qed.

Lemma tombstone_stale rows k : tombstone rows k → stale rows k.
Proof.
  unfold tombstone, stale. rewrite !Exists_exists.
  intros (r & Hr & Hk & Hdel). exists r. split_and!; [done..|].
  apply Is_true_true in Hdel. rewrite Hdel. by destruct (to_update r).
Qed.

Lemma tombstone_intro rows r :
  r ∈ rows → to_delete r → tombstone rows (sync_key r).
Proof. intros Hr Hdel. apply Exists_exists. by exists r. Qed.

Lemma stale_intro rows r :
  r ∈ rows → to_update r → stale rows (sync_key r).
Proof.
  intros Hr Hup. apply Exists_exists. exists r. split_and!; [done..|].
  apply Is_true_true in Hup. by rewrite Hup.
Qed.

Lemma live_rows_no_flag t r :
  r ∈ live_rows t → to_delete r = false.
Proof.
  intros Hr. pose proof (live_rows_not_tombstone t r Hr) as Hnot.
  apply list_elem_of_filter in Hr as [_ Hr].
  destruct (to_delete r) eqn:Hdel; [|done].
  exfalso. apply Hnot, tombstone_intro; [done|]. by rewrite Hdel.
Qed.

(** C3: every entry whose sync-state row has [to_delete] set before
    [update()] has, after [update()] returns, no document left in the index
    and no sync-state row left. *)
Theorem update_removes_deleted chunk_size soup fuel s t r :
  0 ≤ chunk_size →
  search_tables (db s) = Some t →
  (length (entries_search t) < fuel)%nat →
  (length (entries_search_sync_state t) < fuel)%nat →
  r ∈ entries_search_sync_state t →
  to_delete r →
  ∃ s' t',
    update chunk_size (Some soup) fuel s = Ok () s' ∧
    search_tables (db s') = Some t' ∧
    (sync_key r ∉ doc_key <$> entries_search t') ∧
    (sync_key r ∉ sync_key <$> entries_search_sync_state t').
Proof.
  intros Hc Ht Hdocs Hrows Hr Hdel.
  destruct (update_run chunk_size soup fuel s t Hc Ht Hdocs Hrows) as [l Hl].
  pose proof (tombstone_intro _ _ Hr Hdel) as Htomb.
  eexists _, _. split; [exact Hl|]. split; [done|].
  rewrite reindexed_docs, reindexed_sync. split.
  - intros (d & Hk & [Hd|Hd]%elem_of_app)%list_elem_of_fmap.
    + apply fresh_docs_not_stale in Hd. rewrite <-Hk in Hd.
      by apply Hd, tombstone_stale.
    + apply elem_of_new_docs in Hd as (e & f & path & text & He & _ & _ & _ & ->).
      apply elem_of_entries_to_update in He as (_ & r' & Hr' & Hkey & _).
      apply live_rows_not_tombstone in Hr'. apply Hr'.
      rewrite Hkey. by rewrite Hk in Htomb.
  - rewrite <-list_fmap_compose.
    intros (r' & Hk & Hr')%list_elem_of_fmap.
    apply live_rows_not_tombstone in Hr'. apply Hr'.
    simpl in Hk. unfold sync_key in *. simpl in Hk. by rewrite <-Hk.
Qed.

(** C5: on the same database, [update()] with [chunk_size = 1] and
    [update()] with [chunk_size = 0] both return, and leave the same index
    contents and the same sync-state contents. *)
Theorem update_chunk_size_1_and_0 soup fuel s t :
  search_tables (db s) = Some t →
  (length (entries_search t) < fuel)%nat →
  (length (entries_search_sync_state t) < fuel)%nat →
  ∃ s1 s0,
    update 1 (Some soup) fuel s = Ok () s1 ∧
    update 0 (Some soup) fuel s = Ok () s0 ∧
    db s1 = db s0.
Proof.
  intros Ht Hdocs Hrows.
  destruct (update_run 1 soup fuel s t ltac:(lia) Ht Hdocs Hrows) as [l1 H1].
  destruct (update_run 0 soup fuel s t ltac:(lia) Ht Hdocs Hrows) as [l0 H0].
  by eexists _, _.
Qed.

(** C7: on a database in which the index table already exists, [_enable]
    raises the backend's "already exists" error and changes nothing, and
    [enable()], which recognises that error, returns normally and leaves the
    database as it is. *)
Theorem enable_already_enabled s t :
  search_tables (db s) = Some t →
  _enable s
  = Raise (OperationalError "table entries_search already exists") s
  ∧ enable s = Ok () s.
Proof.
  intros Ht. unfold enable, wrap_exceptions, try_operational, _enable,
    transaction, mbind, M_bind, bind, create_tables.
  rewrite Ht. simpl. by destruct s.
Qed.

(** ** A pass over a clean sync state changes nothing *)

Lemma state_after_log s t l :
  search_tables (db s) = Some t →
  state_after s t l = mkState (db s) (log s ++ l).
Proof. destruct s as [[es fs st] lg]. simpl. by intros ->. Qed.

Lemma clean_select_stale t :
  clean (entries_search_sync_state t) → select_stale t = [].
Proof.
  intros Hclean. apply elem_of_nil_inv. intros k [Hs _]%elem_of_select_stale.
  apply Exists_exists in Hs as (r & Hr & _ & Hflags).
  eapply Forall_forall in Hclean as [Hup Hdel]; [|exact Hr].
  by rewrite Hup, Hdel in Hflags.
Qed.

Lemma clean_delete_tombstones n t :
  clean (entries_search_sync_state t) → delete_tombstones n t = (0, t).
Proof.
  intros Hclean. unfold delete_tombstones.
  assert (filter (λ r, to_delete r) (entries_search_sync_state t) = []) as ->.
  { apply elem_of_nil_inv. intros r [Hdel Hr]%list_elem_of_filter.
    eapply Forall_forall in Hclean as [_ Hno]; [|exact Hr].
    by rewrite Hno in Hdel. }
  assert (sql_limit n (sync_key <$> ([] : list SyncState)) = []) as ->.
  { unfold sql_limit. destruct (n <? 0); [done|]. by destruct (Z.to_nat n). }
  rewrite filter_all by (intros; apply not_elem_of_nil).
  rewrite with_sync_same. f_equal. lia.
Qed.

Lemma clean_insert_docs soup d t :
  clean (entries_search_sync_state t) → insert_docs soup d t = (0, t).
Proof.
  intros Hclean. unfold insert_docs.
  assert (new_docs soup d t = []) as ->.
  { apply elem_of_nil_inv.
    intros doc (e & _ & _ & _ & He & _)%elem_of_new_docs.
    apply elem_of_entries_to_update in He as (_ & r & Hr & _ & Hup).
    eapply Forall_forall in Hclean as [Hno _]; [|exact Hr].
    by rewrite Hno in Hup. }
  by rewrite app_nil_r, with_docs_same.
Qed.

Lemma clean_no_to_update rows :
  clean rows →
  filter (λ r, to_update r) rows = [] ∧
  (λ r, mkSyncState (ss_id r) (ss_feed r) false (to_delete r)) <$> rows = rows.
Proof.
  induction 1 as [|r rows [Hup _] _ [IH1 IH2]]; [done|].
  rewrite filter_cons_False by (rewrite Hup; by intros []).
  split; [done|]. rewrite fmap_cons, IH2. f_equal.
  destruct r. simpl in *. by subst.
Qed.

Lemma clean_clear_flags t :
  clean (entries_search_sync_state t) → clear_flags t = (0, t).
Proof.
  intros [Hnone Hsame]%clean_no_to_update. unfold clear_flags.
  by rewrite Hnone, Hsame, with_sync_same.
Qed.

Lemma reindexed_clean soup d t :
  clean (entries_search_sync_state (reindexed soup d t)).
Proof.
  rewrite reindexed_sync. apply Forall_forall.
  intros r' (r & -> & Hr)%list_elem_of_fmap. simpl.
  split; [done|]. by apply (live_rows_no_flag t).
Qed.

Lemma update_clean chunk_size soup fuel s t :
  0 ≤ chunk_size →
  search_tables (db s) = Some t →
  clean (entries_search_sync_state t) →
  ∃ l, update chunk_size (Some soup) (S fuel) s = Ok () (mkState (db s) (log s ++ l))
       ∧ no_rows_affected l.
Proof.
  intros Hc Ht Hclean.
  assert (∃ l1, _delete_from_search chunk_size (S fuel) s
                = Ok () (state_after s t l1) ∧ no_rows_affected l1)
    as (l1 & H1 & Hz1).
  { unfold _delete_from_search.
    destruct (bool_decide_reflect (chunk_size = 0)) as [_|Hne].
    - exists []. split; [|constructor].
      unfold transaction, execute. rewrite Ht, clean_select_stale by done.
      rewrite delete_docs_nil. unfold set_tables, state_after.
      by rewrite app_nil_r.
    - simpl. unfold mbind, M_bind, bind.
      rewrite (_delete_from_search_chunk_run chunk_size s t Ht).
      rewrite clean_select_stale by done.
      assert (sql_limit chunk_size ([] : list Key) = []) as ->.
      { unfold sql_limit. destruct (chunk_size <? 0); [done|].
        by destruct (Z.to_nat chunk_size). }
      simpl. rewrite delete_docs_nil. eexists. split; [done|].
      by repeat constructor. }
  assert (∃ l2, _delete_from_sync_state chunk_size (S fuel) (state_after s t l1)
                = Ok () (state_after s t (l1 ++ l2)) ∧ no_rows_affected l2)
    as (l2 & H2 & Hz2).
  { cbn [_delete_from_sync_state].
    unfold mbind, M_bind, bind, transaction, execute, debug.
    rewrite state_after_tables, clean_delete_tombstones by done.
    exists [mkLog "_delete_from_sync_state" 0]. split; [|by repeat constructor].
    destruct (bool_decide (chunk_size = 0)) eqn:E; simpl.
    - unfold mret, M_ret, ret, state_after. simpl. by rewrite app_assoc.
    - apply bool_decide_eq_false in E.
      destruct (Z.ltb_spec 0 chunk_size); [|lia].
      unfold mret, M_ret, ret, state_after. simpl. by rewrite app_assoc. }
  eexists (l1 ++ l2 ++ [mkLog "_insert_into_search" 0; mkLog "_clear_to_update" 0]).
  split; [|by repeat (apply Forall_app; split); repeat constructor].
  unfold update, wrap_exceptions, try_operational, _update, mbind, M_bind, bind.
  rewrite H1, H2.
  unfold transaction, _insert_into_search, _clear_to_update, execute, debug,
    mbind, M_bind, bind.
  rewrite state_after_tables. cbv beta iota.
  rewrite clean_insert_docs by done. cbn -[clear_flags].
  rewrite clean_clear_flags by done. simpl.
  rewrite <-(state_after_log s t) by done.
  unfold state_after, set_tables. simpl. by rewrite <-!app_assoc.
Qed.


(** ** Content selection *)

Lemma NoDup_fmap_elem_inj {A B} (f : A → B) (l : list A) (x y : A) :
  NoDup (f <$> l) → x ∈ l → y ∈ l → f x = f y → x = y.
Proof.
  induction l as [|z l IH]; intros Hnd Hx Hy Heq; [by apply elem_of_nil in Hx|].
  rewrite fmap_cons in Hnd. apply NoDup_cons in Hnd as [Hz Hnd].
  apply elem_of_cons in Hx as [->|Hx]; apply elem_of_cons in Hy as [->|Hy].
  - done.
  - exfalso. apply Hz. rewrite Heq. by apply list_elem_of_fmap_2.
  - exfalso. apply Hz. rewrite <-Heq. by apply list_elem_of_fmap_2.
  - by apply IH.
Qed.

(** C1, as the code has it: after [update()], the documents of an entry
    marked [to_update] are exactly one document per content text taken, and
    the selection is cumulative, not by priority: the non-empty summary, and
    every content variant whose type is absent or is text/html, text/xhtml
    or text/plain, and a document without content text when the summary is
    empty and there is no content variant. *)
Theorem update_indexes_every_content chunk_size soup fuel s t e r :
  0 ≤ chunk_size →
  search_tables (db s) = Some t →
  (length (entries_search t) < fuel)%nat →
  (length (entries_search_sync_state t) < fuel)%nat →
  NoDup (entry_key <$> entries (db s)) →
  NoDup (sync_key <$> entries_search_sync_state t) →
  e ∈ entries (db s) →
  r ∈ entries_search_sync_state t →
  sync_key r = entry_key e →
  to_update r →
  to_delete r = false →
  ∃ s' t',
    update chunk_size (Some soup) fuel s = Ok () s' ∧
    search_tables (db s') = Some t' ∧
    ∀ doc,
      doc ∈ entries_search t' ∧ doc_key doc = entry_key e ↔
      ∃ f path text,
        f ∈ feeds (db s) ∧ f_url f = e_feed e ∧
        indexed_content soup e path text ∧
        doc = index_doc soup e f path text.
Proof.
  intros Hc Ht Hdocs Hrows Hentries Hsync He Hr Hkey Hup Hdel.
  destruct (update_run chunk_size soup fuel s t Hc Ht Hdocs Hrows) as [l Hl].
  eexists _, _. split; [exact Hl|]. split; [done|].
  intros doc. rewrite reindexed_docs, elem_of_app. split.
  - intros [[Hd|Hd] Hk].
    + apply fresh_docs_not_stale in Hd. exfalso. apply Hd.
      rewrite Hk, <-Hkey. by apply stale_intro.
    + apply elem_of_new_docs in Hd as (e' & f & path & text & He' & Hf & Hurl
                                       & Hcontent & ->).
      apply elem_of_entries_to_update in He' as (He' & _).
      assert (e' = e) as -> by by eapply NoDup_fmap_elem_inj.
      by exists f, path, text.
  - intros (f & path & text & Hf & Hurl & Hcontent & ->). split; [|done].
    right. apply elem_of_new_docs. exists e, f, path, text.
    split_and!; [|done..]. apply elem_of_entries_to_update. split; [done|].
    exists r. split_and!; [|done..].
    apply list_elem_of_filter. split; [|done].
    intros (r' & Hr' & Hk' & Hdel')%Exists_exists.
    assert (r' = r) as -> by by eapply NoDup_fmap_elem_inj.
    by rewrite Hdel in Hdel'.
Qed.

Lemma update_indexes_every_content_witness :
  ∃ s' t',
    update 256 (Some id) 2 Examples.both_dirty = Ok () s' ∧
    search_tables (db s') = Some t' ∧
    ∀ doc,
      doc ∈ entries_search t' ∧ doc_key doc = entry_key Examples.entry_both ↔
      ∃ f path text,
        f ∈ feeds (db Examples.both_dirty) ∧
        f_url f = e_feed Examples.entry_both ∧
        indexed_content id Examples.entry_both path text ∧
        doc = index_doc id Examples.entry_both f path text.
Proof.
  apply (update_indexes_every_content 256 id 2 Examples.both_dirty
           (mkTables [] [mkSyncState "1" "a" true false])
           Examples.entry_both (mkSyncState "1" "a" true false)).
  - lia.
  - reflexivity.
  - simpl; lia.
  - simpl; lia.
  - vm_compute. repeat constructor. apply not_elem_of_nil.
  - vm_compute. repeat constructor. apply not_elem_of_nil.
  - left.
  - left.
  - reflexivity.
  - exact I.
  - reflexivity.
Defined.

(** C1 as stated fails: an entry with a summary and an HTML content variant
    gets two documents, one for each text, not the one document of the
    priority rule. *)
Lemma update_does_not_select_by_priority :
  ¬ update_selects_by_priority 256 id 2 Examples.both_dirty.
Proof.
  intros Hrule.
  destruct (Hrule (mkTables [] [mkSyncState "1" "a" true false])
              Examples.entry_both (mkSyncState "1" "a" true false))
    as (s' & t' & Hrun & Ht' & f & _ & _ & Hone);
    [reflexivity|left|left|reflexivity|exact I|].
  vm_compute in Hrun. injection Hrun as <-.
  injection Ht' as <-. vm_compute in Hone. discriminate Hone.
Qed.


(** X20: where the entry has a summary, a content variant of a text type, or
    no content variant at all, and its feed is there, [update()] does leave
    a document for it; and it clears [to_update] on every row it leaves. *)
Lemma update_indexes_entry_with_text chunk_size soup fuel s t e r f :
  0 ≤ chunk_size →
  search_tables (db s) = Some t →
  (length (entries_search t) < fuel)%nat →
  (length (entries_search_sync_state t) < fuel)%nat →
  e ∈ entries (db s) →
  r ∈ entries_search_sync_state t →
  sync_key r = entry_key e →
  to_update r →
  ¬ tombstone (entries_search_sync_state t) (entry_key e) →
  f ∈ feeds (db s) →
  f_url f = e_feed e →
  (truthy (e_summary e) ∨ ¬ has_content e
   ∨ ∃ l i c, e_content e = Some l ∧ l !! i = Some c ∧ indexable_type c) →
  ∃ s' t',
    update chunk_size (Some soup) fuel s = Ok () s' ∧
    search_tables (db s') = Some t' ∧
    entry_key e ∈ doc_key <$> entries_search t' ∧
    ∀ r', r' ∈ entries_search_sync_state t' → to_update r' = false.
Proof.
  intros Hc Ht Hdocs Hrows He Hr Hkey Hup Hlive Hf Hurl Htext.
  destruct (update_run chunk_size soup fuel s t Hc Ht Hdocs Hrows) as [l Hl].
  eexists _, _. split; [exact Hl|]. split; [done|]. split.
  - assert (∃ path text, indexed_content soup e path text)
      as (path & text & Hcontent).
    { destruct (truthy (e_summary e)) eqn:Hsummary.
      - eexists _, _. apply indexed_summary. by rewrite Hsummary.
      - destruct Htext as [[]|[Hnone|(l' & i & c & Hl' & Hi & Hc')]].
        + eexists _, _. apply indexed_title_only; [|done].
          rewrite Hsummary. by intros [].
        + eexists _, _. by eapply indexed_variant. }
    rewrite reindexed_docs, fmap_app. apply elem_of_app. right.
    apply list_elem_of_fmap. exists (index_doc soup e f path text).
    split; [done|]. apply elem_of_new_docs. exists e, f, path, text.
    split_and!; [|done..]. apply elem_of_entries_to_update. split; [done|].
    exists r. split_and!; [|done..].
    apply list_elem_of_filter. split; [|done]. by rewrite Hkey.
  - intros r' Hr'. pose proof (reindexed_clean soup (db s) t) as Hclean.
    eapply Forall_forall in Hclean as [Hno _]; [done|exact Hr'].
Qed.

Lemma update_removes_deleted_witness :
  ∃ s' t',
    update 1 (Some id) 3 Examples.one_deleted = Ok () s' ∧
    search_tables (db s') = Some t' ∧
    (("3", "a") ∉ doc_key <$> entries_search t') ∧
    (("3", "a") ∉ sync_key <$> entries_search_sync_state t').
Proof.
  apply (update_removes_deleted 1 id 3 Examples.one_deleted
           (mkTables [Examples.doc_gone]
              [mkSyncState "1" "a" true false; mkSyncState "3" "a" false true])
           (mkSyncState "3" "a" false true)).
  - lia.
  - reflexivity.
  - simpl; lia.
  - simpl; lia.
  - right; left.
  - exact I.
Defined.

Lemma update_chunk_size_1_and_0_witness :
  ∃ s1 s0,
    update 1 (Some id) 3 Examples.one_deleted = Ok () s1 ∧
    update 0 (Some id) 3 Examples.one_deleted = Ok () s0 ∧
    db s1 = db s0.
Proof.
  apply (update_chunk_size_1_and_0 id 3 Examples.one_deleted
           (mkTables [Examples.doc_gone]
              [mkSyncState "1" "a" true false; mkSyncState "3" "a" false true])).
  - reflexivity.
  - simpl; lia.
  - simpl; lia.
Defined.


Lemma enable_already_enabled_witness :
  _enable Examples.both_dirty
  = Raise (OperationalError "table entries_search already exists")
      Examples.both_dirty
  ∧ enable Examples.both_dirty = Ok () Examples.both_dirty.
Proof.
  apply (enable_already_enabled Examples.both_dirty
           (mkTables [] [mkSyncState "1" "a" true false])).
  reflexivity.
Defined.

(** ** Errors *)

Section not_enabled.
Context {EntryFilterOptions : Type}.
Context (fts5_match : string → option (Doc → bool)).
Context (bm25 : string → Doc → Z).
Context (snippet : string → nat → string → string → Doc → string).
Context (apply_filter_options : EntryFilterOptions → Entry → bool).
Context (extract : string → string → string → HighlightedString).

Lemma search_entries_not_enabled s random_mark query filter_options
    chunk_size last :
  search_tables (db s) = None →
  search_entries fts5_match bm25 snippet apply_filter_options extract
    random_mark query filter_options chunk_size last s
  = Raise SearchNotEnabledError s.
Proof.
  intros Hnone.
  unfold search_entries, wrap_exceptions, try_operational, paginated_query.
  by rewrite Hnone.
Qed.
End not_enabled.

Lemma update_not_enabled chunk_size soup fuel s :
  search_tables (db s) = None →
  update chunk_size (Some soup) (S fuel) s = Raise SearchNotEnabledError s.
Proof.
  intros Hnone.
  unfold update, wrap_exceptions, try_operational, _update, mbind, M_bind,
    bind, _delete_from_search.
  destruct (bool_decide (chunk_size = 0)).
  - unfold transaction, execute. rewrite Hnone. simpl. by destruct s.
  - cbn [_delete_from_search_loop].
    unfold mbind, M_bind, bind, _delete_from_search_chunk, transaction,
      execute. unfold mbind, M_bind, bind. rewrite Hnone. simpl.
    by destruct s.
Qed.

Lemma update_without_bs4 chunk_size fuel s :
  update chunk_size None fuel s
  = Raise (SearchError "could not import search dependencies") s.
Proof. done. Qed.

(** C8, as the code has it: without the index table, consuming
    [search_entries()] raises [SearchNotEnabledError], and so does [update()]
    when its markup-stripping dependency is available; when it is not,
    [update()] raises the generic [SearchError] first.  The database is left
    as it was in each case. *)
Theorem not_enabled_is_reported s :
  search_tables (db s) = None →
  (∀ chunk_size soup fuel,
     update chunk_size (Some soup) (S fuel) s = Raise SearchNotEnabledError s) ∧
  (∀ (EntryFilterOptions : Type)
     (fts5_match : string → option (Doc → bool)) (bm25 : string → Doc → Z)
     (snippet : string → nat → string → string → Doc → string)
     (apply_filter_options : EntryFilterOptions → Entry → bool)
     (extract : string → string → string → HighlightedString)
     random_mark query filter_options chunk_size last,
     search_entries fts5_match bm25 snippet apply_filter_options extract
       random_mark query filter_options chunk_size last s
     = Raise SearchNotEnabledError s) ∧
  (∀ chunk_size fuel,
     update chunk_size None fuel s
     = Raise (SearchError "could not import search dependencies") s).
Proof.
  intros Hnone. split_and!.
  - intros. by apply update_not_enabled.
  - intros. by apply search_entries_not_enabled.
  - intros. apply update_without_bs4.
Qed.

Lemma not_enabled_is_reported_witness :
  (∀ chunk_size soup fuel,
     update chunk_size (Some soup) (S fuel) Examples.not_enabled
     = Raise SearchNotEnabledError Examples.not_enabled) ∧
  (∀ (EntryFilterOptions : Type)
     (fts5_match : string → option (Doc → bool)) (bm25 : string → Doc → Z)
     (snippet : string → nat → string → string → Doc → string)
     (apply_filter_options : EntryFilterOptions → Entry → bool)
     (extract : string → string → string → HighlightedString)
     random_mark query filter_options chunk_size last,
     search_entries fts5_match bm25 snippet apply_filter_options extract
       random_mark query filter_options chunk_size last Examples.not_enabled
     = Raise SearchNotEnabledError Examples.not_enabled) ∧
  (∀ chunk_size fuel,
     update chunk_size None fuel Examples.not_enabled
     = Raise (SearchError "could not import search dependencies")
         Examples.not_enabled).
Proof. apply (not_enabled_is_reported Examples.not_enabled). reflexivity. Defined.

(** C8 as stated fails: without [bs4], [update()] on a database without the
    index table raises the generic [SearchError], not
    [SearchNotEnabledError]. *)
Lemma update_not_enabled_without_bs4 :
  ¬ update_reports_not_enabled Examples.not_enabled.
Proof.
  intros Hclaim. destruct (Hclaim 256 None 0%nat) as [s' Hs'].
  discriminate Hs'.
Qed.

(** ** Runs that return, whatever the fuel and the chunk size *)

Lemma _delete_from_search_loop_ok chunk_size fuel : ∀ s t s1,
  chunk_size ≠ 0 →
  search_tables (db s) = Some t →
  _delete_from_search_loop chunk_size fuel s = Ok () s1 →
  ∃ l, s1 = state_after s (with_docs t (fresh_docs t)) l.
Proof.
  induction fuel as [|fuel IH]; intros s t s1 Hc Ht Hrun; [done|].
  simpl in Hrun. unfold mbind, M_bind, bind in Hrun.
  rewrite (_delete_from_search_chunk_run chunk_size s t Ht) in Hrun.
  set (to_delete := sql_limit chunk_size (select_stale t)) in *.
  destruct (bool_decide_reflect (to_delete = [])) as [Hnil|Hne]; simpl in Hrun.
  { injection Hrun as <-. eexists.
    rewrite Hnil, delete_docs_nil.
    apply sql_limit_nil in Hnil; [|done].
    by rewrite (select_stale_fresh _ Hnil), with_docs_same. }
  destruct (Z.ltb_spec (Z.of_nat (length to_delete)) chunk_size) as [Hlt|Hge];
    simpl in Hrun.
  { injection Hrun as <-. eexists.
    unfold to_delete. rewrite sql_limit_short by done.
    by rewrite delete_docs_stale. }
  eapply IH in Hrun as [l ->]; [|done|apply state_after_tables].
  rewrite state_after_after. eexists.
  rewrite fresh_docs_delete_docs; [done|].
  intros k Hk. by apply (sql_limit_elem_of chunk_size).
Qed.

Lemma _delete_from_search_ok chunk_size fuel s t s1 :
  search_tables (db s) = Some t →
  _delete_from_search chunk_size fuel s = Ok () s1 →
  ∃ l, s1 = state_after s (with_docs t (fresh_docs t)) l.
Proof.
  intros Ht. unfold _delete_from_search.
  destruct (bool_decide_reflect (chunk_size = 0)) as [_|Hc].
  - unfold transaction, execute. rewrite Ht, delete_docs_stale.
    intros [= <-]. exists []. unfold set_tables, state_after.
    by rewrite app_nil_r.
  - by apply _delete_from_search_loop_ok.
Qed.

Lemma delete_tombstones_rowcount_nonneg n t : 0 ≤ (delete_tombstones n t).1.
Proof.
  unfold delete_tombstones. simpl.
  pose proof (length_filter
    (λ r, sync_key r ∉ sql_limit n
       (sync_key <$> filter (λ r, to_delete r) (entries_search_sync_state t)))
    (entries_search_sync_state t)). lia.
Qed.

Lemma _delete_from_sync_state_ok chunk_size fuel : ∀ s t s2,
  search_tables (db s) = Some t →
  _delete_from_sync_state chunk_size fuel s = Ok () s2 →
  ∃ l, s2 = state_after s (with_sync t (live_rows t)) l.
Proof.
  induction fuel as [|fuel IH]; intros s t s2 Ht Hrun; [done|].
  cbn [_delete_from_sync_state] in Hrun.
  unfold mbind, M_bind, bind, transaction, execute, debug in Hrun.
  rewrite Ht in Hrun.
  destruct (decide (chunk_size = 0)) as [->|Hne].
  { rewrite !bool_decide_eq_true_2 in Hrun by done.
    pose proof (delete_tombstones_all (-1) t eq_refl) as Hall.
    destruct (delete_tombstones (-1) t) as [rowcount t']. simpl in *.
    injection Hrun as <-. subst t'. by eexists. }
  rewrite !bool_decide_eq_false_2 in Hrun by done.
  pose proof (delete_tombstones_rowcount_nonneg chunk_size t) as Hnonneg.
  pose proof (delete_tombstones_rowcount chunk_size t) as Hcount.
  pose proof (live_rows_delete_tombstones chunk_size t) as Hlive.
  pose proof (delete_tombstones_all chunk_size t) as Hall.
  assert (∃ rows, (delete_tombstones chunk_size t).2 = with_sync t rows)
    as (rows & Hrows) by by eexists.
  destruct (delete_tombstones chunk_size t) as [rowcount t']. simpl in *.
  destruct (Z.ltb_spec rowcount chunk_size) as [Hlt|Hge].
  { injection Hrun as <-. eexists. unfold state_after. simpl.
    rewrite Hall; [done|]. apply sql_limit_short. lia. }
  eapply (IH _ t') in Hrun as [l ->]; [|done].
  unfold set_tables. simpl.
  change (mkState (mkDB (entries (db s)) (feeds (db s)) (Some t'))
            (log s ++ [mkLog "_delete_from_sync_state" rowcount]))
    with (state_after s t' [mkLog "_delete_from_sync_state" rowcount]).
  rewrite state_after_after. eexists. by rewrite Hlive, Hrows.
Qed.

Lemma bind_ok_inv {A B} (m : M A) (k : A → M B) s b s' :
  (m ≫= k) s = Ok b s' → ∃ a s1, m s = Ok a s1 ∧ k a s1 = Ok b s'.
Proof.
  unfold mbind, M_bind, bind. destruct (m s) as [a s1| |]; [|done..].
  intros Hk. by exists a, s1.
Qed.

(** A call of [update()] that returns went through the three steps, each of
    which returned. *)
Lemma update_ok_inv chunk_size bs4 fuel s t s' :
  search_tables (db s) = Some t →
  update chunk_size bs4 fuel s = Ok () s' →
  ∃ soup l1 l2 l3,
    bs4 = Some soup ∧
    _delete_from_search chunk_size fuel s
    = Ok () (state_after s (with_docs t (fresh_docs t)) l1) ∧
    _delete_from_sync_state chunk_size fuel
      (state_after s (with_docs t (fresh_docs t)) l1)
    = Ok () (state_after s (after_deletes t) l2) ∧
    transaction (_insert_into_search soup;; _clear_to_update)
      (state_after s (after_deletes t) l2)
    = Ok () (state_after s (reindexed soup (db s) t) l3) ∧
    s' = state_after s (reindexed soup (db s) t) l3.
Proof.
  intros Ht Hrun.
  assert (_update chunk_size bs4 fuel s = Ok () s') as Hupdate.
  { unfold update, wrap_exceptions, try_operational in Hrun.
    destruct (_update chunk_size bs4 fuel s) as [[] ?|[] ?|]; try done.
    destruct (contains _ _); done. }
  clear Hrun. destruct bs4 as [soup|]; [|done]. exists soup.
  unfold _update in Hupdate.
  apply bind_ok_inv in Hupdate as ([] & s1 & H1 & Hupdate).
  destruct (_delete_from_search_ok _ _ _ _ _ Ht H1) as [l1 ->].
  apply bind_ok_inv in Hupdate as ([] & s2 & H2 & H3).
  destruct (_delete_from_sync_state_ok _ _ _ _ _
              (state_after_tables _ _ _) H2) as [l2' ->].
  rewrite state_after_after in H2, H3.
  change (with_sync (with_docs t (fresh_docs t))
            (live_rows (with_docs t (fresh_docs t)))) with (after_deletes t)
    in H2, H3.
  assert (transaction (_insert_into_search soup;; _clear_to_update)
            (state_after s (after_deletes t) (l1 ++ l2'))
          = Ok () (state_after s (reindexed soup (db s) t)
                     ((l1 ++ l2') ++
                      [mkLog "_insert_into_search"
                         (insert_docs soup (db s) (after_deletes t)).1;
                       mkLog "_clear_to_update"
                         (clear_flags
                            (insert_docs soup (db s) (after_deletes t)).2).1])))
    as H3'.
  { unfold transaction, _insert_into_search, _clear_to_update, execute, debug,
      mbind, M_bind, bind, reindexed, state_after, set_tables. simpl.
    by rewrite <-!app_assoc. }
  rewrite H3' in H3. injection H3 as <-.
  by eexists _, _, _.
Qed.

(** ** Keys through a pass *)

Lemma fresh_docs_drop_stale t k :
  stale (entries_search_sync_state t) k → k ∉ doc_key <$> fresh_docs t.
Proof.
  intros Hstale (d & -> & Hd)%list_elem_of_fmap.
  by apply fresh_docs_not_stale in Hd.
Qed.

Lemma live_rows_keys t k :
  k ∈ sync_key <$> live_rows t ↔
  k ∈ sync_key <$> entries_search_sync_state t
  ∧ ¬ tombstone (entries_search_sync_state t) k.
Proof.
  unfold live_rows. rewrite !list_elem_of_fmap. split.
  - intros (r & -> & [Hlive Hr]%list_elem_of_filter). eauto.
  - intros [(r & -> & Hr) Hlive]. exists r. split; [done|].
    by apply list_elem_of_filter.
Qed.

Lemma reindexed_keys soup d t :
  sync_key <$> entries_search_sync_state (reindexed soup d t)
  = sync_key <$> live_rows t.
Proof. rewrite reindexed_sync, <-list_fmap_compose. done. Qed.

Lemma new_docs_keys soup d t k :
  k ∈ doc_key <$> new_docs soup d t →
  k ∈ sync_key <$> entries_search_sync_state t.
Proof.
  intros (doc & -> & Hdoc)%list_elem_of_fmap.
  apply elem_of_new_docs in Hdoc as (e & f & path & text & He & _ & _ & _ & ->).
  apply elem_of_entries_to_update in He as (_ & r & Hr & Hkey & _).
  apply list_elem_of_fmap. by exists r.
Qed.

Lemma reindexed_drops_tombstone soup d t k :
  tombstone (entries_search_sync_state t) k →
  (k ∉ doc_key <$> entries_search (reindexed soup d t)) ∧
  (k ∉ sync_key <$> entries_search_sync_state (reindexed soup d t)).
Proof.
  intros Htomb. rewrite reindexed_docs, reindexed_keys, fmap_app. split.
  - intros [Hk|Hk]%elem_of_app.
    + revert Hk. by apply fresh_docs_drop_stale, tombstone_stale.
    + apply new_docs_keys in Hk. simpl in Hk.
      by apply live_rows_keys in Hk as [_ Hk].
  - by intros [_ Hk]%live_rows_keys.
Qed.

Lemma reindexed_no_tombstone soup d t k :
  ¬ tombstone (entries_search_sync_state (reindexed soup d t)) k.
Proof.
  intros (r & Hr & _ & Hdel)%Exists_exists.
  pose proof (reindexed_clean soup d t) as Hclean.
  eapply Forall_forall in Hclean as [_ Hno]; [|exact Hr].
  by rewrite Hno in Hdel.
Qed.

(** ** The triggers keep every key *)

Lemma tombstone_fmap (f : SyncState → SyncState) rows k :
  (∀ r, sync_key (f r) = sync_key r) →
  (∀ r, sync_key r = k → to_delete (f r) = to_delete r) →
  tombstone (f <$> rows) k ↔ tombstone rows k.
Proof.
  intros Hkey Hdel. unfold tombstone. rewrite !Exists_exists. split.
  - intros (r' & (r & -> & Hr)%list_elem_of_fmap & Hk & Hflag).
    rewrite Hkey in Hk. rewrite Hdel in Hflag by done. eauto.
  - intros (r & Hr & Hk & Hflag). exists (f r).
    rewrite Hkey, Hdel by done. split; [|done]. by apply list_elem_of_fmap_2.
Qed.

Lemma keys_fmap (f : SyncState → SyncState) (rows : list SyncState) :
  (∀ r, sync_key (f r) = sync_key r) →
  sync_key <$> (f <$> rows) = sync_key <$> rows.
Proof.
  intros Hkey. rewrite <-list_fmap_compose. apply list_fmap_ext.
  intros i r _. apply Hkey.
Qed.

Lemma entries_search_entries_update_keeps new t k :
  sync_key <$> entries_search_sync_state (entries_search_entries_update new t)
  = sync_key <$> entries_search_sync_state t
  ∧ (tombstone (entries_search_sync_state (entries_search_entries_update new t)) k
     ↔ tombstone (entries_search_sync_state t) k).
Proof.
  unfold entries_search_entries_update. simpl. split.
  - apply keys_fmap. intros r. by destruct (bool_decide _).
  - apply tombstone_fmap; intros r; by destruct (bool_decide _).
Qed.

Lemma entries_search_feeds_update_keeps new t k :
  sync_key <$> entries_search_sync_state (entries_search_feeds_update new t)
  = sync_key <$> entries_search_sync_state t
  ∧ (tombstone (entries_search_sync_state (entries_search_feeds_update new t)) k
     ↔ tombstone (entries_search_sync_state t) k).
Proof.
  unfold entries_search_feeds_update. simpl. split.
  - apply keys_fmap. intros r. by destruct (bool_decide _).
  - apply tombstone_fmap; intros r; by destruct (bool_decide _).
Qed.

Lemma entries_search_entries_delete_keeps old t k :
  sync_key <$> entries_search_sync_state (entries_search_entries_delete old t)
  = sync_key <$> entries_search_sync_state t
  ∧ (entry_key old ≠ k →
     tombstone (entries_search_sync_state (entries_search_entries_delete old t)) k
     ↔ tombstone (entries_search_sync_state t) k).
Proof.
  unfold entries_search_entries_delete. simpl. split.
  - apply keys_fmap. intros r. by destruct (bool_decide _).
  - intros Hne. apply tombstone_fmap; intros r.
    + by destruct (bool_decide _).
    + intros Hk. rewrite bool_decide_eq_false_2; [done|]. congruence.
Qed.

Lemma foldr_update_keeps (A : Type) (trigger : SearchTables → SearchTables)
    (l : list A) t k :
  (∀ t, sync_key <$> entries_search_sync_state (trigger t)
        = sync_key <$> entries_search_sync_state t
        ∧ (tombstone (entries_search_sync_state (trigger t)) k
           ↔ tombstone (entries_search_sync_state t) k)) →
  sync_key <$> entries_search_sync_state (foldr (λ _, trigger) t l)
  = sync_key <$> entries_search_sync_state t
  ∧ (tombstone (entries_search_sync_state (foldr (λ _, trigger) t l)) k
     ↔ tombstone (entries_search_sync_state t) k).
Proof.
  intros Hkeeps. induction l as [|x l [IH1 IH2]]; [done|]. cbn [foldr].
  destruct (Hkeeps (foldr (λ _, trigger) t l)) as [-> ->]. done.
Qed.

Lemma foldr_delete_keeps (deleted : list Entry) t k :
  (∀ old, old ∈ deleted → entry_key old ≠ k) →
  sync_key <$> entries_search_sync_state
                 (foldr entries_search_entries_delete t deleted)
  = sync_key <$> entries_search_sync_state t
  ∧ (tombstone (entries_search_sync_state
                  (foldr entries_search_entries_delete t deleted)) k
     ↔ tombstone (entries_search_sync_state t) k).
Proof.
  induction deleted as [|old deleted IH]; intros Hne; [done|]. cbn [foldr].
  destruct IH as [IH1 IH2]; [intros; apply Hne; by right|].
  destruct (entries_search_entries_delete_keeps old
              (foldr entries_search_entries_delete t deleted) k) as [-> Htomb].
  rewrite Htomb by (apply Hne; left). done.
Qed.

Lemma foldr_delete_keys (deleted : list Entry) t :
  sync_key <$> entries_search_sync_state
                 (foldr entries_search_entries_delete t deleted)
  = sync_key <$> entries_search_sync_state t.
Proof.
  induction deleted as [|old deleted IH]; [done|]. cbn [foldr].
  by destruct (entries_search_entries_delete_keeps old
                 (foldr entries_search_entries_delete t deleted) ("", ""))
    as [-> _].
Qed.

(** ** Every entry has its sync-state row *)

Lemma enable_tracked d0 l s' :
  search_tables d0 = None →
  enable (mkState d0 l) = Ok () s' →
  every_entry_tracked (db s').
Proof.
  intros Hnone.
  unfold enable, wrap_exceptions, try_operational, _enable, transaction,
    mbind, M_bind, bind, create_tables, backfill. simpl. rewrite Hnone. simpl.
  destruct (bool_decide _); [|done]. intros [= <-]. simpl.
  eexists. split; [done|]. simpl. intros e He. split.
  - rewrite <-list_fmap_compose. by apply (list_elem_of_fmap_2 entry_key).
  - intros (r' & (e' & -> & _)%list_elem_of_fmap & _ & Hdel)%Exists_exists.
    done.
Qed.

Lemma insert_entry_tracked e d d' :
  every_entry_tracked d → Storage.insert_entry e d = Some d' →
  every_entry_tracked d' ∧ tracked_keys d ⊆ tracked_keys d'.
Proof.
  intros (t & Ht & Hinv). unfold Storage.insert_entry, tracked_keys.
  destruct (bool_decide _); [done|]. rewrite Ht. simpl.
  unfold entries_search_entries_insert.
  destruct (bool_decide_reflect
              (entry_key e ∈ sync_key <$> entries_search_sync_state t))
    as [|Hfree]; [done|].
  simpl. intros [= <-]. simpl. split.
  - eexists. split; [done|]. simpl. intros e' [He'| ->%list_elem_of_singleton]%elem_of_app.
    + destruct (Hinv e' He') as [Hkey Hlive]. split.
      * rewrite fmap_app. apply elem_of_app. by left.
      * unfold tombstone. rewrite Exists_app. intros [Htomb|Htomb]; [done|].
        apply Exists_cons in Htomb as [[_ []]|Htomb]. by apply Exists_nil in Htomb.
    + split.
      * rewrite fmap_app. apply elem_of_app. right. by left.
      * unfold tombstone. rewrite Exists_app. intros [Htomb|Htomb].
        -- apply Hfree. apply Exists_exists in Htomb as (r & Hr & <- & _).
           by apply list_elem_of_fmap_2.
        -- apply Exists_cons in Htomb as [[_ []]|Htomb].
           by apply Exists_nil in Htomb.
  - rewrite fmap_app. intros k Hk. apply elem_of_app. by left.
Qed.

Lemma update_entry_tracked e d d' :
  every_entry_tracked d → Storage.update_entry e d = Some d' →
  every_entry_tracked d' ∧ tracked_keys d ⊆ tracked_keys d'.
Proof.
  intros (t & Ht & Hinv). unfold Storage.update_entry, tracked_keys.
  rewrite Ht. simpl. intros [= <-]. simpl.
  set (updated := filter (λ e', entry_key e' = entry_key e) (entries d)).
  assert (Hkeeps : ∀ k,
    sync_key <$> entries_search_sync_state
                   (foldr (λ _, entries_search_entries_update e) t updated)
    = sync_key <$> entries_search_sync_state t
    ∧ (tombstone (entries_search_sync_state
                    (foldr (λ _, entries_search_entries_update e) t updated)) k
       ↔ tombstone (entries_search_sync_state t) k)).
  { intros k. apply foldr_update_keeps. intros t0.
    apply entries_search_entries_update_keeps. }
  split.
  - eexists. split; [done|]. intros e1 (e0 & -> & He0)%list_elem_of_fmap.
    destruct (Hkeeps (entry_key e0)) as [Hkeys Htomb].
    destruct (bool_decide_reflect (entry_key e0 = entry_key e)) as [Heq|_].
    + rewrite <-Heq, Hkeys, Htomb. by apply Hinv.
    + rewrite Hkeys, Htomb. by apply Hinv.
  - destruct (Hkeeps ("", "")) as [-> _]. done.
Qed.

Lemma update_feed_tracked f d d' :
  every_entry_tracked d → Storage.update_feed f d = Some d' →
  every_entry_tracked d' ∧ tracked_keys d ⊆ tracked_keys d'.
Proof.
  intros (t & Ht & Hinv). unfold Storage.update_feed, tracked_keys.
  rewrite Ht. simpl. intros [= <-]. simpl.
  set (updated := filter (λ f', f_url f' = f_url f) (feeds d)).
  assert (Hkeeps : ∀ k,
    sync_key <$> entries_search_sync_state
                   (foldr (λ _, entries_search_feeds_update f) t updated)
    = sync_key <$> entries_search_sync_state t
    ∧ (tombstone (entries_search_sync_state
                    (foldr (λ _, entries_search_feeds_update f) t updated)) k
       ↔ tombstone (entries_search_sync_state t) k)).
  { intros k. apply foldr_update_keeps. intros t0.
    apply entries_search_feeds_update_keeps. }
  split.
  - eexists. split; [done|]. intros e He.
    destruct (Hkeeps (entry_key e)) as [-> ->]. by apply Hinv.
  - destruct (Hkeeps ("", "")) as [-> _]. done.
Qed.

Lemma delete_entries_tracked (P : Entry → Prop) `{!∀ e, Decision (P e)} d t :
  search_tables d = Some t →
  (∀ e, e ∈ entries d →
        entry_key e ∈ sync_key <$> entries_search_sync_state t ∧
        ¬ tombstone (entries_search_sync_state t) (entry_key e)) →
  (∀ e e', P e → ¬ P e' → entry_key e ≠ entry_key e') →
  ∀ fs,
  every_entry_tracked
    (mkDB (filter (λ e, ¬ P e) (entries d)) fs
       (Some (foldr entries_search_entries_delete t (filter P (entries d)))))
  ∧ sync_key <$> entries_search_sync_state t
    = sync_key <$> entries_search_sync_state
                     (foldr entries_search_entries_delete t
                        (filter P (entries d))).
Proof.
  intros Ht Hinv Hsep fs. split; [|by rewrite foldr_delete_keys].
  eexists. split; [done|]. simpl.
  intros e [Hkeep He]%list_elem_of_filter.
  destruct (foldr_delete_keeps (filter P (entries d)) t (entry_key e))
    as [-> ->]; [|by apply Hinv].
  intros old [Hold _]%list_elem_of_filter. by apply Hsep.
Qed.

Lemma delete_entry_tracked key d d' :
  every_entry_tracked d → Storage.delete_entry key d = Some d' →
  every_entry_tracked d' ∧ tracked_keys d ⊆ tracked_keys d'.
Proof.
  intros (t & Ht & Hinv). unfold Storage.delete_entry, tracked_keys.
  rewrite Ht. simpl. intros [= <-]. simpl.
  destruct (delete_entries_tracked (λ e, entry_key e = key) d t Ht Hinv)
    with (fs := feeds d) as [Htracked <-]; [congruence|done].
Qed.

Lemma delete_feed_tracked url d d' :
  every_entry_tracked d → Storage.delete_feed url d = Some d' →
  every_entry_tracked d' ∧ tracked_keys d ⊆ tracked_keys d'.
Proof.
  intros (t & Ht & Hinv). unfold Storage.delete_feed, tracked_keys.
  rewrite Ht. simpl. intros [= <-]. simpl.
  destruct (delete_entries_tracked (λ e, e_feed e = url) d t Ht Hinv)
    with (fs := filter (λ f, f_url f ≠ url) (feeds d)) as [Htracked <-];
    [|done].
  intros e e' He He'. unfold entry_key. congruence.
Qed.

Lemma insert_feed_tracked f d d' :
  every_entry_tracked d → Storage.insert_feed f d = Some d' →
  every_entry_tracked d' ∧ tracked_keys d ⊆ tracked_keys d'.
Proof.
  intros (t & Ht & Hinv). unfold Storage.insert_feed, tracked_keys.
  destruct (bool_decide _); [done|]. intros [= <-]. simpl. rewrite Ht.
  split; [|done]. by exists t.
Qed.

Lemma write_tracked w d d' :
  every_entry_tracked d → apply_write w d = Some d' →
  every_entry_tracked d' ∧ tracked_keys d ⊆ tracked_keys d'.
Proof.
  destruct w; simpl.
  - apply insert_entry_tracked.
  - apply update_entry_tracked.
  - apply delete_entry_tracked.
  - apply insert_feed_tracked.
  - apply update_feed_tracked.
  - apply delete_feed_tracked.
Qed.

Lemma update_tracked chunk_size bs4 fuel d l s' :
  every_entry_tracked d →
  update chunk_size bs4 fuel (mkState d l) = Ok () s' →
  every_entry_tracked (db s').
Proof.
  intros (t & Ht & Hinv) Hrun.
  apply (update_ok_inv _ _ _ _ t) in Hrun
    as (soup & l1 & l2 & l3 & _ & _ & _ & _ & ->); [|done].
  eexists. split; [done|]. intros e He. simpl in He.
  destruct (Hinv e He) as [Hkey Hlive]. split.
  - rewrite reindexed_keys. by apply live_rows_keys.
  - apply reindexed_no_tombstone.
Qed.

Lemma enabled_reachable_tracked d :
  enabled_reachable d → every_entry_tracked d.
Proof.
  induction 1 as [d0 l s' Hnone Henable|d d' _ IH Hstep].
  - by eapply enable_tracked.
  - destruct Hstep as [w d' Hw|chunk_size bs4 fuel l s' Hrun].
    + by eapply write_tracked.
    + by eapply update_tracked.
Qed.



(** ** Results of a query *)

Lemma odict_set_keys {V} (k : string) (v : V) (d : list (string * V)) k' :
  k' ∈ (odict_set k v d).*1 ↔ k' = k ∨ k' ∈ d.*1.
Proof.
  induction d as [|[k0 v0] d IH]; simpl.
  - rewrite list_elem_of_singleton, elem_of_nil. tauto.
  - destruct (bool_decide_reflect (k0 = k)) as [->|Hne]; simpl;
      rewrite !elem_of_cons; [tauto|]. rewrite IH. tauto.
Qed.

Lemma odict_keys {V} (items : list (string * V)) k :
  k ∈ (odict items).*1 ↔ k ∈ items.*1.
Proof.
  unfold odict.
  assert (∀ acc : list (string * V),
            k ∈ (foldl (λ d '(k, v), odict_set k v d) acc items).*1
            ↔ k ∈ acc.*1 ∨ k ∈ items.*1) as Hgen.
  { induction items as [|[k0 v0] items IH]; intros acc; simpl.
    - rewrite elem_of_nil. tauto.
    - rewrite IH, odict_set_keys, elem_of_cons. tauto. }
  rewrite Hgen. simpl. rewrite elem_of_nil. tauto.
Qed.

Lemma min_rank_row_elem_of r g : min_rank_row r g ∈ r :: g.
Proof.
  revert r. induction g as [|r' g IH]; intros r; simpl; [by left|].
  specialize (IH (if sr_rank r' <? sr_rank r then r' else r)).
  apply elem_of_cons in IH as [->|IH].
  - destruct (sr_rank r' <? sr_rank r); [right; left|left].
  - right. by right.
Qed.

Section query_results.
Context {EntryFilterOptions : Type}.
Context (fts5_match : string → option (Doc → bool)).
Context (bm25 : string → Doc → Z).
Context (snippet : string → nat → string → string → Doc → string).
Context (apply_filter_options : EntryFilterOptions → Entry → bool).
Context (extract : string → string → string → HighlightedString).
Context (query : string) (filter_options : EntryFilterOptions).
Context (before_mark after_mark : string).

Local Abbreviation select_row' :=
  (select_row bm25 snippet query before_mark after_mark).
Local Abbreviation selected' :=
  (selected apply_filter_options filter_options).
Local Abbreviation search_rows' :=
  (search_rows bm25 snippet apply_filter_options query filter_options
     before_mark after_mark).
Local Abbreviation search_cte' :=
  (search_cte bm25 snippet apply_filter_options query filter_options
     before_mark after_mark).
Local Abbreviation make_search_entries_query' :=
  (make_search_entries_query bm25 snippet apply_filter_options query filter_options
     before_mark after_mark).

Lemma elem_of_search_rows matches d t row :
  row ∈ search_rows' matches d t ↔
  ∃ doc, selected' matches d t doc ∧ row = select_row' doc.
Proof.
  unfold search_rows, selected. rewrite list_elem_of_bind. split.
  - intros (doc & (e & Hrow & He)%list_elem_of_bind & Hdoc). exists doc.
    destruct (bool_decide_reflect (entry_key e = doc_key doc));
      simpl in Hrow; [|by apply elem_of_nil in Hrow].
    destruct (matches doc) eqn:Hm; simpl in Hrow;
      [|by apply elem_of_nil in Hrow].
    destruct (apply_filter_options filter_options e) eqn:Hf; simpl in Hrow;
      [|by apply elem_of_nil in Hrow].
    apply list_elem_of_singleton in Hrow. split_and!; [done..| |done].
    exists e. by rewrite Hf.
  - intros (doc & (Hdoc & Hm & e & He & Hkey & Hf) & ->). exists doc.
    split; [|done]. apply list_elem_of_bind. exists e. split; [|done].
    rewrite bool_decide_eq_true_2 by done.
    apply Is_true_true in Hm, Hf. rewrite Hm, Hf. by left.
Qed.

Lemma elem_of_search_cte matches d t row :
  row ∈ search_cte' matches d t ↔ row ∈ search_rows' matches d t.
Proof. unfold search_cte. by rewrite merge_sort_Permutation. Qed.

Lemma elem_of_group_rows rows t :
  t ∈ group_rows rows →
  ∃ r g,
    filter (λ r, (sr_id r, sr_feed r) = (rr_id t, rr_feed t)) rows = r :: g ∧
    t = mkResultRow (rr_id t) (rr_feed t)
          (sr_rank (min_rank_row r g)) (sr_title (min_rank_row r g))
          (sr_feed_title (min_rank_row r g))
          (sr_is_feed_user_title (min_rank_row r g))
          (sr_content <$> r :: g).
Proof.
  unfold group_rows. intros ([i f] & Ht & _)%list_elem_of_bind.
  destruct (filter _ rows) as [|r g] eqn:Hgroup; [by apply elem_of_nil in Ht|].
  apply list_elem_of_singleton in Ht as ->. simpl. by exists r, g.
Qed.

Lemma elem_of_run_query matches last limit d t row :
  row ∈ make_search_entries_query' matches last limit d t →
  row ∈ group_rows (search_cte' matches d t).
Proof.
  unfold make_search_entries_query. intros Hrow.
  assert (row ∈ merge_sort row_le
            match last with
            | Some c => filter (λ r, cursor_lt c (row_cursor r))
                          (group_rows (search_cte' matches d t))
            | None => group_rows (search_cte' matches d t)
            end) as Hsorted.
  { destruct limit; [by eapply sql_limit_elem_of|done]. }
  rewrite merge_sort_Permutation in Hsorted.
  destruct last; [by apply list_elem_of_filter in Hsorted as [_ ?]|done].
Qed.

End query_results.

(** What [value_factory] makes of a grouped row. *)
Lemma value_factory_title extract before_mark after_mark t :
  is_Some (res_metadata (value_factory extract before_mark after_mark t) !! ".title") ↔ rr_title t ≠ "".
Proof.
  unfold value_factory. simpl.
  destruct (bool_decide_reflect (rr_title t ≠ "")) as [Ht|Ht],
    (bool_decide_reflect (rr_feed_title t ≠ "")) as [Hf|Hf],
    (rr_is_feed_user_title t); simpl;
    rewrite ?lookup_insert_ne, ?lookup_insert_eq, ?lookup_empty by done;
    rewrite ?is_Some_alt; intuition congruence.
Qed.

Lemma value_factory_feed_title extract before_mark after_mark t :
  is_Some (res_metadata (value_factory extract before_mark after_mark t) !! ".feed.title") ↔
  rr_feed_title t ≠ "" ∧ rr_is_feed_user_title t = false.
Proof.
  unfold value_factory. simpl.
  destruct (bool_decide_reflect (rr_title t ≠ "")) as [Ht|Ht],
    (bool_decide_reflect (rr_feed_title t ≠ "")) as [Hf|Hf],
    (rr_is_feed_user_title t); simpl;
    rewrite ?lookup_insert_ne, ?lookup_insert_eq, ?lookup_empty by done;
    rewrite ?is_Some_alt; intuition congruence.
Qed.

Lemma value_factory_feed_user_title extract before_mark after_mark t :
  is_Some (res_metadata (value_factory extract before_mark after_mark t) !! ".feed.user_title") ↔
  rr_feed_title t ≠ "" ∧ rr_is_feed_user_title t = true.
Proof.
  unfold value_factory. simpl.
  destruct (bool_decide_reflect (rr_title t ≠ "")) as [Ht|Ht],
    (bool_decide_reflect (rr_feed_title t ≠ "")) as [Hf|Hf],
    (rr_is_feed_user_title t); simpl;
    rewrite ?lookup_insert_ne, ?lookup_insert_eq, ?lookup_empty by done;
    rewrite ?is_Some_alt; intuition congruence.
Qed.

Lemma value_factory_content extract before_mark after_mark t p :
  p ∈ (res_content (value_factory extract before_mark after_mark t)).*1 ↔
  ∃ c, c ∈ rr_content t ∧ ci_path c = Some p ∧ p ≠ "".
Proof.
  unfold value_factory. simpl. rewrite odict_keys.
  rewrite list_elem_of_fmap. split.
  - intros ([p' h] & -> & (c & Hc & Hsome)%list_elem_of_omap). exists c.
    destruct (ci_path c) as [p|]; simpl in *; [|done].
    destruct (bool_decide_reflect (p = "")); simpl in *; [done|].
    by simplify_eq.
  - intros (c & Hc & Hp & Hne).
    exists (p, extract (ci_value c) before_mark after_mark). split; [done|].
    apply list_elem_of_omap. exists c. split; [done|].
    rewrite Hp. simpl. by rewrite bool_decide_eq_false_2.
Qed.


(** ** Content paths in the index *)

Lemma new_docs_paths soup d t doc :
  doc ∈ new_docs soup d t → _content_path doc ≠ Some "".
Proof.
  intros (e & f & path & text & _ & _ & _ & Hc & ->)%elem_of_new_docs.
  simpl. by destruct Hc.
Qed.

Lemma foldr_trigger_docs {A} (trigger : A → SearchTables → SearchTables)
    (l : list A) t :
  (∀ x t, entries_search (trigger x t) = entries_search t) →
  entries_search (foldr trigger t l) = entries_search t.
Proof.
  intros Hkeeps. induction l as [|x l IH]; [done|].
  cbn [foldr]. by rewrite Hkeeps.
Qed.

Lemma write_docs w d d' t :
  search_tables d = Some t → apply_write w d = Some d' →
  ∃ t', search_tables d' = Some t' ∧ entries_search t' = entries_search t.
Proof.
  intros Ht. destruct w; simpl.
  - unfold Storage.insert_entry. destruct (bool_decide _); [done|].
    rewrite Ht. unfold entries_search_entries_insert. simpl.
    destruct (bool_decide _); [done|]. intros [= <-]. by eexists.
  - unfold Storage.update_entry. rewrite Ht. intros [= <-]. eexists.
    split; [done|]. by apply foldr_trigger_docs.
  - unfold Storage.delete_entry. rewrite Ht. intros [= <-]. eexists.
    split; [done|]. by apply foldr_trigger_docs.
  - unfold Storage.insert_feed. destruct (bool_decide _); [done|].
    intros [= <-]. by eexists.
  - unfold Storage.update_feed. rewrite Ht. intros [= <-]. eexists.
    split; [done|]. by apply foldr_trigger_docs.
  - unfold Storage.delete_feed. rewrite Ht. intros [= <-]. eexists.
    split; [done|]. by apply foldr_trigger_docs.
Qed.

Lemma enabled_reachable_paths d :
  enabled_reachable d → content_paths_nonempty d.
Proof.
  induction 1 as [d0 l s' Hnone Henable|d d' Hreach IH Hstep].
  - revert Henable.
    unfold enable, wrap_exceptions, try_operational, _enable, transaction,
      mbind, M_bind, bind, create_tables, backfill. simpl. rewrite Hnone.
    simpl. destruct (bool_decide _); [|done]. intros [= <-] t doc [= <-].
    simpl. by intros ?%elem_of_nil.
  - apply enabled_reachable_tracked in Hreach as (t & Ht & _).
    intros t' doc Ht' Hdoc.
    destruct Hstep as [w d' Hw|chunk_size bs4 fuel l s' Hrun].
    + destruct (write_docs w d d' t Ht Hw) as (t'' & Ht'' & Hsame).
      simplify_eq. rewrite Hsame in Hdoc. by eapply IH.
    + apply (update_ok_inv _ _ _ _ t) in Hrun
        as (soup & l1 & l2 & l3 & _ & _ & _ & _ & ->); [|done].
      injection Ht' as <-. rewrite reindexed_docs in Hdoc.
      apply elem_of_app in Hdoc as [Hdoc|Hdoc].
      * apply list_elem_of_filter in Hdoc as [_ Hdoc]. by eapply IH.
      * by eapply new_docs_paths.
Qed.

(** ** The mappings of a search result *)

(** C10: every result yielded by [search_entries] comes from the documents
    that the query selects for its entry.  Its metadata has the key '.title'
    exactly when the title snippet is non-empty; it has '.feed.title' exactly
    when the feed snippet is non-empty and the feed title is not the user
    override, and '.feed.user_title' exactly when the feed snippet is
    non-empty and it is the override (so never both, and neither when the
    feed snippet is empty).  The keys of its content mapping are exactly the
    non-null content paths of the entry's selected documents, so the mapping
    is empty when none of them has a content path. *)
Theorem search_result_mappings {EntryFilterOptions : Type}
    (fts5_match : string → option (Doc → bool)) (bm25 : string → Doc → Z)
    (snippet : string → nat → string → string → Doc → string)
    (apply_filter_options : EntryFilterOptions → Entry → bool)
    (extract : string → string → string → HighlightedString)
    (random_mark query : string) (filter_options : EntryFilterOptions)
    (chunk_size : option Z) (last : option Cursor) (s s' : State)
    (t : SearchTables) (results : list (EntrySearchResult * Cursor)) :
  enabled_reachable (db s) →
  search_tables (db s) = Some t →
  search_entries fts5_match bm25 snippet apply_filter_options extract
    random_mark query filter_options chunk_size last s = Ok results s' →
  ∀ r cursor, (r, cursor) ∈ results →
  let before_mark := ">>>" +:+ random_mark +:+ ">>>" in
  let after_mark := "<<<" +:+ random_mark +:+ "<<<" in
  ∃ matches best,
    fts5_match query = Some matches ∧
    selected apply_filter_options filter_options matches (db s) t best ∧
    doc_key best = (res_id r, res_feed_url r) ∧
    (is_Some (res_metadata r !! ".title") ↔
     snippet query 0%nat before_mark after_mark best ≠ "") ∧
    (is_Some (res_metadata r !! ".feed.title") ↔
     snippet query 2%nat before_mark after_mark best ≠ ""
     ∧ _is_feed_user_title best = false) ∧
    (is_Some (res_metadata r !! ".feed.user_title") ↔
     snippet query 2%nat before_mark after_mark best ≠ ""
     ∧ _is_feed_user_title best = true) ∧
    (∀ p, p ∈ (res_content r).*1 ↔
          ∃ doc, selected apply_filter_options filter_options matches (db s) t doc
                 ∧ doc_key doc = (res_id r, res_feed_url r)
                 ∧ _content_path doc = Some p) ∧
    ((∀ doc, selected apply_filter_options filter_options matches (db s) t doc →
             doc_key doc = (res_id r, res_feed_url r) →
             _content_path doc = None) →
     res_content r = []).
Proof.
  intros Hreach Ht Hrun r cursor Hr before_mark after_mark.
  apply enabled_reachable_paths in Hreach as Hpaths.
  unfold search_entries, wrap_exceptions, try_operational, paginated_query
    in Hrun.
  rewrite Ht in Hrun.
  destruct (fts5_match query) as [matches|] eqn:Hmatch.
  2:{ unfold raise in Hrun. exfalso.
      destruct (contains _ _); [done|]. by destruct (bool_decide _). }
  injection Hrun as <- <-.
  apply list_elem_of_fmap in Hr as (row & [= -> ->] & Hrow).
  fold before_mark after_mark in Hrow |- *.
  apply elem_of_run_query, elem_of_group_rows in Hrow as (r0 & g & Hgroup & Heq).
  assert (Hwhole : ∀ srow,
    srow ∈ r0 :: g ↔
    ∃ doc, selected apply_filter_options filter_options matches (db s) t doc
           ∧ doc_key doc = (rr_id row, rr_feed row)
           ∧ srow = select_row bm25 snippet query before_mark after_mark doc).
  { intros srow. rewrite <-Hgroup, list_elem_of_filter, elem_of_search_cte,
      elem_of_search_rows. split.
    - intros [Hkey (doc & Hsel & ->)]. exists doc.
      split_and!; [done|exact Hkey|done].
    - intros (doc & Hsel & Hkey & ->). split; [exact Hkey|]. by exists doc. }
  destruct (proj1 (Hwhole _) (min_rank_row_elem_of r0 g))
    as (best & Hbest & Hkey & Hbest_row).
  assert (Hcontent : ∀ p, p ∈ (res_content (value_factory extract before_mark
                                              after_mark row)).*1 ↔
    ∃ doc, selected apply_filter_options filter_options matches (db s) t doc
           ∧ doc_key doc = (rr_id row, rr_feed row)
           ∧ _content_path doc = Some p).
  { intros p. rewrite value_factory_content. rewrite Heq.
    cbn [rr_content]. split.
    - intros (c & (srow & -> & Hsrow)%list_elem_of_fmap & Hp & _).
      apply Hwhole in Hsrow as (doc & Hsel & Hk & ->). by exists doc.
    - intros (doc & Hsel & Hk & Hp).
      exists (sr_content (select_row bm25 snippet query before_mark
                            after_mark doc)).
      split_and!; [|done|].
      + apply list_elem_of_fmap_2, Hwhole. by exists doc.
      + intros ->. destruct Hsel as [Hdoc _]. by eapply Hpaths. }
  assert (rr_title row = snippet query 0%nat before_mark after_mark best
          ∧ rr_feed_title row = snippet query 2%nat before_mark after_mark best
          ∧ rr_is_feed_user_title row = _is_feed_user_title best)
    as (Htitle & Hfeed & Huser).
  { rewrite Heq. simpl. by rewrite Hbest_row. }
  exists matches, best. split; [done|]. split; [done|]. split; [done|].
  rewrite value_factory_title, value_factory_feed_title,
    value_factory_feed_user_title, Htitle, Hfeed, Huser.
  split_and!; [done..|exact Hcontent|].
  - intros Hnone.
    destruct (res_content _) as [|[p h] items] eqn:Hitems; [done|].
    exfalso.
    destruct (proj1 (Hcontent p)) as (doc & Hsel & Hk & Hp); [by left|].
    by rewrite (Hnone doc Hsel Hk) in Hp.
Qed.

Lemma indexed_reachable : enabled_reachable (db Examples.indexed).
Proof.
  apply (reachable_step (db Examples.both_dirty)).
  - apply (reachable_enable (db Examples.not_enabled) []
             Examples.both_dirty); reflexivity.
  - apply (step_update _ 256 (Some id) 2 []
             (mkState (db Examples.indexed)
                [mkLog "_delete_from_search" 0;
                 mkLog "_delete_from_sync_state" 0;
                 mkLog "_insert_into_search" 2;
                 mkLog "_clear_to_update" 1])).
    reflexivity.
Defined.

Lemma search_result_mappings_witness :
  ∃ r cursor,
    head (Examples.results_of (Examples.search None None Examples.indexed))
    = Some (r, cursor) ∧
    ∃ matches best,
      Examples.fts5_match "one" = Some matches ∧
      selected Examples.apply_filter_options () matches
        (db Examples.indexed)
        (mkTables
           [mkDoc (Some "One") (Some "summary text") (Some "Feed A") "1" "a"
              (Some ".summary") false;
            mkDoc (Some "One") (Some "content text") (Some "Feed A") "1" "a"
              (Some ".content[0].value") false]
           [mkSyncState "1" "a" false false])
        best ∧
      doc_key best = (res_id r, res_feed_url r) ∧
      (is_Some (res_metadata r !! ".title") ↔
       Examples.snippet "one" 0%nat ">>>mark>>>" "<<<mark<<<" best ≠ "") ∧
      (is_Some (res_metadata r !! ".feed.title") ↔
       Examples.snippet "one" 2%nat ">>>mark>>>" "<<<mark<<<" best ≠ ""
       ∧ _is_feed_user_title best = false) ∧
      (is_Some (res_metadata r !! ".feed.user_title") ↔
       Examples.snippet "one" 2%nat ">>>mark>>>" "<<<mark<<<" best ≠ ""
       ∧ _is_feed_user_title best = true) ∧
      (∀ p, p ∈ (res_content r).*1 ↔
            ∃ doc, selected Examples.apply_filter_options () matches
                     (db Examples.indexed)
                     (mkTables
                        [mkDoc (Some "One") (Some "summary text")
                           (Some "Feed A") "1" "a" (Some ".summary") false;
                         mkDoc (Some "One") (Some "content text")
                           (Some "Feed A") "1" "a"
                           (Some ".content[0].value") false]
                        [mkSyncState "1" "a" false false])
                     doc
                   ∧ doc_key doc = (res_id r, res_feed_url r)
                   ∧ _content_path doc = Some p) ∧
      ((∀ doc, selected Examples.apply_filter_options () matches
                 (db Examples.indexed)
                 (mkTables
                    [mkDoc (Some "One") (Some "summary text")
                       (Some "Feed A") "1" "a" (Some ".summary") false;
                     mkDoc (Some "One") (Some "content text")
                       (Some "Feed A") "1" "a"
                       (Some ".content[0].value") false]
                    [mkSyncState "1" "a" false false])
                 doc →
               doc_key doc = (res_id r, res_feed_url r) →
               _content_path doc = None) →
       res_content r = []).
Proof.
  eexists _, _. split; [reflexivity|].
  eapply (search_result_mappings Examples.fts5_match Examples.bm25
           Examples.snippet Examples.apply_filter_options Examples.extract
           "mark" "one" () None None Examples.indexed Examples.indexed _
           (Examples.results_of (Examples.search None None Examples.indexed))).
  - exact indexed_reachable.
  - reflexivity.
  - reflexivity.
  - left.
Defined.

(** ** The order of result rows *)

Lemma string_ltb_strict a b : String.ltb a b ↔ strict String.le a b.
Proof.
  unfold strict, String.le, String.ltb, String.leb.
  rewrite (String.compare_antisym a b).
  destruct (String.compare b a) eqn:Hc; simpl; intuition.
Qed.

Lemma string_ltb_irrefl a : ¬ String.ltb a a.
Proof. rewrite string_ltb_strict. apply irreflexivity, _. Qed.

Lemma string_ltb_trans a b c : String.ltb a b → String.ltb b c → String.ltb a c.
Proof. rewrite !string_ltb_strict. apply transitivity. Qed.

Lemma string_ltb_total a b : String.ltb a b ∨ a = b ∨ String.ltb b a.
Proof.
  rewrite !string_ltb_strict. destruct (decide (a = b)) as [|Hne]; [tauto|].
  destruct (total String.le a b) as [Hle|Hle].
  - left. apply strict_spec_alt. done.
  - right. right. apply strict_spec_alt. done.
Qed.

Global Instance cursor_lt_irrefl : Irreflexive cursor_lt.
Proof.
  intros [[r f] i]. unfold cursor_lt.
  pose proof (string_ltb_irrefl f). pose proof (string_ltb_irrefl i).
  intros [?|[_ [?|[_ ?]]]]; [lia|done..].
Qed.

Global Instance cursor_lt_trans : Transitive cursor_lt.
Proof.
  intros [[r1 f1] i1] [[r2 f2] i2] [[r3 f3] i3]. unfold cursor_lt.
  pose proof (string_ltb_trans f1 f2 f3). pose proof (string_ltb_trans i1 i2 i3).
  intros [?|[-> [?|[-> ?]]]] [?|[-> [?|[-> ?]]]]; auto 6; try (left; lia).
Qed.

Lemma cursor_lt_total a b : cursor_lt a b ∨ a = b ∨ cursor_lt b a.
Proof.
  destruct a as [[r1 f1] i1], b as [[r2 f2] i2]. unfold cursor_lt.
  destruct (Z.lt_trichotomy r1 r2) as [?|[->|?]]; auto.
  destruct (string_ltb_total f1 f2) as [?|[->|?]]; auto 6.
  destruct (string_ltb_total i1 i2) as [?|[->|?]]; auto 8.
Qed.

(** ** Sorting and mapping *)

Section merge_sort_fmap.
Context {A B : Type} (f : A → B) (R : relation A) (R' : relation B).
Context `{!RelDecision R, !RelDecision R'}.
Context (Hf : ∀ x y, R x y ↔ R' (f x) (f y)).

Lemma list_merge_fmap (l1 l2 : list A) :
  list_merge R' (f <$> l1) (f <$> l2) = f <$> list_merge R l1 l2.
Proof using Hf.
  revert l2. induction l1 as [|x1 l1 IH1]; intros l2.
  { by rewrite fmap_nil, !list_merge_nil_l. }
  induction l2 as [|x2 l2 IH2].
  { by rewrite fmap_nil, !list_merge_nil_r. }
  rewrite !fmap_cons, !list_merge_cons.
  destruct (decide (R x1 x2)) as [HR|HR], (decide (R' (f x1) (f x2))) as [HR'|HR'];
    try (exfalso; apply Hf in HR || apply Hf in HR'; tauto).
  - rewrite fmap_cons. f_equal. rewrite <-IH1. by rewrite fmap_cons.
  - rewrite fmap_cons. f_equal. rewrite <-IH2. by rewrite fmap_cons.
Qed.

Lemma merge_list_to_stack_fmap (st : list (option (list A))) (l : list A) :
  merge_list_to_stack R' (fmap (M:=list) (fmap (M:=option) (fmap (M:=list) f)) st) (f <$> l)
  = fmap (M:=list) (fmap (M:=option) (fmap (M:=list) f))
      (merge_list_to_stack R st l).
Proof using Hf.
  revert l. induction st as [|[l'|] st IH]; intros l; csimpl; [done| |done].
  f_equal. by rewrite list_merge_fmap, IH.
Qed.

Lemma merge_stack_fmap (st : list (option (list A))) :
  merge_stack R' (fmap (M:=list) (fmap (M:=option) (fmap (M:=list) f)) st) = f <$> merge_stack R st.
Proof using Hf.
  induction st as [|[l|] st IH]; csimpl; [done| |done].
  by rewrite IH, list_merge_fmap.
Qed.

Lemma merge_sort_aux_fmap (st : list (option (list A))) (l : list A) :
  merge_sort_aux R' (fmap (M:=list) (fmap (M:=option) (fmap (M:=list) f)) st) (f <$> l)
  = f <$> merge_sort_aux R st l.
Proof using Hf.
  revert st. induction l as [|x l IH]; intros st; csimpl.
  { apply merge_stack_fmap. }
  rewrite <-IH. f_equal.
  by rewrite <-merge_list_to_stack_fmap.
Qed.

Lemma merge_sort_fmap (l : list A) :
  merge_sort R' (f <$> l) = f <$> merge_sort R l.
Proof using Hf. apply (merge_sort_aux_fmap []). Qed.

End merge_sort_fmap.

Lemma filter_fmap {A B} (f : A → B) (P : B → Prop) `{!∀ y, Decision (P y)}
    (l : list A) :
  filter P (f <$> l) = f <$> filter (λ x, P (f x)) l.
Proof.
  induction l as [|x l IH]; [done|].
  rewrite fmap_cons, !filter_cons, IH. by destruct (decide (P (f x))).
Qed.

Lemma sql_limit_fmap {A B} (f : A → B) n (l : list A) :
  sql_limit n (f <$> l) = f <$> sql_limit n l.
Proof. unfold sql_limit. destruct (n <? 0); [done|]. by rewrite fmap_take. Qed.

Lemma NoDup_fmap_filter {A B} (f : A → B) (P : A → Prop)
    `{!∀ x, Decision (P x)} (l : list A) :
  NoDup (f <$> l) → NoDup (f <$> filter P l).
Proof.
  induction l as [|x l IH]; [done|].
  rewrite fmap_cons, filter_cons. intros [Hx Hnd]%NoDup_cons.
  destruct (decide (P x)); [|by apply IH].
  rewrite fmap_cons. apply NoDup_cons. split; [|by apply IH].
  intros (y & Heq & [_ Hy]%list_elem_of_filter)%list_elem_of_fmap.
  apply Hx. rewrite Heq. by apply list_elem_of_fmap_2.
Qed.

(** ** The rows of a query are the rows of its document groups *)

Lemma bind_fmap_out {A B C} (f : B → C) (g : A → list B) (l : list A) :
  l ≫= (λ x, f <$> g x) = f <$> (l ≫= g).
Proof.
  induction l as [|x l IH]; [done|].
  by rewrite !bind_cons, fmap_app, IH.
Qed.

Section rows_of_groups.
Context {EntryFilterOptions : Type}.
Context (bm25 : string → Doc → Z).
Context (snippet : string → nat → string → string → Doc → string).
Context (apply_filter_options : EntryFilterOptions → Entry → bool).
Context (query : string) (filter_options : EntryFilterOptions).
Context (before_mark after_mark : string).

Local Abbreviation select_row' :=
  (select_row bm25 snippet query before_mark after_mark).
Local Abbreviation group_row' :=
  (group_row bm25 snippet query before_mark after_mark).

Lemma search_rows_docs matches d t :
  search_rows bm25 snippet apply_filter_options query filter_options
    before_mark after_mark matches d t
  = select_row' <$> selected_docs apply_filter_options filter_options matches d t.
Proof.
  unfold search_rows, selected_docs. rewrite <-bind_fmap_out.
  apply list_bind_ext; [|done]. intros doc. rewrite <-bind_fmap_out.
  apply list_bind_ext; [|done]. intros e. by destruct (_ && _).
Qed.

Lemma search_cte_docs matches d t :
  search_cte bm25 snippet apply_filter_options query filter_options
    before_mark after_mark matches d t
  = select_row' <$> merge_sort (doc_rank_le bm25 query)
                      (selected_docs apply_filter_options filter_options
                         matches d t).
Proof.
  unfold search_cte. rewrite search_rows_docs.
  by apply merge_sort_fmap.
Qed.

Lemma min_rank_row_docs doc g :
  min_rank_row (select_row' doc) (select_row' <$> g)
  = select_row' (min_rank_doc bm25 query doc g).
Proof.
  revert doc. induction g as [|doc' g IH]; intros doc; [done|].
  rewrite fmap_cons. simpl. rewrite <-IH.
  by destruct (bm25 query doc' <? bm25 query doc).
Qed.

Lemma group_rows_docs l :
  group_rows (select_row' <$> l) = group_row' <$> doc_groups l.
Proof.
  unfold group_rows, doc_groups. rewrite <-bind_fmap_out.
  rewrite <-list_fmap_compose.
  apply list_bind_ext; [|done]. intros k.
  rewrite filter_fmap.
  destruct (filter _ l) as [|doc g]; [done|].
  rewrite fmap_cons, min_rank_row_docs. simpl.
  by rewrite <-list_fmap_compose.
Qed.

Lemma row_cursor_group x : row_cursor (group_row' x) = group_cursor bm25 query x.
Proof. by destruct x as [[k doc] g]. Qed.

Lemma run_query_docs matches last limit d t :
  make_search_entries_query bm25 snippet apply_filter_options query filter_options
    before_mark after_mark matches last limit d t
  = group_row' <$> doc_page bm25 apply_filter_options query filter_options
                     matches last limit d t.
Proof.
  unfold make_search_entries_query, doc_page. rewrite search_cte_docs, group_rows_docs.
  set (grouped := doc_groups _).
  assert (merge_sort row_le
            match last with
            | Some c => filter (λ r, cursor_lt c (row_cursor r))
                          (group_row' <$> grouped)
            | None => group_row' <$> grouped
            end
          = group_row' <$> merge_sort (group_le bm25 query)
              match last with
              | Some c => filter (λ x, cursor_lt c (group_cursor bm25 query x))
                            grouped
              | None => grouped
              end) as ->.
  { assert (∀ l, merge_sort row_le (group_row' <$> l)
                 = group_row' <$> merge_sort (group_le bm25 query) l) as Hsort.
    { intros l. apply merge_sort_fmap. intros x y.
      unfold row_le, group_le. by rewrite !row_cursor_group. }
    destruct last as [c|]; [|apply Hsort].
    rewrite filter_fmap, Hsort. do 2 f_equal.
    apply filter_ext_in. intros x _. by rewrite row_cursor_group. }
  destruct limit; [apply sql_limit_fmap|done].
Qed.

End rows_of_groups.

Section pages.
Context {EntryFilterOptions : Type}.
Context (fts5_match : string → option (Doc → bool)).
Context (bm25 : string → Doc → Z).
Context (snippet : string → nat → string → string → Doc → string).
Context (apply_filter_options : EntryFilterOptions → Entry → bool).
Context (extract : string → string → string → HighlightedString).
Context (query : string) (filter_options : EntryFilterOptions).

Local Abbreviation group_cursor' := (group_cursor bm25 query).
Local Abbreviation group_le' := (group_le bm25 query).
Local Abbreviation group_result' := (group_result bm25 snippet extract query).
Local Abbreviation doc_page' :=
  (doc_page bm25 apply_filter_options query filter_options).
Local Abbreviation search_entries' :=
  (search_entries fts5_match bm25 snippet apply_filter_options extract).

(** One call, read over document groups. *)
Lemma search_entries_run random_mark chunk_size last s t matches :
  search_tables (db s) = Some t →
  fts5_match query = Some matches →
  search_entries' random_mark query filter_options chunk_size last s
  = Ok (group_result' random_mark
        <$> doc_page' matches last
              match chunk_size with
              | Some n => if bool_decide (n = 0) then None else Some n
              | None => None
              end (db s) t) s.
Proof.
  intros Ht Hmatch.
  unfold search_entries, wrap_exceptions, try_operational, paginated_query.
  rewrite Ht, Hmatch, run_query_docs, <-list_fmap_compose. f_equal.
  apply list_fmap_ext. intros i x _. unfold group_result. simpl.
  by rewrite row_cursor_group.
Qed.

Lemma search_entries_ok_inv random_mark chunk_size last s s' results :
  search_entries' random_mark query filter_options chunk_size last s
  = Ok results s' →
  ∃ t matches, search_tables (db s) = Some t ∧ fts5_match query = Some matches.
Proof.
  unfold search_entries, wrap_exceptions, try_operational, paginated_query,
    raise.
  destruct (search_tables (db s)) as [t|]; [|done].
  destruct (fts5_match query) as [matches|]; [by eauto|].
  destruct (contains _ _); [done|]. by destruct (bool_decide _).
Qed.

(** The result of a group does not depend on the mark drawn. *)
Lemma content_items_mark mark mark' (l : list Doc) :
  marks_do_not_show snippet extract query →
  omap (λ c, if truthy (ci_path c)
             then Some (default "" (ci_path c),
                        extract (ci_value c) (">>>" +:+ mark +:+ ">>>")
                          ("<<<" +:+ mark +:+ "<<<"))
             else None)
    ((λ doc, mkItem (_content_path doc)
               (snippet query 1 (">>>" +:+ mark +:+ ">>>")
                  ("<<<" +:+ mark +:+ "<<<") doc)
               (bm25 query doc)) <$> l)
  = omap (λ c, if truthy (ci_path c)
               then Some (default "" (ci_path c),
                          extract (ci_value c) (">>>" +:+ mark' +:+ ">>>")
                            ("<<<" +:+ mark' +:+ "<<<"))
               else None)
      ((λ doc, mkItem (_content_path doc)
                 (snippet query 1 (">>>" +:+ mark' +:+ ">>>")
                    ("<<<" +:+ mark' +:+ "<<<") doc)
                 (bm25 query doc)) <$> l).
Proof.
  intros Hmarks. induction l as [|doc l IH]; [done|].
  rewrite !fmap_cons. csimpl. rewrite IH.
  by destruct (Hmarks mark mark' 1%nat doc) as [-> _].
Qed.

Lemma group_result_mark mark mark' x :
  marks_do_not_show snippet extract query →
  group_result' mark x = group_result' mark' x.
Proof.
  intros Hmarks. destruct x as [[k doc] g].
  unfold group_result. f_equal. unfold value_factory, group_row.
  cbn [rr_id rr_feed rr_title rr_feed_title rr_is_feed_user_title rr_content].
  set (best := min_rank_doc bm25 query doc g).
  destruct (Hmarks mark mark' 0%nat best) as [Ht0 Hti].
  destruct (Hmarks mark mark' 2%nat best) as [Hf0 Hfi].
  rewrite Ht0, Hf0, (content_items_mark mark mark') by done.
  rewrite (bool_decide_ext _ _ (not_iff_compat Hti)).
  by rewrite (bool_decide_ext _ _ (not_iff_compat Hfi)).
Qed.

(** *** Groups in cursor order *)

Local Abbreviation group_lt' := (group_lt bm25 query).

Global Instance group_le_total : Total group_le'.
Proof.
  intros x y. unfold group_le.
  destruct (cursor_lt_total (group_cursor' x) (group_cursor' y))
    as [Hlt|[Heq|Hlt]].
  - left. intros Hgt. by apply (irreflexivity cursor_lt (group_cursor' x)); etrans.
  - left. rewrite Heq. apply irreflexivity, _.
  - right. intros Hgt. by apply (irreflexivity cursor_lt (group_cursor' x)); etrans.
Qed.

Global Instance group_le_trans : Transitive group_le'.
Proof.
  intros x y z. unfold group_le. intros Hxy Hyz Hzx.
  destruct (cursor_lt_total (group_cursor' y) (group_cursor' z))
    as [Hlt|[Heq|Hlt]]; [|congruence|done].
  apply Hxy. by etrans.
Qed.

Lemma doc_groups_key l x :
  x ∈ doc_groups l → x.1.1 ∈ remove_dups (doc_key <$> l).
Proof.
  unfold doc_groups. intros (k & Hx & Hk)%list_elem_of_bind.
  destruct (filter _ l); [by apply elem_of_nil in Hx|].
  by apply list_elem_of_singleton in Hx as ->.
Qed.

Lemma group_cursor_key x y :
  group_cursor' x = group_cursor' y → x.1.1 = y.1.1.
Proof.
  destruct x as [[[i f] ?] ?], y as [[[i' f'] ?] ?]. simpl. congruence.
Qed.

Lemma doc_groups_NoDup l : NoDup (group_cursor' <$> doc_groups l).
Proof.
  unfold doc_groups.
  pose proof (NoDup_remove_dups (doc_key <$> l)) as Hkeys.
  induction Hkeys as [|k ks Hk _ IH]; [constructor|].
  rewrite bind_cons, fmap_app. apply NoDup_app. split_and!; [| |done].
  - destruct (filter _ l); repeat constructor. apply not_elem_of_nil.
  - intros c Hc (y & -> & (k' & Hy & Hk')%list_elem_of_bind)%list_elem_of_fmap.
    apply list_elem_of_fmap in Hc as (x & Heq & Hx).
    apply group_cursor_key in Heq.
    destruct (filter (λ doc, doc_key doc = k) l); [by apply elem_of_nil in Hx|].
    apply list_elem_of_singleton in Hx as ->.
    destruct (filter (λ doc, doc_key doc = k') l); [by apply elem_of_nil in Hy|].
    apply list_elem_of_singleton in Hy as ->. simpl in Heq. by subst.
Qed.

Lemma group_sorted_strict l :
  NoDup (group_cursor' <$> l) →
  StronglySorted group_lt' (merge_sort group_le' l).
Proof.
  intros Hnd.
  pose proof (StronglySorted_merge_sort group_le' l) as Hsorted.
  assert (NoDup (group_cursor' <$> merge_sort group_le' l)) as Hnd'.
  { by rewrite merge_sort_Permutation. }
  induction Hsorted as [|x l' _ IH Hall]; [constructor|].
  rewrite fmap_cons in Hnd'. apply NoDup_cons in Hnd' as [Hx Hnd'].
  constructor; [by apply IH|].
  apply Forall_forall. intros y Hy.
  eapply Forall_forall in Hall; [|exact Hy]. unfold group_le, group_lt in *.
  destruct (cursor_lt_total (group_cursor' x) (group_cursor' y))
    as [Hlt|[Heq|Hlt]]; [done| |done].
  exfalso. apply Hx. rewrite Heq. by apply list_elem_of_fmap_2.
Qed.

(** The rows after the last row of a page are the rest of the sorted rows. *)
Lemma group_sorted_after l n x :
  NoDup (group_cursor' <$> l) →
  last (take n (merge_sort group_le' l)) = Some x →
  merge_sort group_le'
    (filter (λ y, cursor_lt (group_cursor' x) (group_cursor' y)) l)
  = drop n (merge_sort group_le' l).
Proof.
  intros Hnd Hlast.
  pose proof (group_sorted_strict l Hnd) as Hsorted.
  assert (NoDup (merge_sort group_le' l)) as Hnd'.
  { rewrite merge_sort_Permutation. by eapply NoDup_fmap_1. }
  set (sorted := merge_sort group_le' l) in *.
  rewrite <-(take_drop n sorted) in Hsorted, Hnd'.
  apply last_Some in Hlast as [before Htake]. rewrite Htake in Hsorted, Hnd'.
  apply StronglySorted_app in Hsorted as (Hcross & Hbefore & Hafter).
  apply NoDup_app in Hnd' as (_ & Hdisjoint & Hnd_after).
  assert (Helem : ∀ y, y ∈ drop n sorted ↔
                       y ∈ l ∧ cursor_lt (group_cursor' x) (group_cursor' y)).
  { intros y. split.
    - intros Hy. split.
      + rewrite <-(merge_sort_Permutation group_le' l).
        fold sorted. rewrite <-(take_drop n sorted). apply elem_of_app. by right.
      + apply Hcross; [|done]. apply elem_of_app. right. by left.
    - intros [Hy Hgt].
      rewrite <-(merge_sort_Permutation group_le' l) in Hy. fold sorted in Hy.
      rewrite <-(take_drop n sorted), Htake in Hy.
      apply elem_of_app in Hy as [Hy|Hy]; [|done]. exfalso.
      apply elem_of_app in Hy as [Hy| ->%list_elem_of_singleton].
      + apply StronglySorted_app in Hbefore as (Hlt & _ & _).
        apply (irreflexivity cursor_lt (group_cursor' x)). etrans; [exact Hgt|].
        apply Hlt; [done|by left].
      + by apply (irreflexivity cursor_lt (group_cursor' x)). }
  apply (StronglySorted_unique_strong group_lt').
  - intros y z _ _ Hyz Hzy. exfalso.
    apply (irreflexivity cursor_lt (group_cursor' y)). by etrans.
  - apply group_sorted_strict.
    by apply NoDup_fmap_filter.
  - done.
  - apply NoDup_Permutation; [| done |].
    + rewrite merge_sort_Permutation. apply NoDup_filter. by eapply NoDup_fmap_1.
    + intros y. rewrite merge_sort_Permutation, list_elem_of_filter, Helem. tauto.
Qed.

Lemma doc_groups_keys_NoDup l : NoDup ((λ x : DocGroup, x.1.1) <$> doc_groups l).
Proof.
  unfold doc_groups.
  pose proof (NoDup_remove_dups (doc_key <$> l)) as Hkeys.
  induction Hkeys as [|k ks Hk _ IH]; [constructor|].
  rewrite bind_cons, fmap_app. apply NoDup_app. split_and!; [| |done].
  - destruct (filter _ l); repeat constructor. apply not_elem_of_nil.
  - intros k0 Hc (y & -> & (k' & Hy & Hk')%list_elem_of_bind)%list_elem_of_fmap.
    apply list_elem_of_fmap in Hc as (x & Heq & Hx).
    destruct (filter (λ doc, doc_key doc = k) l); [by apply elem_of_nil in Hx|].
    apply list_elem_of_singleton in Hx as ->.
    destruct (filter (λ doc, doc_key doc = k') l); [by apply elem_of_nil in Hy|].
    apply list_elem_of_singleton in Hy as ->. simpl in Heq. by subst.
Qed.

(** *** Page after page *)

Lemma doc_page_limit matches last n d t :
  doc_page' matches last (Some n) d t
  = sql_limit n (doc_page' matches last None d t).
Proof. done. Qed.

Lemma doc_page_elem_of matches last d t x :
  x ∈ doc_page' matches last None d t →
  match last with
  | Some c => cursor_lt c (group_cursor' x)
  | None => True
  end.
Proof.
  unfold doc_page. rewrite merge_sort_Permutation.
  destruct last; [|done]. by intros [? _]%list_elem_of_filter.
Qed.

Lemma doc_page_next matches last n x d t :
  list.last (take n (doc_page' matches last None d t)) = Some x →
  doc_page' matches (Some (group_cursor' x)) None d t
  = drop n (doc_page' matches last None d t).
Proof.
  intros Hlast.
  assert (x ∈ doc_page' matches last None d t) as Hx.
  { apply last_Some in Hlast as [before Htake].
    rewrite <-(take_drop n (doc_page' matches last None d t)), Htake.
    apply elem_of_app. left. apply elem_of_app. right. by left. }
  apply doc_page_elem_of in Hx. revert Hlast. unfold doc_page.
  set (grouped := doc_groups _).
  pose proof (doc_groups_NoDup
                (merge_sort (doc_rank_le bm25 query)
                   (selected_docs apply_filter_options filter_options
                      matches d t))) as Hnd.
  fold grouped in Hnd.
  destruct last as [c|]; intros Hlast.
  - rewrite <-(group_sorted_after _ n x); [|by apply NoDup_fmap_filter|done].
    f_equal. rewrite list_filter_filter. apply filter_ext_in.
    intros y _. split; [|tauto]. intros Hy. split; [done|]. by etrans.
  - by rewrite <-(group_sorted_after _ n x).
Qed.

Lemma search_entries_pages_run random_mark chunk_size s t matches fuel :
  marks_do_not_show snippet extract query →
  search_tables (db s) = Some t →
  fts5_match query = Some matches →
  1 ≤ chunk_size →
  ∀ random_marks last,
  (length (doc_page' matches last None (db s) t) < fuel)%nat →
  search_entries_pages fts5_match bm25 snippet apply_filter_options extract
    fuel random_marks query filter_options chunk_size last s
  = Ok ((λ x, (group_result' random_mark x).1)
        <$> doc_page' matches last None (db s) t) s.
Proof.
  intros Hmarks Ht Hmatch Hc.
  induction fuel as [|fuel IH]; intros random_marks last Hfuel; [lia|].
  cbn [search_entries_pages]. unfold mbind, M_bind, bind.
  rewrite (search_entries_run _ _ _ _ t matches) by done.
  rewrite bool_decide_eq_false_2 by lia.
  rewrite doc_page_limit. unfold sql_limit.
  destruct (Z.ltb_spec chunk_size 0) as [|_]; [lia|].
  set (rows := doc_page' matches last None (db s) t) in *.
  set (n := Z.to_nat chunk_size).
  rewrite fmap_last.
  destruct (list.last (take n rows)) as [x|] eqn:Hlast; simpl.
  - rewrite IH.
    + unfold mret, M_ret, ret. f_equal.
      rewrite (doc_page_next _ _ n x) by done. fold rows.
      rewrite <-(take_drop n rows) at 3. rewrite fmap_app. f_equal.
      rewrite <-list_fmap_compose. apply list_fmap_ext. intros i y _.
      unfold compose.
      by rewrite (group_result_mark (random_marks 0%nat) random_mark).
    + rewrite (doc_page_next _ _ n x) by done. fold rows.
      rewrite length_drop.
      assert (rows ≠ []) by (by intros Hnil; rewrite Hnil, take_nil in Hlast).
      destruct rows; [done|]. simpl in *. lia.
  - apply last_None in Hlast.
    assert (rows = []) as ->.
    { destruct rows; [done|]. destruct n eqn:Hn; [lia|done]. }
    done.
Qed.

End pages.



(** ** The schema lifecycle *)



(** X2: on a database without the search tables, whose entries have distinct
    keys, [enable()] followed by [disable()] gives back the database as it
    was. *)
Theorem enable_then_disable s :
  search_tables (db s) = None →
  NoDup (entry_key <$> entries (db s)) →
  ∃ s', enable s = Ok () s' ∧ disable s' = Ok () s.
Proof.
  intros Hnone Hkeys.
  unfold enable, wrap_exceptions, try_operational, _enable, transaction,
    mbind, M_bind, bind, create_tables, backfill.
  rewrite Hnone. simpl.
  rewrite bool_decide_eq_true_2 by by rewrite <-list_fmap_compose.
  eexists. split; [done|]. unfold disable, wrap_exceptions, transaction.
  simpl. destruct s as [[es fs st] lg]. simpl in *. by subst.
Qed.

Lemma enable_then_disable_witness :
  ∃ s', enable Examples.not_enabled = Ok () s'
        ∧ disable s' = Ok () Examples.not_enabled.
Proof.
  apply (enable_then_disable Examples.not_enabled).
  - reflexivity.
  - vm_compute. repeat constructor. apply not_elem_of_nil.
Defined.

(** X3: [disable()] returns on every database, with or without the search
    tables, and leaves the primary store as it is; afterwards
    [is_enabled()] returns [False], [update()] raises
    [SearchNotEnabledError], and a second [disable()] changes nothing. *)
Theorem disable_always_returns s :
  ∃ s',
    disable s = Ok () s' ∧
    entries (db s') = entries (db s) ∧
    feeds (db s') = feeds (db s) ∧
    log s' = log s ∧
    is_enabled s' = Ok false s' ∧
    disable s' = Ok () s' ∧
    ∀ chunk_size soup fuel,
      update chunk_size (Some soup) (S fuel) s' = Raise SearchNotEnabledError s'.
Proof.
  eexists. split; [reflexivity|]. simpl. split_and!; try done.
  intros. by apply update_not_enabled.
Qed.



(** ** What a reindexing pass leaves, and what it leaves alone *)

(** X5: after [update()] returns nothing is pending: no sync-state row is
    marked [to_update] or [to_delete]; the rows left are those of the keys
    that had a row and no row marked [to_delete]. *)
Theorem update_leaves_nothing_pending chunk_size soup fuel s t :
  0 ≤ chunk_size →
  search_tables (db s) = Some t →
  (length (entries_search t) < fuel)%nat →
  (length (entries_search_sync_state t) < fuel)%nat →
  ∃ s' t',
    update chunk_size (Some soup) fuel s = Ok () s' ∧
    search_tables (db s') = Some t' ∧
    clean (entries_search_sync_state t') ∧
    ∀ k, k ∈ sync_key <$> entries_search_sync_state t' ↔
         k ∈ sync_key <$> entries_search_sync_state t
         ∧ ¬ tombstone (entries_search_sync_state t) k.
Proof.
  intros Hc Ht Hdocs Hrows.
  destruct (update_run chunk_size soup fuel s t Hc Ht Hdocs Hrows) as [l Hl].
  eexists _, _. split; [exact Hl|]. split; [done|]. split.
  - apply reindexed_clean.
  - intros k. rewrite reindexed_keys. apply live_rows_keys.
Qed.

Lemma update_leaves_nothing_pending_witness :
  ∃ s' t',
    update 1 (Some id) 3 Examples.one_deleted = Ok () s' ∧
    search_tables (db s') = Some t' ∧
    clean (entries_search_sync_state t') ∧
    ∀ k, k ∈ sync_key <$> entries_search_sync_state t' ↔
         k ∈ sync_key <$> entries_search_sync_state Cases.one_deleted_tables
         ∧ ¬ tombstone (entries_search_sync_state Cases.one_deleted_tables) k.
Proof.
  apply (update_leaves_nothing_pending 1 id 3 Examples.one_deleted
           Cases.one_deleted_tables).
  - lia.
  - reflexivity.
  - simpl. lia.
  - simpl. lia.
Defined.

(** X6: [update()] leaves alone the documents of the keys that are not
    marked: the documents whose key has no sync-state row marked [to_update]
    or [to_delete] are the same before and after, in the same order. *)
Theorem update_keeps_unmarked_documents chunk_size soup fuel s t :
  0 ≤ chunk_size →
  search_tables (db s) = Some t →
  (length (entries_search t) < fuel)%nat →
  (length (entries_search_sync_state t) < fuel)%nat →
  ∃ s' t',
    update chunk_size (Some soup) fuel s = Ok () s' ∧
    search_tables (db s') = Some t' ∧
    filter (λ doc, ¬ stale (entries_search_sync_state t) (doc_key doc))
      (entries_search t')
    = filter (λ doc, ¬ stale (entries_search_sync_state t) (doc_key doc))
        (entries_search t).
Proof.
  intros Hc Ht Hdocs Hrows.
  destruct (update_run chunk_size soup fuel s t Hc Ht Hdocs Hrows) as [l Hl].
  eexists _, _. split; [exact Hl|]. split; [done|].
  rewrite reindexed_docs, filter_app.
  assert (filter (λ doc, ¬ stale (entries_search_sync_state t) (doc_key doc))
            (new_docs soup (db s) (after_deletes t)) = []) as ->.
  { apply elem_of_nil_inv. intros doc [Hfresh Hdoc]%list_elem_of_filter.
    apply elem_of_new_docs in Hdoc
      as (e & f & path & text & He & _ & _ & _ & ->).
    apply elem_of_entries_to_update in He as (_ & r & Hr & Hkey & Hup).
    apply Hfresh. simpl in Hr. apply list_elem_of_filter in Hr as [_ Hr].
    change (doc_key (index_doc soup e f path text)) with (entry_key e).
    rewrite <-Hkey. by apply stale_intro. }
  rewrite app_nil_r. unfold fresh_docs.
  apply filter_all. by intros doc [? _]%list_elem_of_filter.
Qed.

Lemma update_keeps_unmarked_documents_witness :
  ∃ s' t',
    update 1 (Some id) 3 Examples.one_deleted = Ok () s' ∧
    search_tables (db s') = Some t' ∧
    filter (λ doc, ¬ stale (entries_search_sync_state
                              Cases.one_deleted_tables) (doc_key doc))
      (entries_search t')
    = filter (λ doc, ¬ stale (entries_search_sync_state
                                Cases.one_deleted_tables) (doc_key doc))
        (entries_search Cases.one_deleted_tables).
Proof.
  apply (update_keeps_unmarked_documents 1 id 3 Examples.one_deleted
           Cases.one_deleted_tables).
  - lia.
  - reflexivity.
  - simpl. lia.
  - simpl. lia.
Defined.

(** X7: the database that [update()] leaves does not depend on the chunk
    size: with any two chunk sizes from 0 up, both calls return and leave
    the same database (they differ in what they log). *)
Theorem update_any_chunk_size c1 c2 soup fuel s t :
  0 ≤ c1 → 0 ≤ c2 →
  search_tables (db s) = Some t →
  (length (entries_search t) < fuel)%nat →
  (length (entries_search_sync_state t) < fuel)%nat →
  ∃ s1 s2,
    update c1 (Some soup) fuel s = Ok () s1 ∧
    update c2 (Some soup) fuel s = Ok () s2 ∧
    db s1 = db s2.
Proof.
  intros Hc1 Hc2 Ht Hdocs Hrows.
  destruct (update_run c1 soup fuel s t Hc1 Ht Hdocs Hrows) as [l1 H1].
  destruct (update_run c2 soup fuel s t Hc2 Ht Hdocs Hrows) as [l2 H2].
  by eexists _, _.
Qed.

Lemma update_any_chunk_size_witness :
  ∃ s1 s2,
    update 2 (Some id) 3 Examples.one_deleted = Ok () s1 ∧
    update 256 (Some id) 3 Examples.one_deleted = Ok () s2 ∧
    db s1 = db s2.
Proof.
  apply (update_any_chunk_size 2 256 id 3 Examples.one_deleted
           Cases.one_deleted_tables).
  - lia.
  - lia.
  - reflexivity.
  - simpl. lia.
  - simpl. lia.
Defined.

(** ** A negative chunk size *)

Lemma _delete_from_search_loop_no_raise chunk_size fuel : ∀ s t,
  search_tables (db s) = Some t →
  (∃ s1, _delete_from_search_loop chunk_size fuel s = Ok () s1)
  ∨ _delete_from_search_loop chunk_size fuel s = OutOfFuel.
Proof.
  induction fuel as [|fuel IH]; intros s t Ht; [by right|].
  simpl. unfold mbind, M_bind, bind.
  rewrite (_delete_from_search_chunk_run chunk_size s t Ht).
  destruct (_ && _); [|left; by eexists].
  eapply IH, state_after_tables.
Qed.

Lemma _delete_from_sync_state_negative chunk_size fuel : ∀ s t,
  chunk_size < 0 →
  search_tables (db s) = Some t →
  _delete_from_sync_state chunk_size fuel s = OutOfFuel.
Proof.
  induction fuel as [|fuel IH]; intros s t Hc Ht; [done|].
  cbn [_delete_from_sync_state].
  unfold mbind, M_bind, bind, transaction, execute, debug. rewrite Ht.
  rewrite !bool_decide_eq_false_2 by lia.
  pose proof (delete_tombstones_rowcount_nonneg chunk_size t) as Hnonneg.
  destruct (delete_tombstones chunk_size t) as [rowcount t']. simpl in *.
  destruct (Z.ltb_spec rowcount chunk_size) as [Hlt|Hge]; [lia|].
  by eapply IH.
Qed.

(** X8: with a negative chunk size, [update()] never returns on a database
    that has the search tables: the loop of [_delete_from_sync_state] stops
    only when the statement's row count is below the chunk size, and a row
    count is never negative.  However many iterations are allowed, the call
    is still running. *)
Theorem update_negative_chunk_size chunk_size soup fuel s t :
  chunk_size < 0 →
  search_tables (db s) = Some t →
  update chunk_size (Some soup) fuel s = OutOfFuel.
Proof.
  intros Hc Ht.
  assert (_update chunk_size (Some soup) fuel s = OutOfFuel) as Hrun.
  { unfold _update, mbind, M_bind, bind.
    assert (_delete_from_search chunk_size fuel s
            = _delete_from_search_loop chunk_size fuel s) as Hloop.
    { unfold _delete_from_search. by rewrite bool_decide_eq_false_2 by lia. }
    destruct (_delete_from_search_loop_no_raise chunk_size fuel s t Ht)
      as [[s1 H1]|H1]; rewrite Hloop, H1; [|done].
    rewrite <-Hloop in H1.
    apply (_delete_from_search_ok _ _ _ t) in H1 as [l ->]; [|done].
    by rewrite (_delete_from_sync_state_negative chunk_size fuel _ _ Hc
                  (state_after_tables _ _ _)). }
  unfold update, wrap_exceptions, try_operational. by rewrite Hrun.
Qed.

Lemma update_negative_chunk_size_witness :
  update (-1) (Some id) 1000 Examples.one_deleted = OutOfFuel.
Proof.
  apply (update_negative_chunk_size (-1) id 1000 Examples.one_deleted
           Cases.one_deleted_tables).
  - lia.
  - reflexivity.
Defined.

(** ** Documents and their sync-state rows through a pass *)

(** X9: [update()] leaves no document without a sync-state row: when every
    document of the index has the key of a sync-state row before the call,
    so it is after. *)
Theorem update_keeps_documents_tracked chunk_size soup fuel s t :
  0 ≤ chunk_size →
  search_tables (db s) = Some t →
  (length (entries_search t) < fuel)%nat →
  (length (entries_search_sync_state t) < fuel)%nat →
  documents_tracked t →
  ∃ s' t',
    update chunk_size (Some soup) fuel s = Ok () s' ∧
    search_tables (db s') = Some t' ∧
    documents_tracked t'.
Proof.
  intros Hc Ht Hdocs Hrows Htracked.
  destruct (update_run chunk_size soup fuel s t Hc Ht Hdocs Hrows) as [l Hl].
  eexists _, _. split; [exact Hl|]. split; [done|].
  intros doc. rewrite reindexed_docs, reindexed_keys.
  intros [Hdoc|Hdoc]%elem_of_app.
  - apply live_rows_keys. pose proof (fresh_docs_not_stale _ _ Hdoc) as Hfresh.
    apply list_elem_of_filter in Hdoc as [_ Hdoc]. split; [by apply Htracked|].
    intros Htomb. by apply Hfresh, tombstone_stale.
  - apply (new_docs_keys soup (db s) (after_deletes t)).
    by apply list_elem_of_fmap_2.
Qed.

Lemma update_keeps_documents_tracked_witness :
  ∃ s' t',
    update 1 (Some id) 3 Examples.one_deleted = Ok () s' ∧
    search_tables (db s') = Some t' ∧
    documents_tracked t'.
Proof.
  apply (update_keeps_documents_tracked 1 id 3 Examples.one_deleted
           Cases.one_deleted_tables).
  - lia.
  - reflexivity.
  - simpl. lia.
  - simpl. lia.
  - intros doc ->%list_elem_of_singleton. vm_compute. right. left.
Defined.

(** X10: a key marked [to_update] whose entry is no longer in the primary
    store, or whose feed has no row, has no document after [update()]: its
    old documents are deleted and none is inserted. *)
Theorem update_skips_missing_entry_or_feed chunk_size soup fuel s t r :
  0 ≤ chunk_size →
  search_tables (db s) = Some t →
  (length (entries_search t) < fuel)%nat →
  (length (entries_search_sync_state t) < fuel)%nat →
  r ∈ entries_search_sync_state t →
  to_update r →
  (sync_key r ∉ entry_key <$> entries (db s))
  ∨ (ss_feed r ∉ f_url <$> feeds (db s)) →
  ∃ s' t',
    update chunk_size (Some soup) fuel s = Ok () s' ∧
    search_tables (db s') = Some t' ∧
    (sync_key r ∉ doc_key <$> entries_search t').
Proof.
  intros Hc Ht Hdocs Hrows Hr Hup Hmissing.
  destruct (update_run chunk_size soup fuel s t Hc Ht Hdocs Hrows) as [l Hl].
  eexists _, _. split; [exact Hl|]. split; [done|].
  rewrite reindexed_docs, fmap_app. intros [Hk|Hk]%elem_of_app.
  - revert Hk. by apply fresh_docs_drop_stale, stale_intro.
  - apply list_elem_of_fmap in Hk as (doc & Hkey & Hdoc).
    apply elem_of_new_docs in Hdoc
      as (e & f & path & text & He & Hf & Hurl & _ & ->).
    apply elem_of_entries_to_update in He as (He & _).
    change (doc_key (index_doc soup e f path text)) with (entry_key e) in Hkey.
    destruct Hmissing as [Hno|Hno]; apply Hno.
    + rewrite Hkey. by apply list_elem_of_fmap_2.
    + assert (ss_feed r = f_url f) as ->.
      { rewrite Hurl. by injection Hkey. }
      by apply list_elem_of_fmap_2.
Qed.

Lemma update_skips_missing_entry_or_feed_witness :
  ∃ s' t',
    update 1 (Some id) 3 Cases.entry_gone = Ok () s' ∧
    search_tables (db s') = Some t' ∧
    (("3", "a") ∉ doc_key <$> entries_search t').
Proof.
  apply (update_skips_missing_entry_or_feed 1 id 3 Cases.entry_gone
           Cases.entry_gone_tables (mkSyncState "3" "a" true false)).
  - lia.
  - reflexivity.
  - simpl. lia.
  - simpl. lia.
  - vm_compute. left.
  - exact I.
  - left. vm_compute. apply not_elem_of_nil.
Defined.

(** ** Content paths tell the content texts of an entry apart *)

Lemma string_length_app (a b : string) :
  String.length (a +:+ b) = (String.length a + String.length b)%nat.
Proof. induction a as [|c a IH]; simpl; [done|]. by rewrite IH. Qed.

Lemma string_app_inv_tail (a b s : string) : a +:+ s = b +:+ s → a = b.
Proof.
  revert b. induction a as [|c a IH]; intros [|c' b] Heq.
  - done.
  - apply (f_equal String.length) in Heq.
    rewrite !string_length_app in Heq. simpl in Heq. lia.
  - apply (f_equal String.length) in Heq.
    rewrite !string_length_app in Heq. simpl in Heq. lia.
  - injection Heq as -> Heq. f_equal. by apply IH.
Qed.

Lemma str_of_nat_inj n m : str_of_nat n = str_of_nat m → n = m.
Proof.
  unfold str_of_nat. intros Heq.
  assert (∀ k, Nat.to_uint k ≠ Decimal.Nil) as Hnonnil.
  { intros k. rewrite <-(DecimalNat.Unsigned.of_to k) at 1.
    rewrite DecimalNat.Unsigned.to_of. apply DecimalFacts.unorm_nonnil. }
  apply (f_equal NilZero.uint_of_string) in Heq.
  rewrite !NilZero.usu in Heq by apply Hnonnil.
  injection Heq as Heq. by apply DecimalNat.Unsigned.to_uint_inj.
Qed.

Lemma content_path_inj i j : content_path i = content_path j → i = j.
Proof.
  unfold content_path. intros Heq.
  apply (inj (String.app ".content[")) in Heq.
  by apply string_app_inv_tail, str_of_nat_inj in Heq.
Qed.

Lemma content_path_not_summary i : content_path i ≠ ".summary".
Proof. unfold content_path. simpl. discriminate. Qed.

(** For one entry, the content path determines the content text. *)
Lemma indexed_content_path soup e path text text' :
  indexed_content soup e path text → indexed_content soup e path text' →
  text = text'.
Proof.
  intros H1 H2. inversion H1 as [?|l i c Hl Hi ? Hpath|]; subst;
    inversion H2 as [?|l' i' c' Hl' Hi' ? Hpath'|]; subst; try done.
  change (str_of_nat i' +:+ "].value" = str_of_nat i +:+ "].value") in Hpath'.
  apply string_app_inv_tail, str_of_nat_inj in Hpath' as ->. congruence.
Qed.

Lemma new_docs_unique soup d t :
  NoDup (entry_key <$> entries d) →
  NoDup (f_url <$> feeds d) →
  NoDup ((λ doc, (doc_key doc, _content_path doc)) <$> new_docs soup d t).
Proof.
  intros Hentries Hfeeds.
  assert (∀ doc doc', doc ∈ new_docs soup d t → doc' ∈ new_docs soup d t →
            doc_key doc = doc_key doc' →
            _content_path doc = _content_path doc' → doc = doc') as Hinj.
  { intros doc doc'
      (e & f & path & text & He & Hf & Hurl & Hc & ->)%elem_of_new_docs
      (e' & f' & path' & text' & He' & Hf' & Hurl' & Hc' & ->)%elem_of_new_docs
      Hkey Hpath.
    apply elem_of_entries_to_update in He as [He _], He' as [He' _].
    change (entry_key e = entry_key e') in Hkey.
    change (path = path') in Hpath. subst path'.
    pose proof (NoDup_fmap_elem_inj _ _ _ _ Hentries He He' Hkey) as <-.
    assert (f = f') as <-.
    { apply (NoDup_fmap_elem_inj _ _ _ _ Hfeeds Hf Hf'). congruence. }
    by rewrite (indexed_content_path _ _ _ _ _ Hc Hc'). }
  apply NoDup_fmap_2_strong.
  { intros doc doc' Hdoc Hdoc' [= Hid Hfeed Hpath].
    apply Hinj; [done|done|unfold doc_key; congruence|congruence]. }
  unfold new_docs. apply NoDup_bind.
  - intros [[[[i1 f1] p1] t1] x1] [[[[i2 f2] p2] t2] x2] doc _ _
      (g1 & Hd1 & _)%list_elem_of_bind (g2 & Hd2 & _)%list_elem_of_bind.
    destruct (bool_decide (f_url g1 = f1)); [|by apply elem_of_nil in Hd1].
    destruct (bool_decide (f_url g2 = f2)); [|by apply elem_of_nil in Hd2].
    apply list_elem_of_singleton in Hd1, Hd2. congruence.
  - intros [[[[i1 f1] p1] t1] x1] _.
    induction (feeds d) as [|g gs IH]; [constructor|].
    rewrite fmap_cons in Hfeeds. apply NoDup_cons in Hfeeds as [Hg Hgs].
    simpl. destruct (bool_decide_reflect (f_url g = f1)) as [Heq|Hne]; simpl.
    + apply NoDup_cons. split; [|by apply IH].
      intros (g' & Hd & Hg')%list_elem_of_bind.
      destruct (bool_decide_reflect (f_url g' = f1)) as [Heq'|];
        [|by apply elem_of_nil in Hd].
      apply Hg. rewrite Heq, <-Heq'. by apply list_elem_of_fmap_2.
    + by apply IH.
  - unfold union_all, sql_union. apply NoDup_remove_dups.
Qed.

(** X11: [update()] never indexes the same content of an entry twice: when
    the keys of the entries and the urls of the feeds are unique (they are
    primary keys) and no two documents of the index have the same key and
    content path before the call, none have after it. *)
Theorem update_keeps_documents_unique chunk_size soup fuel s t :
  0 ≤ chunk_size →
  search_tables (db s) = Some t →
  (length (entries_search t) < fuel)%nat →
  (length (entries_search_sync_state t) < fuel)%nat →
  NoDup (entry_key <$> entries (db s)) →
  NoDup (f_url <$> feeds (db s)) →
  documents_unique t →
  ∃ s' t',
    update chunk_size (Some soup) fuel s = Ok () s' ∧
    search_tables (db s') = Some t' ∧
    documents_unique t'.
Proof.
  intros Hc Ht Hdocs Hrows Hentries Hfeeds Hunique.
  destruct (update_run chunk_size soup fuel s t Hc Ht Hdocs Hrows) as [l Hl].
  eexists _, _. split; [exact Hl|]. split; [done|].
  unfold documents_unique. rewrite reindexed_docs, fmap_app.
  apply NoDup_app. split_and!.
  - unfold fresh_docs. by apply NoDup_fmap_filter.
  - intros [k path] (doc & Heq & Hdoc)%list_elem_of_fmap
      (doc' & Heq' & Hdoc')%list_elem_of_fmap.
    assert (doc_key doc = doc_key doc') as Hkey by congruence.
    apply fresh_docs_not_stale in Hdoc. apply Hdoc.
    apply elem_of_new_docs in Hdoc'
      as (e & f & path' & text & He & _ & _ & _ & ->).
    apply elem_of_entries_to_update in He as (_ & r & Hr & Hr' & Hup).
    simpl in Hr. apply list_elem_of_filter in Hr as [_ Hr].
    rewrite Hkey.
    change (doc_key (index_doc soup e f path' text)) with (entry_key e).
    rewrite <-Hr'. by apply stale_intro.
  - by apply new_docs_unique.
Qed.

Lemma update_keeps_documents_unique_witness :
  ∃ s' t',
    update 1 (Some id) 3 Examples.one_deleted = Ok () s' ∧
    search_tables (db s') = Some t' ∧
    documents_unique t'.
Proof.
  apply (update_keeps_documents_unique 1 id 3 Examples.one_deleted
           Cases.one_deleted_tables).
  - lia.
  - reflexivity.
  - simpl. lia.
  - simpl. lia.
  - vm_compute. repeat constructor. apply not_elem_of_nil.
  - vm_compute. repeat constructor. apply not_elem_of_nil.
  - vm_compute. repeat constructor. apply not_elem_of_nil.
Defined.

(** ** Indexing from scratch, and after a feed changed *)



(** X13: after the feeds update trigger has fired for a feed, [update()]
    brings the feed text of the index up to date: when every document has a
    sync-state row and the feed has one row, every document of the feed
    then carries the stripped user title of that row if it has one, else
    its title, with [_is_feed_user_title] telling which. *)
Theorem update_after_feed_update chunk_size soup fuel s t f :
  0 ≤ chunk_size →
  search_tables (db s) = Some (entries_search_feeds_update f t) →
  (length (entries_search t) < fuel)%nat →
  (length (entries_search_sync_state t) < fuel)%nat →
  (∀ f', f' ∈ feeds (db s) → f_url f' = f_url f → f' = f) →
  documents_tracked t →
  ∃ s' t',
    update chunk_size (Some soup) fuel s = Ok () s' ∧
    search_tables (db s') = Some t' ∧
    ∀ doc, doc ∈ entries_search t' → _feed doc = f_url f →
           feed doc
           = strip_html soup (from_option Some (f_title f) (f_user_title f))
           ∧ _is_feed_user_title doc = bool_decide (is_Some (f_user_title f)).
Proof.
  intros Hc Ht Hdocs Hrows Hfeed Htracked.
  destruct (update_run chunk_size soup fuel s _ Hc Ht) as [l Hl].
  { done. }
  { simpl. by rewrite length_fmap. }
  eexists _, _. split; [exact Hl|]. split; [done|].
  intros doc. rewrite reindexed_docs. intros [Hdoc|Hdoc]%elem_of_app Hurl.
  - exfalso. pose proof (fresh_docs_not_stale _ _ Hdoc) as Hfresh.
    apply list_elem_of_filter in Hdoc as [_ Hdoc]. simpl in Hdoc.
    apply Htracked, list_elem_of_fmap in Hdoc as (r & Hkey & Hr).
    apply Hfresh. simpl. apply Exists_exists.
    eexists. split; [by apply list_elem_of_fmap_2|].
    assert (f_url f = ss_feed r) as Hf.
    { rewrite <-Hurl. by injection Hkey. }
    rewrite bool_decide_eq_true_2 by done. by rewrite Hkey.
  - apply elem_of_new_docs in Hdoc
      as (e & f' & path & text & _ & Hf' & Hurl' & _ & ->).
    simpl in Hurl, Hf'. rewrite (Hfeed f' Hf') by congruence. done.
Qed.

Lemma update_after_feed_update_witness :
  ∃ s' t',
    update 256 (Some id) 2 Cases.after_rename = Ok () s' ∧
    search_tables (db s') = Some t' ∧
    ∀ doc, doc ∈ entries_search t' → _feed doc = "a" →
           feed doc = Some "Mine" ∧ _is_feed_user_title doc = true.
Proof.
  apply (update_after_feed_update 256 id 2 Cases.after_rename
           Cases.other_indexed_tables Cases.feed_renamed).
  - lia.
  - reflexivity.
  - simpl. lia.
  - simpl. lia.
  - intros f' ->%list_elem_of_singleton _. reflexivity.
  - intros doc ->%list_elem_of_singleton. vm_compute. left.
Defined.

(** ** From a trigger to the next pass *)

Lemma reindexed_entry_docs soup d t e r :
  NoDup (entry_key <$> entries d) →
  e ∈ entries d →
  r ∈ entries_search_sync_state t →
  sync_key r = entry_key e →
  to_update r →
  ¬ tombstone (entries_search_sync_state t) (entry_key e) →
  ∀ doc,
    doc ∈ entries_search (reindexed soup d t) ∧ doc_key doc = entry_key e ↔
    ∃ f path text,
      f ∈ feeds d ∧ f_url f = e_feed e ∧
      indexed_content soup e path text ∧
      doc = index_doc soup e f path text.
Proof.
  intros Hentries He Hr Hkey Hup Hlive doc.
  rewrite reindexed_docs, elem_of_app. split.
  - intros [[Hd|Hd] Hk].
    + apply fresh_docs_not_stale in Hd. exfalso. apply Hd.
      rewrite Hk, <-Hkey. by apply stale_intro.
    + apply elem_of_new_docs in Hd as (e' & f & path & text & He' & Hf & Hurl
                                       & Hcontent & ->).
      apply elem_of_entries_to_update in He' as (He' & _).
      assert (e' = e) as -> by by eapply NoDup_fmap_elem_inj.
      by exists f, path, text.
  - intros (f & path & text & Hf & Hurl & Hcontent & ->). split; [|done].
    right. apply elem_of_new_docs. exists e, f, path, text.
    split_and!; [|done..]. apply elem_of_entries_to_update. split; [done|].
    exists r. split_and!; [|done..].
    apply list_elem_of_filter. split; [|done]. by rewrite Hkey.
Qed.

(** X14: an entry inserted while search is enabled is indexed by the next
    [update()]: after the entries insert trigger has added its sync-state
    row, [update()] leaves for it exactly the documents of its content
    texts. *)
Theorem update_after_entry_insert chunk_size soup fuel s t t1 e :
  0 ≤ chunk_size →
  entries_search_entries_insert e t = Some t1 →
  search_tables (db s) = Some t1 →
  (length (entries_search t1) < fuel)%nat →
  (length (entries_search_sync_state t1) < fuel)%nat →
  NoDup (entry_key <$> entries (db s)) →
  e ∈ entries (db s) →
  ∃ s' t',
    update chunk_size (Some soup) fuel s = Ok () s' ∧
    search_tables (db s') = Some t' ∧
    ∀ doc,
      doc ∈ entries_search t' ∧ doc_key doc = entry_key e ↔
      ∃ f path text,
        f ∈ feeds (db s) ∧ f_url f = e_feed e ∧
        indexed_content soup e path text ∧
        doc = index_doc soup e f path text.
Proof.
  intros Hc Htrigger Ht Hdocs Hrows Hentries He.
  destruct (update_run chunk_size soup fuel s t1 Hc Ht Hdocs Hrows) as [l Hl].
  eexists _, _. split; [exact Hl|]. split; [done|].
  unfold entries_search_entries_insert in Htrigger.
  destruct (bool_decide_reflect
              (entry_key e ∈ sync_key <$> entries_search_sync_state t))
    as [|Hnew]; [done|].
  injection Htrigger as <-.
  apply (reindexed_entry_docs _ _ _ _
           (mkSyncState (e_id e) (e_feed e) true false)); try done.
  - simpl. apply elem_of_app. right. by left.
  - simpl. intros (r & [Hr| ->%list_elem_of_singleton]%elem_of_app & Hk & Hdel)
             %Exists_exists; [|done].
    apply Hnew. rewrite <-Hk. by apply list_elem_of_fmap_2.
Qed.

Lemma update_after_entry_insert_witness :
  ∃ s' t',
    update 256 (Some id) 2 Cases.inserted = Ok () s' ∧
    search_tables (db s') = Some t' ∧
    ∀ doc,
      doc ∈ entries_search t' ∧ doc_key doc = ("4", "a") ↔
      ∃ f path text,
        f ∈ [Examples.feed_a] ∧ f_url f = "a" ∧
        indexed_content id Examples.entry_other path text ∧
        doc = index_doc id Examples.entry_other f path text.
Proof.
  apply (update_after_entry_insert 256 id 2 Cases.inserted
           (mkTables [] []) Cases.inserted_tables
           Examples.entry_other).
  - lia.
  - reflexivity.
  - reflexivity.
  - simpl. lia.
  - simpl. lia.
  - vm_compute. repeat constructor. apply not_elem_of_nil.
  - vm_compute. left.
Defined.

(** X15: an entry updated while search is enabled is reindexed by the next
    [update()]: after the entries update trigger has marked its sync-state
    row, [update()] replaces whatever documents the index had for it by
    exactly the documents of its content texts now. *)
Theorem update_after_entry_update chunk_size soup fuel s t e :
  0 ≤ chunk_size →
  search_tables (db s) = Some (entries_search_entries_update e t) →
  (length (entries_search t) < fuel)%nat →
  (length (entries_search_sync_state t) < fuel)%nat →
  NoDup (entry_key <$> entries (db s)) →
  e ∈ entries (db s) →
  entry_key e ∈ sync_key <$> entries_search_sync_state t →
  ¬ tombstone (entries_search_sync_state t) (entry_key e) →
  ∃ s' t',
    update chunk_size (Some soup) fuel s = Ok () s' ∧
    search_tables (db s') = Some t' ∧
    ∀ doc,
      doc ∈ entries_search t' ∧ doc_key doc = entry_key e ↔
      ∃ f path text,
        f ∈ feeds (db s) ∧ f_url f = e_feed e ∧
        indexed_content soup e path text ∧
        doc = index_doc soup e f path text.
Proof.
  intros Hc Ht Hdocs Hrows Hentries He Htracked Hlive.
  destruct (update_run chunk_size soup fuel s _ Hc Ht) as [l Hl].
  { done. }
  { simpl. by rewrite length_fmap. }
  eexists _, _. split; [exact Hl|]. split; [done|].
  apply list_elem_of_fmap in Htracked as (r & Hkey & Hr).
  apply (reindexed_entry_docs _ _ _ _
           (mkSyncState (ss_id r) (ss_feed r) true (to_delete r))); try done.
  - simpl. apply list_elem_of_fmap. exists r. split; [|done].
    by rewrite bool_decide_eq_true_2.
  - simpl. intros Htomb. apply Hlive. revert Htomb.
    apply tombstone_fmap.
    + intros r'. by destruct (bool_decide _).
    + intros r' _. by destruct (bool_decide _).
Qed.

Lemma update_after_entry_update_witness :
  ∃ s' t',
    update 256 (Some id) 2 Cases.rewritten = Ok () s' ∧
    search_tables (db s') = Some t' ∧
    ∀ doc,
      doc ∈ entries_search t' ∧ doc_key doc = ("4", "a") ↔
      ∃ f path text,
        f ∈ [Examples.feed_a] ∧ f_url f = "a" ∧
        indexed_content id Cases.entry_rewritten path text ∧
        doc = index_doc id Cases.entry_rewritten f path text.
Proof.
  apply (update_after_entry_update 256 id 2 Cases.rewritten
           Cases.other_indexed_tables Cases.entry_rewritten).
  - lia.
  - reflexivity.
  - simpl. lia.
  - simpl. lia.
  - vm_compute. repeat constructor. apply not_elem_of_nil.
  - vm_compute. left.
  - vm_compute. left.
  - intros (r & ->%list_elem_of_singleton & _ & Hdel)%Exists_exists.
    exact Hdel.
Defined.

(** X16: an entry deleted while search is enabled leaves the index with
    the next [update()]: after the entries delete trigger has marked its
    sync-state row, [update()] leaves neither a document nor a sync-state
    row of its key. *)
Theorem update_after_entry_delete chunk_size soup fuel s t old :
  0 ≤ chunk_size →
  search_tables (db s) = Some (entries_search_entries_delete old t) →
  (length (entries_search t) < fuel)%nat →
  (length (entries_search_sync_state t) < fuel)%nat →
  entry_key old ∈ sync_key <$> entries_search_sync_state t →
  ∃ s' t',
    update chunk_size (Some soup) fuel s = Ok () s' ∧
    search_tables (db s') = Some t' ∧
    (entry_key old ∉ doc_key <$> entries_search t') ∧
    (entry_key old ∉ sync_key <$> entries_search_sync_state t').
Proof.
  intros Hc Ht Hdocs Hrows Htracked.
  destruct (update_run chunk_size soup fuel s _ Hc Ht) as [l Hl].
  { done. }
  { simpl. by rewrite length_fmap. }
  eexists _, _. split; [exact Hl|]. split; [done|].
  apply reindexed_drops_tombstone. simpl.
  apply list_elem_of_fmap in Htracked as (r & Hkey & Hr).
  apply Exists_exists.
  exists (mkSyncState (ss_id r) (ss_feed r) (to_update r) true).
  split_and!; try done.
  apply list_elem_of_fmap. exists r. split; [|done].
  by rewrite bool_decide_eq_true_2.
Qed.

Lemma update_after_entry_delete_witness :
  ∃ s' t',
    update 256 (Some id) 2 Cases.deleted = Ok () s' ∧
    search_tables (db s') = Some t' ∧
    (("4", "a") ∉ doc_key <$> entries_search t') ∧
    (("4", "a") ∉ sync_key <$> entries_search_sync_state t').
Proof.
  apply (update_after_entry_delete 256 id 2 Cases.deleted
           Cases.other_indexed_tables Examples.entry_other).
  - lia.
  - reflexivity.
  - simpl. lia.
  - simpl. lia.
  - vm_compute. left.
Defined.

(** ** The rows of the query *)

Lemma group_rows_keys (rows : list SearchRow) :
  row_key <$> group_rows rows
  = remove_dups ((λ r, (sr_id r, sr_feed r)) <$> rows).
Proof.
  unfold group_rows.
  assert (∀ ks : list Key,
            (∀ k, k ∈ ks → k ∈ (λ r, (sr_id r, sr_feed r)) <$> rows) →
            row_key <$> (ks ≫= λ k,
              match filter (λ r, (sr_id r, sr_feed r) = k) rows with
              | [] => []
              | r :: g =>
                  [mkResultRow k.1 k.2 (sr_rank (min_rank_row r g))
                     (sr_title (min_rank_row r g))
                     (sr_feed_title (min_rank_row r g))
                     (sr_is_feed_user_title (min_rank_row r g))
                     (sr_content <$> r :: g)]
              end) = ks) as Hgen.
  { induction ks as [|k ks IH]; intros Hks; [done|].
    rewrite bind_cons, fmap_app, IH by (intros; apply Hks; by right).
    pose proof (Hks k (list_elem_of_here _ _))
      as (r & Hk & Hr)%list_elem_of_fmap.
    destruct (filter _ rows) as [|r' g] eqn:Hfilter.
    - exfalso. eapply (not_elem_of_nil r). rewrite <-Hfilter.
      by apply list_elem_of_filter.
    - by destruct k. }
  apply Hgen. intros k. by rewrite elem_of_remove_dups.
Qed.

(** X17: the statement built by [make_search_entries_query], run without
    cursor and without limit, has one row per entry that the inner query
    selects a document of: the keys [(id, feed)] of its rows are pairwise
    distinct, and they are the keys of the documents that match, whose entry
    is in the primary store and passes the filter. *)
Theorem query_one_row_per_entry {EntryFilterOptions : Type}
    (bm25 : string → Doc → Z)
    (snippet : string → nat → string → string → Doc → string)
    (apply_filter_options : EntryFilterOptions → Entry → bool)
    (query : string) (filter_options : EntryFilterOptions)
    (before_mark after_mark : string) (matches : Doc → bool)
    (d : DB) (t : SearchTables) :
  NoDup (row_key
         <$> make_search_entries_query bm25 snippet apply_filter_options
               query filter_options before_mark after_mark matches
               None None d t)
  ∧ ∀ k, k ∈ row_key
             <$> make_search_entries_query bm25 snippet apply_filter_options
                   query filter_options before_mark after_mark matches
                   None None d t
         ↔ ∃ doc, selected apply_filter_options filter_options matches d t doc
                  ∧ doc_key doc = k.
Proof.
  unfold make_search_entries_query.
  assert (row_key <$> merge_sort row_le
            (group_rows
               (search_cte bm25 snippet apply_filter_options query
                  filter_options before_mark after_mark matches d t))
          ≡ₚ remove_dups
               ((λ r, (sr_id r, sr_feed r))
                <$> search_cte bm25 snippet apply_filter_options query
                      filter_options before_mark after_mark matches d t))
    as Hperm.
  { by rewrite merge_sort_Permutation, group_rows_keys. }
  split.
  - rewrite Hperm. apply NoDup_remove_dups.
  - intros k. rewrite Hperm, elem_of_remove_dups, list_elem_of_fmap. split.
    + intros (row & -> & Hrow).
      apply elem_of_search_cte, elem_of_search_rows in Hrow
        as (doc & Hdoc & ->).
      by exists doc.
    + intros (doc & Hdoc & <-). exists (select_row bm25 snippet query
                                         before_mark after_mark doc).
      split; [done|]. apply elem_of_search_cte, elem_of_search_rows.
      by exists doc.
Qed.

Global Instance rank_le_total : Total rank_le.
Proof. intros a b. unfold rank_le. lia. Qed.

Global Instance rank_le_trans : Transitive rank_le.
Proof. intros a b c. unfold rank_le. lia. Qed.

Lemma StronglySorted_filter {A} (R : relation A) (P : A → Prop)
    `{!∀ x, Decision (P x)} (l : list A) :
  StronglySorted R l → StronglySorted R (filter P l).
Proof.
  induction 1 as [|x l _ IH Hx]; [constructor|].
  rewrite filter_cons. destruct (decide (P x)); [|done].
  constructor; [done|]. apply Forall_forall.
  intros y [_ Hy]%list_elem_of_filter. by eapply Forall_forall in Hx.
Qed.

Lemma min_rank_row_least r g :
  Forall (rank_le r) g → min_rank_row r g = r.
Proof.
  induction 1 as [|r' g Hr' _ IH]; [done|]. simpl.
  unfold rank_le in Hr'.
  destruct (Z.ltb_spec (sr_rank r') (sr_rank r)); [lia|done].
Qed.

Lemma content_items_sorted (l : list SearchRow) :
  Forall (λ r, ci_rank (sr_content r) = sr_rank r) l →
  StronglySorted rank_le l →
  StronglySorted item_rank_le (sr_content <$> l).
Proof.
  intros Hranks. induction 1 as [|r l _ IH Hr]; [constructor|].
  apply Forall_cons in Hranks as [Hrank Hranks].
  rewrite fmap_cons. constructor; [by apply IH|].
  apply Forall_fmap, Forall_forall. intros r' Hr'.
  eapply Forall_forall in Hr, Hranks; [|exact Hr'..].
  unfold item_rank_le, rank_le in *. simpl. lia.
Qed.

(** X18: in every row of the statement built by
    [make_search_entries_query], the content items of the entry come by
    rank, best (least) first; there is at least one, and the rank of the row
    is that of the first. *)
Theorem query_content_by_rank {EntryFilterOptions : Type}
    (bm25 : string → Doc → Z)
    (snippet : string → nat → string → string → Doc → string)
    (apply_filter_options : EntryFilterOptions → Entry → bool)
    (query : string) (filter_options : EntryFilterOptions)
    (before_mark after_mark : string) (matches : Doc → bool)
    (last : option Cursor) (limit : option Z)
    (d : DB) (t : SearchTables) (row : ResultRow) :
  row ∈ make_search_entries_query bm25 snippet apply_filter_options query
          filter_options before_mark after_mark matches last limit d t →
  ∃ c cs,
    rr_content row = c :: cs ∧
    ci_rank c = rr_rank row ∧
    StronglySorted item_rank_le (c :: cs).
Proof.
  intros Hrow. apply elem_of_run_query, elem_of_group_rows in Hrow
    as (r & g & Hgroup & ->). simpl.
  set (rows := search_cte bm25 snippet apply_filter_options query
                 filter_options before_mark after_mark matches d t) in *.
  assert (StronglySorted rank_le (r :: g)) as Hsorted.
  { rewrite <-Hgroup. apply StronglySorted_filter.
    apply StronglySorted_merge_sort; apply _. }
  assert (Forall (λ r, ci_rank (sr_content r) = sr_rank r) (r :: g))
    as Hranks.
  { apply Forall_forall. intros r' Hr'. rewrite <-Hgroup in Hr'.
    apply list_elem_of_filter in Hr' as [_ Hr'].
    apply elem_of_search_cte, elem_of_search_rows in Hr' as (doc & _ & ->).
    done. }
  exists (sr_content r), (sr_content <$> g). split; [done|]. split.
  - rewrite min_rank_row_least; [by apply Forall_cons in Hranks as [? _]|].
    by apply StronglySorted_inv in Hsorted as [_ ?].
  - by apply (content_items_sorted (r :: g)).
Qed.

Lemma query_content_by_rank_witness :
  ∃ c cs,
    rr_content Cases.row_one = c :: cs ∧
    ci_rank c = rr_rank Cases.row_one ∧
    StronglySorted item_rank_le (c :: cs).
Proof.
  apply (query_content_by_rank Examples.bm25 Examples.snippet
           Examples.apply_filter_options "one" () "<" ">" (λ _, true)
           None None (db Examples.indexed) Cases.indexed_tables).
  vm_compute. left.
Defined.

(** ** The content mapping of a result *)

Lemma odict_set_fresh {V} (k : string) (v : V) (d : list (string * V)) :
  k ∉ d.*1 → odict_set k v d = d ++ [(k, v)].
Proof.
  induction d as [|[k' v'] d IH]; intros Hk; [done|].
  rewrite fmap_cons, not_elem_of_cons in Hk. destruct Hk as [Hne Hk].
  simpl in *. rewrite bool_decide_eq_false_2 by done. by rewrite IH.
Qed.

Lemma odict_distinct {V} (items : list (string * V)) :
  NoDup items.*1 → odict items = items.
Proof.
  unfold odict.
  assert (∀ acc : list (string * V),
            NoDup (acc ++ items).*1 →
            foldl (λ d '(k, v), odict_set k v d) acc items = acc ++ items)
    as Hgen.
  { induction items as [|[k v] items IH]; intros acc Hnd; simpl.
    - by rewrite app_nil_r.
    - rewrite odict_set_fresh.
      + rewrite IH; rewrite <-app_assoc; done.
      + rewrite fmap_app in Hnd. apply NoDup_app in Hnd as (_ & Hnd & _).
        intros Hk. apply (Hnd k Hk). rewrite fmap_cons. by left. }
  intros Hnd. by apply (Hgen []).
Qed.

(** X19: when the content items of a row that have a content path have
    pairwise distinct paths, the content mapping that [value_factory] builds
    lists them in the order of the row, each path with the highlighted
    string extracted from the snippet of its item; items whose path is NULL
    or empty are left out. *)
Theorem value_factory_content_in_order
    (extract : string → string → string → HighlightedString)
    (before_mark after_mark : string) (t : ResultRow) :
  NoDup (ci_path <$> filter (λ c, truthy (ci_path c)) (rr_content t)) →
  res_content (value_factory extract before_mark after_mark t)
  = (λ c, (default "" (ci_path c),
           extract (ci_value c) before_mark after_mark))
    <$> filter (λ c, truthy (ci_path c)) (rr_content t).
Proof.
  intros Hnd. unfold value_factory. simpl.
  assert (omap (λ c, if truthy (ci_path c)
                     then Some (default "" (ci_path c),
                                extract (ci_value c) before_mark after_mark)
                     else None) (rr_content t)
          = (λ c, (default "" (ci_path c),
                   extract (ci_value c) before_mark after_mark))
            <$> filter (λ c, truthy (ci_path c)) (rr_content t)) as ->.
  { clear Hnd. induction (rr_content t) as [|c l IH]; [done|].
    simpl. destruct (truthy (ci_path c)) eqn:Hc.
    - rewrite filter_cons_True by by rewrite Hc.
      rewrite fmap_cons. f_equal. exact IH.
    - rewrite filter_cons_False by (rewrite Hc; by intros []). exact IH. }
  apply odict_distinct. rewrite <-list_fmap_compose.
  apply (NoDup_fmap_1 Some). rewrite <-list_fmap_compose.
  erewrite list_fmap_ext; [exact Hnd|].
  intros i c [Hc _]%list_elem_of_lookup_2%list_elem_of_filter. simpl.
  by destruct (ci_path c).
Qed.

Lemma value_factory_content_in_order_witness :
  res_content (value_factory Examples.extract "<" ">" Cases.row_one)
  = [(".summary", mkHighlighted "summary text" []);
     (".content[0].value", mkHighlighted "content text" [])].
Proof.
  apply (value_factory_content_in_order Examples.extract "<" ">"
           Cases.row_one).
  vm_compute. repeat constructor.
  - intros [Heq|Hin]%elem_of_cons; [discriminate Heq|].
    by apply elem_of_nil in Hin.
  - apply not_elem_of_nil.
Defined.

(** ** The index over time: documents, rows and entries *)

Lemma enabled_reachable_documents_tracked d :
  enabled_reachable d → indexed_keys d ⊆ tracked_keys d.
Proof.
  induction 1 as [d0 l s' Hnone Henable|d d' Hreach IH Hstep].
  - revert Henable.
    unfold enable, wrap_exceptions, try_operational, _enable, transaction,
      mbind, M_bind, bind, create_tables, backfill. simpl. rewrite Hnone.
    simpl. destruct (bool_decide _); [|done]. intros [= <-].
    by intros k ?%elem_of_nil.
  - pose proof (enabled_reachable_tracked _ Hreach) as Htracked.
    destruct Hstep as [w d' Hw|chunk_size bs4 fuel l s' Hrun].
    + destruct Htracked as (t & Ht & Hinv).
      destruct (write_docs w d d' t Ht Hw) as (t' & Ht' & Hsame).
      destruct (write_tracked w d d') as [_ Hkeys]; [by exists t|done|].
      intros k Hk. apply Hkeys, IH. unfold indexed_keys in *.
      rewrite Ht. rewrite Ht', Hsame in Hk. done.
    + destruct Htracked as (t & Ht & _).
      apply (update_ok_inv _ _ _ _ t) in Hrun
        as (soup & l1 & l2 & l3 & _ & _ & _ & _ & ->); [|done].
      unfold indexed_keys, tracked_keys in *. rewrite Ht in IH.
      change (doc_key <$> entries_search (reindexed soup d t)
              ⊆ sync_key <$> entries_search_sync_state (reindexed soup d t)).
      rewrite reindexed_docs, reindexed_keys, fmap_app.
      intros k [Hk|Hk]%elem_of_app.
      * apply live_rows_keys.
        apply list_elem_of_fmap in Hk as (doc & -> & Hdoc).
        pose proof (fresh_docs_not_stale _ _ Hdoc) as Hfresh.
        apply list_elem_of_filter in Hdoc as [_ Hdoc]. split.
        -- apply IH. by apply list_elem_of_fmap_2.
        -- intros Htomb. by apply Hfresh, tombstone_stale.
      * by apply (new_docs_keys soup d (after_deletes t)).
Qed.



Lemma foldr_trigger_live_rows {A} (f : SyncState → SyncState)
    (trigger : SearchTables → SearchTables) (l : list A) t r' :
  (∀ t, entries_search_sync_state (trigger t)
        = f <$> entries_search_sync_state t) →
  (∀ r, sync_key (f r) = sync_key r ∧ to_delete (f r) = to_delete r) →
  r' ∈ entries_search_sync_state (foldr (λ _, trigger) t l) →
  ∃ r, r ∈ entries_search_sync_state t ∧ sync_key r = sync_key r'
       ∧ to_delete r = to_delete r'.
Proof.
  intros Htrigger Hf. revert r'. induction l as [|x l IH]; intros r' Hr'.
  - by exists r'.
  - cbn [foldr] in Hr'. rewrite Htrigger in Hr'.
    apply list_elem_of_fmap in Hr' as (r1 & -> & Hr1).
    destruct (IH r1 Hr1) as (r & Hr & Hkey & Hdel).
    destruct (Hf r1) as [-> ->]. by exists r.
Qed.

Lemma foldr_delete_live_rows (deleted : list Entry) t r' :
  r' ∈ entries_search_sync_state
         (foldr entries_search_entries_delete t deleted) →
  to_delete r' = false →
  ∃ r, r ∈ entries_search_sync_state t ∧ sync_key r = sync_key r'
       ∧ to_delete r = false
       ∧ ∀ old, old ∈ deleted → entry_key old ≠ sync_key r'.
Proof.
  revert r'. induction deleted as [|old deleted IH]; intros r' Hr' Hlive.
  - exists r'. split_and!; try done. by intros old ?%elem_of_nil.
  - cbn [foldr] in Hr'. unfold entries_search_entries_delete at 1 in Hr'.
    simpl in Hr'. apply list_elem_of_fmap in Hr' as (r1 & -> & Hr1).
    destruct (bool_decide_reflect (entry_key old = sync_key r1)) as [Heq|Hne];
      [done|].
    destruct (IH r1 Hr1 Hlive) as (r & Hr & Hkey & Hdel & Hdeleted).
    exists r. split_and!; try done.
    intros old' [->|Hold']%elem_of_cons; [done|by apply Hdeleted].
Qed.

Lemma delete_entries_live_rows (P : Entry → Prop) `{!∀ e, Decision (P e)}
    d t fs :
  search_tables d = Some t →
  live_rows_have_entries d →
  live_rows_have_entries
    (mkDB (filter (λ e, ¬ P e) (entries d)) fs
       (Some (foldr entries_search_entries_delete t (filter P (entries d))))).
Proof.
  intros Ht Hinv t' r' [= <-] Hr' Hlive. simpl.
  apply foldr_delete_live_rows in Hr' as (r & Hr & Hkey & Hdel & Hdeleted);
    [|done].
  pose proof (Hinv t r Ht Hr Hdel) as (e & Hk & He)%list_elem_of_fmap.
  apply list_elem_of_fmap. exists e. split; [congruence|].
  apply list_elem_of_filter. split; [|done].
  intros HP. apply (Hdeleted e); [by apply list_elem_of_filter|congruence].
Qed.

Lemma write_live_rows w d d' :
  (∃ t, search_tables d = Some t) →
  live_rows_have_entries d → apply_write w d = Some d' →
  live_rows_have_entries d'.
Proof.
  intros [t Ht] Hinv. destruct w as [e|e|key|f|f|url]; simpl.
  - unfold Storage.insert_entry. destruct (bool_decide _); [done|].
    rewrite Ht. unfold entries_search_entries_insert. simpl.
    destruct (bool_decide _); [done|]. intros [= <-] t' r' [= <-]. simpl.
    rewrite fmap_app.
    intros [Hr'| ->%list_elem_of_singleton]%elem_of_app Hlive;
      apply elem_of_app; [left; by eapply Hinv|right; by left].
  - unfold Storage.update_entry. rewrite Ht.
    intros [= <-] t' r' [= <-] Hr' Hlive. simpl in *.
    apply (foldr_trigger_live_rows
             (λ r, if bool_decide (entry_key e = sync_key r)
                   then mkSyncState (ss_id r) (ss_feed r) true (to_delete r)
                   else r)) in Hr' as (r & Hr & Hkey & Hdel);
      [|done|intros r; by destruct (bool_decide _)].
    rewrite <-list_fmap_compose.
    assert (entry_key ∘ (λ e', if bool_decide (entry_key e' = entry_key e)
                               then e else e') <$> entries d
            = entry_key <$> entries d) as ->.
    { apply list_fmap_ext. intros i e' _. simpl.
      by destruct (bool_decide_reflect (entry_key e' = entry_key e)). }
    rewrite <-Hkey. apply (Hinv t r Ht Hr). congruence.
  - unfold Storage.delete_entry. rewrite Ht. intros [= <-].
    by apply (delete_entries_live_rows (λ e, entry_key e = key)).
  - unfold Storage.insert_feed. destruct (bool_decide _); [done|].
    intros [= <-]. done.
  - unfold Storage.update_feed. rewrite Ht.
    intros [= <-] t' r' [= <-] Hr' Hlive. simpl in *.
    apply (foldr_trigger_live_rows
             (λ r, if bool_decide (f_url f = ss_feed r)
                   then mkSyncState (ss_id r) (ss_feed r) true (to_delete r)
                   else r)) in Hr' as (r & Hr & Hkey & Hdel);
      [|done|intros r; by destruct (bool_decide _)].
    rewrite <-Hkey. apply (Hinv t r Ht Hr). congruence.
  - unfold Storage.delete_feed. rewrite Ht. intros [= <-].
    by apply (delete_entries_live_rows (λ e, e_feed e = url)).
Qed.

Lemma enabled_reachable_live_rows d :
  enabled_reachable d → live_rows_have_entries d.
Proof.
  induction 1 as [d0 l s' Hnone Henable|d d' Hreach IH Hstep].
  - revert Henable.
    unfold enable, wrap_exceptions, try_operational, _enable, transaction,
      mbind, M_bind, bind, create_tables, backfill. simpl. rewrite Hnone.
    simpl. destruct (bool_decide _); [|done].
    intros [= <-] t r [= <-] (e & -> & He)%list_elem_of_fmap _. simpl.
    by apply (list_elem_of_fmap_2 entry_key).
  - pose proof (enabled_reachable_tracked _ Hreach) as (t & Ht & _).
    destruct Hstep as [w d' Hw|chunk_size bs4 fuel l s' Hrun].
    + eapply write_live_rows; [by exists t|done..].
    + apply (update_ok_inv _ _ _ _ t) in Hrun
        as (soup & l1 & l2 & l3 & _ & _ & _ & _ & ->); [|done].
      intros t' r' [= <-]. rewrite reindexed_sync.
      intros (r & -> & [_ Hr]%list_elem_of_filter)%list_elem_of_fmap Hlive.
      simpl in *. by apply (IH t r).
Qed.



(** ** An entry without text of a known type *)

(** X23: an entry marked [to_update] that has no summary and whose content
    variants are all of another type than text/html, text/xhtml and
    text/plain has no document after [update()], not even one for its
    title: none of the three branches of [_insert_into_search] selects
    it. *)
Theorem update_leaves_out_non_text_entry chunk_size soup fuel s t e r l :
  0 ≤ chunk_size →
  search_tables (db s) = Some t →
  (length (entries_search t) < fuel)%nat →
  (length (entries_search_sync_state t) < fuel)%nat →
  NoDup (entry_key <$> entries (db s)) →
  e ∈ entries (db s) →
  r ∈ entries_search_sync_state t →
  sync_key r = entry_key e →
  to_update r →
  ¬ truthy (e_summary e) →
  e_content e = Some l →
  l ≠ [] →
  Forall (λ c, ¬ indexable_type c) l →
  ∃ s' t',
    update chunk_size (Some soup) fuel s = Ok () s' ∧
    search_tables (db s') = Some t' ∧
    (entry_key e ∉ doc_key <$> entries_search t').
Proof.
  intros Hc Ht Hdocs Hrows Hentries He Hr Hkey Hup Hsummary Hl Hne Htypes.
  destruct (update_run chunk_size soup fuel s t Hc Ht Hdocs Hrows) as [lg Hlg].
  eexists _, _. split; [exact Hlg|]. split; [done|].
  rewrite reindexed_docs, fmap_app. intros [Hk|Hk]%elem_of_app.
  - revert Hk. apply fresh_docs_drop_stale. rewrite <-Hkey.
    by apply stale_intro.
  - apply list_elem_of_fmap in Hk as (doc & Hdoc_key & Hdoc).
    apply elem_of_new_docs in Hdoc
      as (e' & f & path & text & He' & _ & _ & Hcontent & ->).
    apply elem_of_entries_to_update in He' as [He' _].
    assert (e' = e) as -> by by eapply NoDup_fmap_elem_inj.
    destruct Hcontent as [Hs|l' i c Hl' Hi Hty|_ Hnone].
    + done.
    + rewrite Hl in Hl'. injection Hl' as <-.
      eapply Forall_forall in Htypes; [|by eapply list_elem_of_lookup_2].
      done.
    + apply Hnone. unfold has_content. rewrite Hl. by destruct l.
Qed.

Lemma update_leaves_out_non_text_entry_witness :
  ∃ s' t',
    update 256 (Some id) 2 Examples.image_dirty = Ok () s' ∧
    search_tables (db s') = Some t' ∧
    (("2", "a") ∉ doc_key <$> entries_search t').
Proof.
  apply (update_leaves_out_non_text_entry 256 id 2 Examples.image_dirty
           (mkTables [] [mkSyncState "2" "a" true false])
           Examples.entry_image (mkSyncState "2" "a" true false)
           [mkContent (Some "picture") (Some "image/png")]).
  - lia.
  - reflexivity.
  - simpl. lia.
  - simpl. lia.
  - vm_compute. repeat constructor. apply not_elem_of_nil.
  - vm_compute. left.
  - vm_compute. left.
  - reflexivity.
  - exact I.
  - intros [].
  - reflexivity.
  - discriminate.
  - repeat constructor. vm_compute. intros [].
Defined.

(** ** An entry with text is indexed *)

Lemma update_indexes_entry_with_text_witness :
  ∃ s' t',
    update 256 (Some id) 2 Cases.inserted = Ok () s' ∧
    search_tables (db s') = Some t' ∧
    ("4", "a") ∈ doc_key <$> entries_search t' ∧
    ∀ r', r' ∈ entries_search_sync_state t' → to_update r' = false.
Proof.
  apply (update_indexes_entry_with_text 256 id 2 Cases.inserted
           Cases.inserted_tables Examples.entry_other
           (mkSyncState "4" "a" true false) Examples.feed_a).
  - lia.
  - reflexivity.
  - simpl. lia.
  - simpl. lia.
  - vm_compute. left.
  - vm_compute. left.
  - reflexivity.
  - exact I.
  - intros (r & ->%list_elem_of_singleton & _ & Hdel)%Exists_exists.
    exact Hdel.
  - vm_compute. left.
  - reflexivity.
  - left. exact I.
Defined.

(** * The registry of retrievers *)

Section retrievers.
Context (len : string → nat) {Retriever : Type}.

Local Abbreviation Retrievers' := (list (string * Retriever)).
Local Abbreviation mount_retriever' := (Parser.mount_retriever len).
Local Abbreviation longer_first' := (@Parser.longer_first len Retriever).

Lemma odict_pop_app (d1 d2 : Retrievers') k v :
  k ∉ d1.*1 →
  Parser.odict_pop k (d1 ++ (k, v) :: d2) = Some (v, d1 ++ d2).
Proof.
  induction d1 as [|[k' v'] d1 IH]; intros Hk; simpl.
  - by rewrite bool_decide_eq_true_2.
  - rewrite fmap_cons, not_elem_of_cons in Hk. destruct Hk as [Hne Hk].
    simpl in Hne. rewrite bool_decide_eq_false_2 by done.
    by rewrite IH.
Qed.

Lemma move_to_end_app (d1 d2 : Retrievers') k v :
  NoDup (d1 ++ (k, v) :: d2).*1 →
  Parser.move_to_end k (d1 ++ (k, v) :: d2) = Some (d1 ++ d2 ++ [(k, v)]).
Proof.
  rewrite fmap_app, fmap_cons. intros Hnd.
  apply NoDup_app in Hnd as (_ & Hdisj & [Hk _]%NoDup_cons).
  unfold Parser.move_to_end. rewrite odict_pop_app; simpl.
  - rewrite odict_set_fresh; [by rewrite <-app_assoc|].
    rewrite fmap_app, elem_of_app. intros [Hin|Hin]; [|done].
    apply (Hdisj k Hin). by left.
  - intros Hin. apply (Hdisj k Hin). by left.
Qed.

Lemma move_all (P : string → Prop) `{!∀ k, Decision (P k)}
    (d : Retrievers') : ∀ pre post : Retrievers',
  NoDup (pre ++ d ++ post).*1 →
  foldl (λ acc key, acc ≫= Parser.move_to_end key)
    (Some (pre ++ d ++ post)) (filter P d.*1)
  = Some (pre ++ filter (λ x, ¬ P x.1) d ++ post ++ filter (λ x, P x.1) d).
Proof.
  induction d as [|[k v] d IH]; intros pre post Hnd.
  - simpl. by rewrite app_nil_r.
  - rewrite fmap_cons, !filter_cons. simpl.
    destruct (decide (P k)) as [HP|HP].
    + rewrite decide_False by tauto. simpl.
      change (pre ++ (k, v) :: d ++ post)
        with (pre ++ (k, v) :: (d ++ post)).
      rewrite move_to_end_app by done. rewrite <-app_assoc.
      rewrite IH.
      * by rewrite <-!app_assoc.
      * assert (pre ++ d ++ post ++ [(k, v)]
                ≡ₚ pre ++ ((k, v) :: d) ++ post) as Hperm.
        { apply Permutation_app_head. simpl. rewrite app_assoc.
          symmetry. apply Permutation_cons_append. }
        by rewrite Hperm.
    + rewrite decide_True by tauto.
      change (pre ++ (k, v) :: d ++ post)
        with (pre ++ [(k, v)] ++ d ++ post).
      rewrite (app_assoc pre [(k, v)]). rewrite IH.
      * by rewrite <-!app_assoc.
      * by rewrite <-app_assoc.
Qed.

Lemma elem_of_odict_set_1 {V} (k : string) (v : V) (d : list (string * V)) x :
  x ∈ odict_set k v d → x = (k, v) ∨ x ∈ d.
Proof.
  induction d as [|[k' v'] d IH]; simpl.
  - intros ->%list_elem_of_singleton. by left.
  - destruct (bool_decide (k' = k)).
    + intros [->|Hx]%elem_of_cons; [by left|]. right. by right.
    + intros [->|Hx]%elem_of_cons; [right; by left|].
      destruct (IH Hx) as [->|Hd]; [by left|]. right. by right.
Qed.

Lemma elem_of_odict_set {V} (k : string) (v : V) (d : list (string * V)) x :
  NoDup d.*1 →
  x ∈ odict_set k v d ↔ x = (k, v) ∨ (x ∈ d ∧ x.1 ≠ k).
Proof.
  induction d as [|[k' v'] d IH]; simpl.
  - intros _. rewrite list_elem_of_singleton, elem_of_nil. tauto.
  - intros [Hk' Hnd]%NoDup_cons.
    destruct (bool_decide_reflect (k' = k)) as [->|Hne];
      rewrite !elem_of_cons.
    + split.
      * intros [->|Hx]; [by left|]. right. split; [by right|].
        intros <-. apply Hk'. by apply (list_elem_of_fmap_2 fst).
      * intros [->|[[->|Hx] Hne]]; [by left|done|by right].
    + rewrite IH by done. split.
      * intros [->|[->|[Hx Hne']]]; [right; split; [by left|done]|by left|].
        right. split; [by right|done].
      * intros [->|[[->|Hx] Hne']]; [right; by left|by left|].
        right. right. done.
Qed.

Lemma odict_set_keys_NoDup {V} (k : string) (v : V) (d : list (string * V)) :
  NoDup d.*1 → NoDup (odict_set k v d).*1.
Proof.
  induction d as [|[k' v'] d IH]; simpl.
  - intros _. repeat constructor. apply not_elem_of_nil.
  - intros [Hk' Hnd]%NoDup_cons.
    destruct (bool_decide_reflect (k' = k)) as [->|Hne]; simpl.
    + by apply NoDup_cons.
    + apply NoDup_cons. split; [|by apply IH].
      intros ([k1 v1] & Heq & Hx)%list_elem_of_fmap. simpl in Heq. subst k1.
      apply elem_of_odict_set_1 in Hx as [[= -> ->]|Hx]; [done|].
      apply Hk'. by apply (list_elem_of_fmap_2 fst) in Hx.
Qed.

Lemma mount_retriever_eq prefix (retriever : Retriever) (d : Retrievers') :
  NoDup d.*1 →
  mount_retriever' prefix retriever d
  = Some (filter (λ x, ¬ (len x.1 < len prefix)%nat)
            (odict_set prefix retriever d)
          ++ filter (λ x, (len x.1 < len prefix)%nat)
               (odict_set prefix retriever d)).
Proof.
  intros Hnd. unfold Parser.mount_retriever.
  pose proof (move_all (λ k, (len k < len prefix)%nat)
                (odict_set prefix retriever d) [] []) as Hmove.
  simpl in Hmove. rewrite !app_nil_r in Hmove. apply Hmove.
  by apply odict_set_keys_NoDup.
Qed.

Lemma odict_set_sorted prefix (retriever : Retriever) (d : Retrievers') :
  StronglySorted longer_first' d →
  StronglySorted longer_first'
    (filter (λ x, ¬ (len x.1 < len prefix)%nat)
       (odict_set prefix retriever d))
  ∧ StronglySorted longer_first'
      (filter (λ x, (len x.1 < len prefix)%nat)
         (odict_set prefix retriever d)).
Proof.
  induction 1 as [|[k v] d Hd [IH1 IH2] Hk]; simpl.
  - rewrite filter_cons_True by (simpl; lia).
    rewrite filter_cons_False by (simpl; lia).
    split; repeat constructor.
  - destruct (bool_decide_reflect (k = prefix)) as [->|Hne].
    + rewrite filter_cons_True by (simpl; lia).
      rewrite filter_cons_False by (simpl; lia). split.
      * constructor; [by apply StronglySorted_filter|].
        apply Forall_forall. intros x [_ Hx]%list_elem_of_filter.
        by eapply Forall_forall in Hk.
      * by apply StronglySorted_filter.
    + assert (∀ x, x ∈ odict_set prefix retriever d →
                   (len prefix ≤ len k)%nat → longer_first' (k, v) x)
        as Hall.
      { intros x [->|Hx]%elem_of_odict_set_1 Hlen; [done|].
        by eapply Forall_forall in Hk. }
      rewrite !filter_cons. simpl.
      destruct (decide (len k < len prefix)%nat) as [Hshort|Hlong].
      * rewrite decide_False by tauto. split; [done|].
        constructor; [done|]. apply Forall_forall.
        intros x [Hx Hin]%list_elem_of_filter.
        apply elem_of_odict_set_1 in Hin as [->|Hin]; [simpl in Hx; lia|].
        by eapply Forall_forall in Hk.
      * rewrite decide_True by tauto. split; [|done].
        constructor; [done|]. apply Forall_forall.
        intros x [_ Hin]%list_elem_of_filter. apply Hall; [done|lia].
Qed.

Lemma mount_retriever_ok prefix (retriever : Retriever) (d : Retrievers') :
  NoDup d.*1 →
  StronglySorted longer_first' d →
  ∃ d',
    mount_retriever' prefix retriever d = Some d' ∧
    NoDup d'.*1 ∧
    StronglySorted longer_first' d' ∧
    ∀ x, x ∈ d' ↔ x = (prefix, retriever) ∨ (x ∈ d ∧ x.1 ≠ prefix).
Proof.
  intros Hnd Hsorted. eexists. split; [by apply mount_retriever_eq|].
  set (d1 := odict_set prefix retriever d).
  assert (filter (λ x : string * Retriever, ¬ (len x.1 < len prefix)%nat) d1
          ++ filter (λ x, (len x.1 < len prefix)%nat) d1 ≡ₚ d1) as Hperm.
  { rewrite Permutation_app_comm. apply filter_app_complement. }
  split_and!.
  - rewrite Hperm. by apply odict_set_keys_NoDup.
  - destruct (odict_set_sorted prefix retriever d Hsorted) as [H1 H2].
    apply StronglySorted_app_2; [|done..].
    intros x1 x2 [Hx1 _]%list_elem_of_filter [Hx2 _]%list_elem_of_filter.
    unfold Parser.longer_first. lia.
  - intros x. rewrite Hperm. by apply elem_of_odict_set.
Qed.

Lemma mounted_snoc (mounts : list (string * Retriever)) prefix retriever :
  Parser.mounted len (mounts ++ [(prefix, retriever)])
  = Parser.mounted len mounts ≫= mount_retriever' prefix retriever.
Proof. unfold Parser.mounted. by rewrite foldl_snoc. Qed.

Lemma last_mounted_snoc prefix (mounts : list (string * Retriever)) p r :
  Parser.last_mounted prefix (mounts ++ [(p, r)])
  = if bool_decide (p = prefix) then Some r
    else Parser.last_mounted prefix mounts.
Proof.
  unfold Parser.last_mounted. rewrite filter_app.
  destruct (bool_decide_reflect (p = prefix)) as [->|Hne].
  - rewrite filter_cons_True by done. by rewrite filter_nil, last_snoc.
  - rewrite filter_cons_False by done. by rewrite filter_nil, app_nil_r.
Qed.

Lemma mounted_ok (mounts : list (string * Retriever)) :
  ∃ d,
    Parser.mounted len mounts = Some d ∧
    NoDup d.*1 ∧
    StronglySorted longer_first' d ∧
    ∀ p r, (p, r) ∈ d ↔ Parser.last_mounted p mounts = Some r.
Proof.
  induction mounts as [|[prefix retriever] mounts IH] using rev_ind.
  - exists []. split_and!; [done|constructor|constructor|].
    intros p r. rewrite elem_of_nil. done.
  - destruct IH as (d & Hd & Hnd & Hsorted & Hlast).
    destruct (mount_retriever_ok prefix retriever d Hnd Hsorted)
      as (d' & Hd' & Hnd' & Hsorted' & Hin).
    exists d'. rewrite mounted_snoc, Hd. split_and!; [done..|].
    intros p r. rewrite Hin, last_mounted_snoc, Hlast. simpl.
    destruct (bool_decide_reflect (prefix = p)) as [->|Hne].
    + split; [intros [[= ->]|[_ []]]; done|intros [= ->]; by left].
    + split; [intros [[= -> ->]|[? _]]; done|intros ?; right; split; congruence].
Qed.
End retrievers.

Lemma StronglySorted_lookup {A} (R : relation A) (l : list A) i j x y :
  StronglySorted R l → (i < j)%nat → l !! i = Some x → l !! j = Some y →
  R x y.
Proof.
  intros Hsorted. revert i j.
  induction Hsorted as [|z l _ IH Hz]; intros i j Hlt Hi Hj; [done|].
  destruct j as [|j]; [lia|]. destruct i as [|i]; simpl in *.
  - injection Hi as <-. eapply Forall_forall in Hz; [done|].
    by eapply list_elem_of_lookup_2.
  - eapply (IH i j); [lia|done..].
Qed.

Lemma last_mounted_is_Some {Retriever} (prefix : string)
    (mounts : list (string * Retriever)) :
  prefix ∈ mounts.*1 → is_Some (Parser.last_mounted prefix mounts).
Proof.
  intros ([p r] & Heq & Hin)%list_elem_of_fmap. simpl in Heq. subst prefix.
  unfold Parser.last_mounted.
  destruct (last (filter (λ m, m.1 = p) mounts)) as [m|] eqn:Hlast;
    [simpl; by eexists|].
  apply last_None in Hlast. exfalso. eapply (not_elem_of_nil (p, r)).
  rewrite <-Hlast. by apply list_elem_of_filter.
Qed.

Lemma last_mounted_elem_of {Retriever} (prefix : string)
    (mounts : list (string * Retriever)) r :
  Parser.last_mounted prefix mounts = Some r → prefix ∈ mounts.*1.
Proof.
  unfold Parser.last_mounted.
  intros ([p r'] & Hlast & ->)%fmap_Some.
  apply last_Some_elem_of, list_elem_of_filter in Hlast as [<- Hin].
  by apply (list_elem_of_fmap_2 fst) in Hin.
Qed.

(** X24: however many times and in whatever order [mount_retriever] is
    called on a new parser, no call fails, the registry has each prefix
    once, with the retriever given in the last call for it, and lists longer
    prefixes before shorter ones. *)
Theorem mount_retriever_keeps_order (len : string → nat) {Retriever : Type}
    (mounts : list (string * Retriever)) :
  ∃ d,
    Parser.mounted len mounts = Some d ∧
    NoDup d.*1 ∧
    StronglySorted (Parser.longer_first len) d ∧
    ∀ p r, (p, r) ∈ d ↔ Parser.last_mounted p mounts = Some r.
Proof. apply mounted_ok. Qed.

(** X25: [get_retriever] returns the retriever of a longest mounted prefix
    that the URL starts with, letter case aside: the retriever it returns
    is the one given in the last [mount_retriever] call for a prefix that
    the URL starts with, and no mounted prefix that the URL starts with is
    longer. *)
Theorem get_retriever_longest_prefix (len : string → nat)
    (lower : string → string) {Retriever : Type}
    (mounts : list (string * Retriever)) (d : list (string * Retriever))
    (url : string) (r : Retriever) :
  Parser.mounted len mounts = Some d →
  Parser.get_retriever lower url d = Some r →
  ∃ p,
    Parser.last_mounted p mounts = Some r ∧
    Parser.starts_with lower url p ∧
    ∀ p', p' ∈ mounts.*1 → Parser.starts_with lower url p' →
          (len p' ≤ len p)%nat.
Proof.
  intros Hd Hget.
  destruct (mounted_ok len mounts) as (d' & Hd' & _ & Hsorted & Hlast).
  rewrite Hd in Hd'. injection Hd' as <-.
  unfold Parser.get_retriever in Hget.
  apply fmap_Some in Hget as ([i [p r']] & Hfind & ->). simpl.
  apply list_find_Some in Hfind as (Hi & Hp & Hfirst). simpl in Hp.
  exists p. split_and!; [|done|].
  - apply Hlast. by eapply list_elem_of_lookup_2.
  - intros p' Hp' Hstarts.
    destruct (last_mounted_is_Some p' mounts Hp') as [r'' Hr''].
    apply Hlast, list_elem_of_lookup_1 in Hr'' as [j Hj].
    destruct (Nat.lt_trichotomy j i) as [Hlt|[->|Hgt]].
    + by destruct (Hfirst j (p', r'') Hj Hlt).
    + rewrite Hi in Hj. by injection Hj as -> _.
    + apply (StronglySorted_lookup _ _ _ _ _ _ Hsorted Hgt Hi Hj).
Qed.

Lemma get_retriever_longest_prefix_witness :
  ∃ p,
    Parser.last_mounted p
      [("http://", Parser.HTTPRetriever); ("", Parser.FileRetriever "/feeds");
       ("https://", Parser.HTTPRetriever)]
    = Some Parser.HTTPRetriever ∧
    Parser.starts_with lower "HTTPS://example.com/feed" p ∧
    ∀ p', p' ∈ ["http://"; ""; "https://"] →
          Parser.starts_with lower "HTTPS://example.com/feed" p' →
          (String.length p' ≤ String.length p)%nat.
Proof.
  apply (get_retriever_longest_prefix String.length lower
           [("http://", Parser.HTTPRetriever);
            ("", Parser.FileRetriever "/feeds");
            ("https://", Parser.HTTPRetriever)]
           [("https://", Parser.HTTPRetriever);
            ("http://", Parser.HTTPRetriever);
            ("", Parser.FileRetriever "/feeds")]).
  - reflexivity.
  - reflexivity.
Defined.

(** X26: [get_retriever] raises [ParseError] exactly when the URL starts
    with none of the mounted prefixes. *)
Theorem get_retriever_no_retriever (len : string → nat)
    (lower : string → string) {Retriever : Type}
    (mounts : list (string * Retriever)) (d : list (string * Retriever))
    (url : string) :
  Parser.mounted len mounts = Some d →
  Parser.get_retriever lower url d = None ↔
  ∀ p, p ∈ mounts.*1 → ¬ Parser.starts_with lower url p.
Proof.
  intros Hd.
  destruct (mounted_ok len mounts) as (d' & Hd' & _ & _ & Hlast).
  rewrite Hd in Hd'. injection Hd' as <-.
  unfold Parser.get_retriever. rewrite fmap_None, list_find_None, Forall_forall.
  split.
  - intros Hnone p Hp.
    destruct (last_mounted_is_Some p mounts Hp) as [r Hr].
    apply Hlast in Hr. apply (Hnone _ Hr).
  - intros Hnone [p r] Hin. simpl. apply Hnone.
    apply Hlast in Hin. by eapply last_mounted_elem_of.
Qed.

Lemma get_retriever_no_retriever_witness :
  Parser.get_retriever lower "ftp://example.com/feed"
    [("https://", Parser.HTTPRetriever); ("http://", Parser.HTTPRetriever)]
  = None ↔
  ∀ p, p ∈ ["http://"; "https://"] →
       ¬ Parser.starts_with lower "ftp://example.com/feed" p.
Proof.
  apply (get_retriever_no_retriever String.length lower
           [("http://", Parser.HTTPRetriever);
            ("https://", Parser.HTTPRetriever)]).
  reflexivity.
Defined.

(** X27: the parser that [default_parser] builds hands every URL that
    starts with [http://] or [https://], in any letter case, to the HTTP
    retriever; every other URL goes to the file retriever when a feed root
    was given, and is refused with [ParseError] when none was. *)
Theorem default_parser_retrievers (len : string → nat)
    (lower : string → string) {Retriever : Type}
    (http_retriever : Retriever) (file_retriever : option Retriever)
    (url : string) :
  (len "" < len "http://")%nat →
  (len "http://" < len "https://")%nat →
  lower "" = "" → lower "http://" = "http://" →
  lower "https://" = "https://" →
  ∃ d,
    Parser.default_parser len http_retriever file_retriever = Some d ∧
    Parser.get_retriever lower url d
    = if String.prefix "https://" (lower url)
         || String.prefix "http://" (lower url)
      then Some http_retriever else file_retriever.
Proof.
  intros Hlen0 Hlen1 Hlower0 Hlower1 Hlower2.
  unfold Parser.default_parser.
  rewrite (mount_retriever_eq len "https://" http_retriever [])
    by constructor.
  simpl. rewrite filter_cons_True by (simpl; lia).
  rewrite filter_cons_False by (simpl; lia). rewrite !filter_nil. simpl.
  rewrite (mount_retriever_eq len "http://" http_retriever)
    by (simpl; by apply (bool_decide_unpack _)).
  simpl. rewrite filter_cons_True by (simpl; lia).
  rewrite filter_cons_True by (simpl; lia).
  rewrite (filter_cons_False _ ("https://", http_retriever))
    by (simpl; lia).
  rewrite (filter_cons_False _ ("http://", http_retriever)) by (simpl; lia).
  rewrite !filter_nil. simpl.
  destruct file_retriever as [file|].
  - rewrite (mount_retriever_eq len "" file)
      by (simpl; by apply (bool_decide_unpack _)).
    simpl. rewrite !filter_cons_True by (simpl; lia).
    rewrite !filter_cons_False by (simpl; lia).
    rewrite !filter_nil. simpl. eexists. split; [done|].
    unfold Parser.get_retriever, Parser.starts_with. simpl.
    rewrite Hlower0, Hlower1, Hlower2.
    destruct (String.prefix "https://" (lower url)); simpl; [done|].
    destruct (String.prefix "http://" (lower url)); simpl; [done|].
    by destruct (lower url).
  - eexists. split; [done|].
    unfold Parser.get_retriever, Parser.starts_with. simpl.
    rewrite Hlower1, Hlower2.
    destruct (String.prefix "https://" (lower url)); simpl; [done|].
    by destruct (String.prefix "http://" (lower url)).
Qed.

Lemma default_parser_retrievers_witness :
  ∃ d,
    Parser.default_parser String.length Parser.HTTPRetriever
      (Some (Parser.FileRetriever "/feeds")) = Some d ∧
    Parser.get_retriever lower "feed.xml" d
    = Some (Parser.FileRetriever "/feeds").
Proof.
  apply (default_parser_retrievers String.length lower Parser.HTTPRetriever
           (Some (Parser.FileRetriever "/feeds")) "feed.xml").
  - simpl. lia.
  - simpl. lia.
  - reflexivity.
  - reflexivity.
  - reflexivity.
Defined.
